(** * obj3d: a shallow embedding of the OBJ viewer (src/obj3d.py)

    The development follows the source file top to bottom:
    - [PyStr]   the Python string operations the loader calls
                ([str.startswith], [str.strip], [str.split], iteration over
                the lines of a text file);
    - [PyNum]   the builtins [int] and [float] applied to a token;
    - [Loader]  [load_obj];
    - [Normal]  [compute_normal], written over an arithmetic and read at
                binary64; [Binary64] the real numbers binary64 numbers
                stand for;
    - [Viewer]  [draw_mesh], and the event loop of [main] as a step function;
    - [Spec]    the words the statements are written in, [Demo] sample
                files and viewer states;
    - [Steps]   [load_obj] once more, as a step relation;
    - [DrawSpec] the words of the statements about drawing, [Loop] the
                [while] loop of [main];
    - the properties, in the order of the source, then further properties
      of the loader, of [draw_mesh] and of the event loop.

    Python [int] is [Z]; Python [float] and [numpy.float64] are the kernel's
    binary64 [float]; a [str] is a [string] whose characters are the code
    points of the decoded text (code points below 256). *)

From Stdlib Require Import ZArith List String Ascii Bool Lia.
From Stdlib Require Import Floats.PrimFloat Floats.SpecFloat Floats.FloatOps.
From Stdlib Require Floats.FloatAxioms Reals Lra.
Import ListNotations.

Set Implicit Arguments.
Set Warnings "-inexact-float".

(** ** Exceptions

    A block of statements either runs to its end or raises; in both cases
    the mutable objects it was appending to keep what was appended so far.
    [Done s] and [Raised s] carry that state. *)

Inductive outcome (S : Type) : Type :=
| Done (s : S)
| Raised (s : S).

Arguments Done {S} s.
Arguments Raised {S} s.

Definition state_of {S : Type} (o : outcome S) : S :=
  match o with Done s => s | Raised s => s end.

Definition raised {S : Type} (o : outcome S) : bool :=
  match o with Done _ => false | Raised _ => true end.

(** ** Python strings *)

Module PyStr.

Local Open Scope string_scope.

Definition LF : ascii := ascii_of_nat 10.
Definition CR : ascii := ascii_of_nat 13.

(** [str.isspace] on one character: U+0009..U+000D, U+001C..U+0020,
    U+0085 and U+00A0. *)
Definition is_space (c : ascii) : bool :=
  let n := N_of_ascii c in
  ((9 <=? n) && (n <=? 13) || (28 <=? n) && (n <=? 32)
   || (n =? 133) || (n =? 160))%N.

Definition is_empty (s : string) : bool :=
  match s with EmptyString => true | String _ _ => false end.

(** [s.startswith(p)] *)
Fixpoint startswith (s p : string) : bool :=
  match p, s with
  | EmptyString, _ => true
  | String _ _, EmptyString => false
  | String a p', String b s' => Ascii.eqb a b && startswith s' p'
  end.

Fixpoint lstrip (s : string) : string :=
  match s with
  | EmptyString => EmptyString
  | String c s' => if is_space c then lstrip s' else s
  end.

Fixpoint rstrip (s : string) : string :=
  match s with
  | EmptyString => EmptyString
  | String c s' =>
      let r := rstrip s' in
      if is_space c && is_empty r then EmptyString else String c r
  end.

(** [s.strip()] *)
Definition strip (s : string) : string := rstrip (lstrip s).

(** [s.split()] with no separator: the maximal runs of non-space
    characters, in order. [cur] is the token being read. *)
Fixpoint split_from (cur : string) (s : string) : list string :=
  match s with
  | EmptyString => if is_empty cur then [] else [cur]
  | String c s' =>
      if is_space c
      then (if is_empty cur then split_from "" s' else cur :: split_from "" s')
      else split_from (cur ++ String c "") s'
  end.

Definition split (s : string) : list string := split_from "" s.

(** [s.split(sep)] for a one-character separator: never empty. *)
Fixpoint split_on (sep : ascii) (s : string) : list string :=
  match s with
  | EmptyString => [""]
  | String c s' =>
      if Ascii.eqb c sep then "" :: split_on sep s'
      else match split_on sep s' with
           | [] => [String c ""]
           | t :: ts => String c t :: ts
           end
  end.

(** Text-mode reading with universal newlines: CR LF and a lone CR are
    read as LF. [after_cr] says that the previous character was a CR. *)
Fixpoint universal_newlines (after_cr : bool) (s : string) : string :=
  match s with
  | EmptyString => EmptyString
  | String c s' =>
      if Ascii.eqb c CR then String LF (universal_newlines true s')
      else if Ascii.eqb c LF
           then (if after_cr then universal_newlines false s'
                 else String LF (universal_newlines false s'))
           else String c (universal_newlines false s')
  end.

(** [for line in f]: the lines of the text, each with its LF; a last line
    without LF is a line too. *)
Fixpoint lines_of (s : string) : list string :=
  match s with
  | EmptyString => []
  | String c s' =>
      if Ascii.eqb c LF then String c "" :: lines_of s'
      else match lines_of s' with
           | [] => [String c ""]
           | l :: ls => String c l :: ls
           end
  end.

Definition readlines (text : string) : list string :=
  lines_of (universal_newlines false text).

(** [x[i]] on a list: negative indices count from the end; out of range is
    an IndexError ([None]). *)
Definition getitem {A : Type} (l : list A) (i : Z) : option A :=
  let n := Z.of_nat (List.length l) in
  if (0 <=? i)%Z then nth_error l (Z.to_nat i)
  else if (- n <=? i)%Z then nth_error l (Z.to_nat (n + i))
  else None.

(** [range(lo, hi)] *)
Definition range (lo hi : Z) : list Z :=
  map (fun k => (lo + Z.of_nat k)%Z) (seq 0 (Z.to_nat (hi - lo))).

(** [l[lo:hi]] for 0 <= lo <= hi *)
Definition slice {A : Type} (l : list A) (lo hi : nat) : list A :=
  firstn (hi - lo) (skipn lo l).

End PyStr.

(** ** The builtins [int] and [float] on a string *)

Module PyNum.

Import PyStr.
Local Open Scope string_scope.
Local Open Scope Z_scope.

Definition digit_of (c : ascii) : option Z :=
  let n := N_of_ascii c in
  if ((48 <=? n) && (n <=? 57))%N then Some (Z.of_N (n - 48)) else None.

Definition is_digit (c : ascii) : bool :=
  match digit_of c with Some _ => true | None => false end.

(** A run of decimal digits in which single underscores may separate two
    digits; the whole string must be such a run. [after_digit] says that
    the previous character was a digit. *)
Fixpoint digitpart (acc : Z) (after_digit : bool) (s : string) : option Z :=
  match s with
  | EmptyString => if after_digit then Some acc else None
  | String c s' =>
      match digit_of c with
      | Some d => digitpart (10 * acc + d) true s'
      | None =>
          if Ascii.eqb c "_" && after_digit then digitpart acc false s'
          else None
      end
  end.

(** [int(s)], base 10: optional surrounding white space, an optional sign,
    then a digit part. [None] is ValueError. (The interpreter's cap on the
    number of digits of one literal is not modelled.) *)
Definition py_int (s : string) : option Z :=
  match strip s with
  | String "+" r => digitpart 0 false r
  | String "-" r => option_map Z.opp (digitpart 0 false r)
  | r => digitpart 0 false r
  end.

(** *** Decimal text to binary64, correctly rounded *)

(** The float nearest to [m * 2^e] (ties to even). *)
Definition round_to_float (m e : Z) (negative_zero : bool) : float :=
  SF2Prim (binary_normalize prec emax m e negative_zero).

(** [float(z)] for an int, as in [z * 0.5]. (OverflowError for an int
    beyond the binary64 range is not modelled: it reads as an infinity.) *)
Definition float_of_Z (z : Z) : float := round_to_float z 0 false.

(** The float nearest to [(-1)^neg * m * 10^e], for [0 <= m]. For a
    negative exponent the quotient is taken with 64 bits or more and one
    sticky bit, which rounds as the exact quotient does. *)
Definition decimal_to_float (neg : bool) (m e : Z) : float :=
  let sgn (z : Z) := if neg then - z else z in
  if 0 <=? e then round_to_float (sgn (m * 10 ^ e)) 0 neg
  else
    let d := 10 ^ (- e) in
    let s := Z.log2_up d + 64 in
    let q := (m * 2 ^ s) / d in
    let r := (m * 2 ^ s) mod d in
    let sticky := if r =? 0 then 0 else 1 in
    round_to_float (sgn (2 * q + sticky)) (- (s + 1)) neg.

(** Underscores are dropped from a numeric literal, provided each one
    stands between two digits. [prev] is the previous character. *)
Fixpoint drop_underscores (prev : ascii) (s : string) : option string :=
  match s with
  | EmptyString => if Ascii.eqb prev "_" then None else Some EmptyString
  | String c s' =>
      if Ascii.eqb c "_"
      then (if is_digit prev then drop_underscores c s' else None)
      else if Ascii.eqb prev "_" && negb (is_digit c) then None
           else option_map (String c) (drop_underscores c s')
  end.

(** The longest run of digits at the head of [s]: its value on top of
    [acc], its length on top of [n], and what follows. *)
Fixpoint scan_digits (acc : Z) (n : nat) (s : string) : Z * nat * string :=
  match s with
  | EmptyString => (acc, n, s)
  | String c s' =>
      match digit_of c with
      | Some d => scan_digits (10 * acc + d) (S n) s'
      | None => (acc, n, s)
      end
  end.

Definition take_sign (s : string) : bool * string :=
  match s with
  | String "+" r => (false, r)
  | String "-" r => (true, r)
  | _ => (false, s)
  end.

(** digits [. digits] [(e|E) [sign] digits], at least one digit before the
    exponent: the pair [(m, e)] stands for [m * 10^e]. *)
Definition parse_decimal (s : string) : option (Z * Z) :=
  let '(m1, n1, r1) := scan_digits 0 0 s in
  let '(m2, n2, r2) :=
    match r1 with
    | String "." r => scan_digits m1 0 r
    | _ => (m1, 0%nat, r1)
    end in
  if (n1 + n2 =? 0)%nat then None
  else
    match r2 with
    | EmptyString => Some (m2, - Z.of_nat n2)
    | String c r =>
        if Ascii.eqb c "e" || Ascii.eqb c "E"
        then
          let '(eneg, r') := take_sign r in
          let '(ev, en, r3) := scan_digits 0 0 r' in
          if (en =? 0)%nat || negb (is_empty r3) then None
          else Some (m2, (if eneg then - ev else ev) - Z.of_nat n2)
        else None
    end.

Definition lower (c : ascii) : ascii :=
  let n := N_of_ascii c in
  if ((65 <=? n) && (n <=? 90))%N then ascii_of_N (n + 32) else c.

Fixpoint lowercase (s : string) : string :=
  match s with
  | EmptyString => EmptyString
  | String c s' => String (lower c) (lowercase s')
  end.

(** [float(s)]: optional surrounding white space, an optional sign, then
    inf, infinity or nan in any case, or a decimal literal. [None] is
    ValueError. *)
Definition py_float (s : string) : option float :=
  match drop_underscores "000" (strip s) with
  | None => None
  | Some t =>
      let '(neg, body) := take_sign t in
      let word := lowercase body in
      if String.eqb word "inf" || String.eqb word "infinity"
      then Some (if neg then neg_infinity else infinity)
      else if String.eqb word "nan" then Some nan
      else match parse_decimal body with
           | Some (m, e) => Some (decimal_to_float neg m e)
           | None => None
           end
  end.

End PyNum.


(** ** [load_obj] *)

Module Loader.

Import PyStr PyNum.
Local Open Scope string_scope.
Local Open Scope list_scope.
Local Open Scope Z_scope.

Definition vertex : Type := float * float * float.

(** A stored face is a Python list of ints; the loader only stores lists of
    three. *)
Definition triangle : Type := list Z.

(** The two lists [verts] and [faces] the loader appends to and returns. *)
Definition mesh : Type := list vertex * list triangle.

Definition len {A : Type} (l : list A) : Z := Z.of_nat (List.length l).

(** [x, y, z = map(float, parts[1:4])]: ValueError when the slice has
    fewer than three tokens or one of them is no float. *)
Definition parse_vertex (parts : list string) : option vertex :=
  match slice parts 1 4 with
  | [a; b; c] =>
      match py_float a, py_float b, py_float c with
      | Some x, Some y, Some z => Some (x, y, z)
      | _, _, _ => None
      end
  | _ => None
  end.

(** [v.split('/')[0]] *)
Definition position_component (v : string) : string :=
  hd "" (split_on "/" v).

(** The loop over [parts[1:]] that fills the local list [face];
    ValueError when a non-empty position component is no int. *)
Fixpoint face_indices (tokens : list string) (face : list Z)
  : option (list Z) :=
  match tokens with
  | [] => Some face
  | v :: rest =>
      let idx := position_component v in
      if is_empty idx then face_indices rest face
      else match py_int idx with
           | Some k => face_indices rest (face ++ [k - 1])
           | None => None
           end
  end.

(** [for i in range(1, len(face)-1): faces.append([face[0], face[i],
    face[i+1]])], over the remaining values of [i]. *)
Fixpoint fan_loop (face : list Z) (todo : list Z) (faces : list triangle)
  : outcome (list triangle) :=
  match todo with
  | [] => Done faces
  | i :: todo' =>
      match getitem face 0, getitem face i, getitem face (i + 1) with
      | Some a, Some b, Some c => fan_loop face todo' (faces ++ [[a; b; c]])
      | _, _, _ => Raised faces
      end
  end.

(** Lines 47 to 54: what a resolved face adds to [faces]. *)
Definition add_face (face : list Z) (faces : list triangle)
  : outcome (list triangle) :=
  if 3 <=? len face
  then (if len face =? 3 then Done (faces ++ [face])
        else fan_loop face (range 1 (len face - 1)) faces)
  else Done faces.

(** The body of [for line in f], on the lists built so far. *)
Definition process_line (m : mesh) (line : string) : outcome mesh :=
  let '(verts, faces) := m in
  if startswith line "#" then Done m
  else
    match split (strip line) with
    | [] => Done m
    | p0 :: rest =>
        if String.eqb p0 "v" then
          match parse_vertex (p0 :: rest) with
          | Some v => Done (verts ++ [v], faces)
          | None => Raised m
          end
        else if String.eqb p0 "f" then
          match face_indices rest [] with
          | Some face =>
              match add_face face faces with
              | Done faces' => Done (verts, faces')
              | Raised faces' => Raised (verts, faces')
              end
          | None => Raised m
          end
        else Done m
    end.

(** The [for] loop: it ends with the file or at the first exception. *)
Fixpoint read_loop (lines : list string) (m : mesh) : outcome mesh :=
  match lines with
  | [] => Done m
  | line :: rest =>
      match process_line m line with
      | Done m' => read_loop rest m'
      | Raised m' => Raised m'
      end
  end.

(** The [try] block on the text of the file; [None] is a file that cannot
    be opened (the exception is raised before anything is read). *)
Definition try_block (file : option string) : outcome mesh :=
  match file with
  | None => Raised ([], [])
  | Some text => read_loop (readlines text) ([], [])
  end.

(** [load_obj]: the [except] clause prints and falls through to
    [return verts, faces]. *)
Definition load_obj (file : option string) : mesh :=
  state_of (try_block file).

End Loader.


(** ** [load_obj] as a step relation

    The same code read statement by statement, as a relation between what
    is read and what is built: one rule per branch of the source. Nothing
    in it is a function, so that what one run of it returns is not equal
    to what another returns by the way it is written. *)

Module Steps.

Import PyStr PyNum Loader.
Local Open Scope string_scope.
Local Open Scope list_scope.
Local Open Scope Z_scope.







End Steps.

(** ** [compute_normal] *)

Module Normal.

(** The arithmetic [compute_normal] is written in: the operations of
    [numpy.float64]. [is_zero x] is the test [x == 0]. *)
Record arith (F : Type) : Type := Arith {
  zero : F;
  one : F;
  add : F -> F -> F;
  sub : F -> F -> F;
  mul : F -> F -> F;
  div : F -> F -> F;
  sqrt : F -> F;
  is_zero : F -> bool
}.

Section Generic.

Variable F : Type.
Variable A : arith F.

Definition vec : Type := F * F * F.

(** [np.array(u) - np.array(v)] *)
Definition vsub (u v : vec) : vec :=
  let '(u0, u1, u2) := u in
  let '(v0, v1, v2) := v in
  (sub A u0 v0, sub A u1 v1, sub A u2 v2).

(** [np.cross(a, b)] for two vectors of three components. *)
Definition cross (a b : vec) : vec :=
  let '(a0, a1, a2) := a in
  let '(b0, b1, b2) := b in
  (sub A (mul A a1 b2) (mul A a2 b1),
   sub A (mul A a2 b0) (mul A a0 b2),
   sub A (mul A a0 b1) (mul A a1 b0)).

(** [x.dot(x)], summed left to right. *)
Definition sqnorm (x : vec) : F :=
  let '(x0, x1, x2) := x in
  add A (add A (mul A x0 x0) (mul A x1 x1)) (mul A x2 x2).

(** [np.linalg.norm(x)] is [sqrt(x.dot(x))] for a real vector. *)
Definition norm (x : vec) : F := sqrt A (sqnorm x).

(** [n / norm] *)
Definition vdiv (n : vec) (d : F) : vec :=
  let '(n0, n1, n2) := n in
  (div A n0 d, div A n1 d, div A n2 d).

Definition compute_normal (v0 v1 v2 : vec) : vec :=
  let a := vsub v1 v0 in
  let b := vsub v2 v0 in
  let n := cross a b in
  let nrm := norm n in
  if is_zero A nrm then (zero A, zero A, one A)
  else vdiv n nrm.

End Generic.

(** IEEE 754 binary64: [-0.0 == 0] holds and [nan == 0] does not. *)
Definition binary64 : arith float :=
  {| zero := 0%float; one := 1%float;
     add := PrimFloat.add; sub := PrimFloat.sub;
     mul := PrimFloat.mul; div := PrimFloat.div;
     sqrt := PrimFloat.sqrt;
     is_zero := fun x => PrimFloat.eqb x 0%float |}.

End Normal.

(** ** The values of binary64 numbers

    The words of the statements about [compute_normal]: the real number a
    binary64 number stands for, and the range in which squaring, adding,
    taking the square root and dividing neither overflow nor underflow. *)

Module Binary64.

Import Reals.
Import Loader.
Local Open Scope R_scope.

(** [2^e] *)
Definition bpow (e : Z) : R := powerRZ 2 e.

Definition F2R (s : bool) (m : positive) (e : Z) : R :=
  if s then - (IZR (Zpos m) * bpow e) else IZR (Zpos m) * bpow e.

(** The real number a finite [spec_float] stands for (0 for the others). *)
Definition SF2R (x : spec_float) : R :=
  match x with
  | S754_finite s m e => F2R s m e
  | _ => 0
  end.

Definition canonical (m : positive) (e : Z) : Prop :=
  canonical_mantissa 53 1024 m e = true.

(** The relative error of one rounding is at most [2^-52]. *)
Definition eps : R := bpow (-52).

Definition V (m : positive) (e : Z) : R := IZR (Zpos m) * bpow e.

(** The real number a binary64 number stands for (0 for the infinities
    and for nan). *)
Definition B2R (x : float) : R := SF2R (Prim2SF x).

Definition finite (x : float) : bool :=
  match Prim2SF x with
  | S754_zero _ | S754_finite _ _ _ => true
  | _ => false
  end.

(** Zero, or a finite number of magnitude in [[2^-500, 2^500)]: one whose
    mantissa of 53 bits has an exponent between -552 and 447. *)
Definition moderate (x : float) : bool :=
  match Prim2SF x with
  | S754_zero _ => true
  | S754_finite _ _ e => ((-552 <=? e) && (e <=? 447))%Z
  | _ => false
  end.

(** [near d f x]: the binary64 number [f] is not negative and stands for
    the real [x >= 0] up to the relative error [d]; it is [+0] when [x]
    is 0. *)
Definition near (d : R) (f : float) (x : R) : Prop :=
  (Prim2SF f = S754_zero false /\ x = 0) \/
  (exists m e, Prim2SF f = S754_finite false m e /\ 0 < x /\
               Rabs (V m e - x) <= d * x).

Definition in_range (n : vertex) : bool :=
  let '(n0, n1, n2) := n in moderate n0 && moderate n1 && moderate n2.

(** Every component compares equal to 0. *)
Definition all_zero (n : vertex) : bool :=
  let '(n0, n1, n2) := n in
  PrimFloat.eqb n0 0 && PrimFloat.eqb n1 0 && PrimFloat.eqb n2 0.

Definition all_finite (r : vertex) : bool :=
  let '(r0, r1, r2) := r in finite r0 && finite r1 && finite r2.

Definition coords (r : vertex) : R * R * R :=
  let '(r0, r1, r2) := r in (B2R r0, B2R r1, B2R r2).

(** The length of a vector, over the reals. *)
Definition magnitude (r : vertex) : R :=
  let '(x, y, z) := coords r in sqrt (x * x + y * y + z * z).

(** [n / |n|], over the reals. *)
Definition normalized (n : vertex) : R * R * R :=
  let '(x, y, z) := coords n in
  (x / magnitude n, y / magnitude n, z / magnitude n).

(** [r] is [u] up to the relative error [c]. *)
Definition close (c r u : R) : Prop := Rabs (r - u) <= c * Rabs u.

Definition close3 (c : R) (r u : R * R * R) : Prop :=
  let '(r0, r1, r2) := r in
  let '(u0, u1, u2) := u in
  close c r0 u0 /\ close c r1 u1 /\ close c r2 u2.

(** The three points lie on one line: the cross product of [v1 - v0] and
    [v2 - v0], over the reals, is zero. *)
Definition collinear (v0 v1 v2 : vertex) : Prop :=
  let '(x0, y0, z0) := coords v0 in
  let '(x1, y1, z1) := coords v1 in
  let '(x2, y2, z2) := coords v2 in
  (y1 - y0) * (z2 - z0) - (z1 - z0) * (y2 - y0) = 0 /\
  (z1 - z0) * (x2 - x0) - (x1 - x0) * (z2 - z0) = 0 /\
  (x1 - x0) * (y2 - y0) - (y1 - y0) * (x2 - x0) = 0.

End Binary64.

(** ** [draw_mesh] and the event loop of [main] *)

Module Viewer.

Import PyStr PyNum Loader.
Local Open Scope string_scope.
Local Open Scope list_scope.

(** The calls made on the graphics library, in the order they are made. *)
Inductive gl_call : Type :=
| glClear
| glMatrixMode_MODELVIEW
| glLoadIdentity
| gluLookAt (eye_z : float)
| glRotatef (angle x y z : float)
| glColor3f (r g b : float)
| glBegin_TRIANGLES
| glNormal3f (x y z : float)
| glVertex3f (x y z : float)
| glEnd
| display_flip.

Definition compute_normal (v0 v1 v2 : vertex) : vertex :=
  Normal.compute_normal Normal.binary64 v0 v1 v2.

(** [for idx in f: glVertex3f( *verts[idx])] *)
Fixpoint emit_vertices (verts : list vertex) (f : list Z)
  (out : list gl_call) : outcome (list gl_call) :=
  match f with
  | [] => Done out
  | idx :: rest =>
      match getitem verts idx with
      | Some (x, y, z) => emit_vertices verts rest (out ++ [glVertex3f x y z])
      | None => Raised out
      end
  end.

(** [verts[f[k]]]: IndexError when either subscript is out of range. *)
Definition corner (verts : list vertex) (f : triangle) (k : Z)
  : option vertex :=
  match getitem f k with
  | Some i => getitem verts i
  | None => None
  end.

(** The body of [for f in faces]. *)
Definition draw_face (verts : list vertex) (f : triangle)
  (out : list gl_call) : outcome (list gl_call) :=
  match corner verts f 0, corner verts f 1, corner verts f 2 with
  | Some v0, Some v1, Some v2 =>
      let '(nx, ny, nz) := compute_normal v0 v1 v2 in
      emit_vertices verts f (out ++ [glNormal3f nx ny nz])
  | _, _, _ => Raised out
  end.

Fixpoint draw_faces (verts : list vertex) (faces : list triangle)
  (out : list gl_call) : outcome (list gl_call) :=
  match faces with
  | [] => Done out
  | f :: rest =>
      match draw_face verts f out with
      | Done out' => draw_faces verts rest out'
      | Raised out' => Raised out'
      end
  end.

Definition draw_mesh (verts : list vertex) (faces : list triangle)
  (out : list gl_call) : outcome (list gl_call) :=
  match draw_faces verts faces (out ++ [glBegin_TRIANGLES]) with
  | Done out' => Done (out' ++ [glEnd])
  | Raised out' => Raised out'
  end.

(** What the program sees of the outside: the text of each readable file,
    and the paths the file dialog will return, one per call (the empty
    string is a cancelled dialog). *)
Record world : Type := World {
  files : string -> option string;
  dialog : list string
}.

Definition open_file_dialog (w : world) : string * world :=
  match dialog w with
  | [] => ("", w)
  | p :: ps => (p, {| files := files w; dialog := ps |})
  end.

Inductive key : Type := K_ESCAPE | K_o | K_r | K_UP | K_DOWN | K_other.

Inductive event : Type :=
| QUIT
| KEYDOWN (k : key)
| MOUSEBUTTONDOWN (button : Z) (pos : Z * Z)
| MOUSEBUTTONUP (button : Z)
| MOUSEMOTION (pos : Z * Z)
| OTHER.

(** The local variables of [main] that live across the loop. *)
Record viewer : Type := Viewer {
  verts : list vertex;
  faces : list triangle;
  zoom : float;
  rot_x : float;
  rot_y : float;
  mouse_down : bool;
  last_mouse : Z * Z;
  running : bool
}.

Definition truthy {A : Type} (l : list A) : bool :=
  match l with [] => false | _ :: _ => true end.

(** [main] up to the loop: [None] is one of the two early returns. *)
Definition startup (w : world) (argv : list string)
  : world * option viewer :=
  let '(path, w1) :=
    match argv with
    | _ :: p :: _ => (p, w)
    | _ => open_file_dialog w
    end in
  if is_empty path then (w1, None)
  else
    let '(vs, fs) := load_obj (files w1 path) in
    if negb (truthy vs) || negb (truthy fs) then (w1, None)
    else (w1, Some {| verts := vs; faces := fs; zoom := 5.0;
                      rot_x := 0.0; rot_y := 0.0; mouse_down := false;
                      last_mouse := (0, 0)%Z; running := true |}).

Definition set_mesh (st : viewer) (m : mesh) : viewer :=
  {| verts := fst m; faces := snd m; zoom := zoom st; rot_x := rot_x st;
     rot_y := rot_y st; mouse_down := mouse_down st;
     last_mouse := last_mouse st; running := running st |}.

Definition set_zoom (st : viewer) (z : float) : viewer :=
  {| verts := verts st; faces := faces st; zoom := z; rot_x := rot_x st;
     rot_y := rot_y st; mouse_down := mouse_down st;
     last_mouse := last_mouse st; running := running st |}.

Definition set_rot (st : viewer) (rx ry : float) : viewer :=
  {| verts := verts st; faces := faces st; zoom := zoom st; rot_x := rx;
     rot_y := ry; mouse_down := mouse_down st;
     last_mouse := last_mouse st; running := running st |}.

Definition set_mouse (st : viewer) (down : bool) (pos : Z * Z) : viewer :=
  {| verts := verts st; faces := faces st; zoom := zoom st;
     rot_x := rot_x st; rot_y := rot_y st; mouse_down := down;
     last_mouse := pos; running := running st |}.

Definition stop (st : viewer) : viewer :=
  {| verts := verts st; faces := faces st; zoom := zoom st;
     rot_x := rot_x st; rot_y := rot_y st; mouse_down := mouse_down st;
     last_mouse := last_mouse st; running := false |}.

(** The body of [for event in pygame.event.get()]. *)
Definition handle_event (w : world) (st : viewer) (ev : event)
  : world * viewer :=
  match ev with
  | QUIT => (w, stop st)
  | KEYDOWN K_ESCAPE => (w, stop st)
  | KEYDOWN K_o =>
      let '(newpath, w') := open_file_dialog w in
      if is_empty newpath then (w', st)
      else (w', set_mesh st (load_obj (files w' newpath)))
  | KEYDOWN K_r => (w, set_rot st 0.0 0.0)
  | KEYDOWN K_UP => (w, set_zoom st (zoom st - 1.0))
  | KEYDOWN K_DOWN => (w, set_zoom st (zoom st + 1.0))
  | KEYDOWN K_other => (w, st)
  | MOUSEBUTTONDOWN button pos =>
      if (button =? 1)%Z then (w, set_mouse st true pos)
      else if (button =? 4)%Z then (w, set_zoom st (zoom st - 0.5))
      else if (button =? 5)%Z then (w, set_zoom st (zoom st + 0.5))
      else (w, st)
  | MOUSEBUTTONUP button =>
      if (button =? 1)%Z then (w, set_mouse st false (last_mouse st))
      else (w, st)
  | MOUSEMOTION pos =>
      if mouse_down st then
        let dx := (fst pos - fst (last_mouse st))%Z in
        let dy := (snd pos - snd (last_mouse st))%Z in
        let st' := set_rot st (rot_x st + float_of_Z dy * 0.5)
                              (rot_y st + float_of_Z dx * 0.5) in
        (w, set_mouse st' true pos)
      else (w, st)
  | OTHER => (w, st)
  end.

Fixpoint handle_events (w : world) (st : viewer) (evs : list event)
  : world * viewer :=
  match evs with
  | [] => (w, st)
  | ev :: rest =>
      let '(w', st') := handle_event w st ev in
      handle_events w' st' rest
  end.

(** Each iteration clears the buffers and sets the camera from [zoom],
    [rot_x] and [rot_y]. *)
Definition frame_head (st : viewer) : list gl_call :=
  [glClear; glMatrixMode_MODELVIEW; glLoadIdentity; gluLookAt (zoom st);
   glRotatef (rot_x st) 1 0 0; glRotatef (rot_y st) 0 1 0].

(** The rest of one iteration of the loop: what is drawn. *)
Definition render (st : viewer) : outcome (list gl_call) :=
  if truthy (verts st) && truthy (faces st) then
    match draw_mesh (verts st) (faces st)
            (frame_head st ++ [glColor3f 0.6 0.5 0.0]) with
    | Done out => Done (out ++ [display_flip])
    | Raised out => Raised out
    end
  else Done (frame_head st ++ [display_flip]).

End Viewer.

(** ** Vocabulary of the statements *)

Module Spec.

Import PyStr PyNum Loader.
Local Open Scope string_scope.
Local Open Scope list_scope.

(** A position component: a string with no slash in it. *)
Fixpoint no_slash (s : string) : bool :=
  match s with
  | EmptyString => true
  | String c s' => negb (Ascii.eqb c "/") && no_slash s'
  end.

(** The triangles a face of [n] indices stands for, in the words of the
    file format: none below three indices, the face itself at three, and
    above three the fan [face[0], face[i], face[i+1]] for [i] from 1 to
    [n - 2]. *)
Definition fan_spec (face : list Z) : list triangle :=
  let n := List.length face in
  let at_ (i : nat) := nth i face 0%Z in
  if (n <? 3)%nat then []
  else if (n =? 3)%nat then [face]
  else map (fun i => [at_ 0%nat; at_ i; at_ (S i)]) (seq 1 (n - 2)).

(** The position indices written on a line, as the loader reads them:
    none unless the first token is [f]; then the int before the first
    slash of every following token that has one. These are the 1-based
    numbers of the file, before the loader subtracts 1. *)
Definition face_refs (line : string) : list Z :=
  match split (strip line) with
  | p0 :: rest =>
      if String.eqb p0 "f"
      then flat_map (fun v => match py_int (position_component v) with
                              | Some k => [k]
                              | None => []
                              end) rest
      else []
  | [] => []
  end.

(** What one line can do: nothing, append one vertex, append the triangles
    of one face, or raise and change nothing. *)
Inductive line_effect (m : mesh) (line : string) : outcome mesh -> Prop :=
| effect_skip :
    line_effect m line (Done m)
| effect_vertex (v : vertex) :
    line_effect m line (Done (fst m ++ [v], snd m))
| effect_face (tokens : list string) (face : list Z) :
    split (strip line) = "f" :: tokens ->
    face_indices tokens [] = Some face ->
    line_effect m line (Done (fst m, snd m ++ fan_spec face))
| effect_raise :
    line_effect m line (Raised m).

(** A text file from its lines, each ended by LF. *)
Fixpoint unlines (ls : list string) : string :=
  match ls with
  | [] => ""
  | l :: rest => l ++ String LF (unlines rest)
  end.

(** The position indices written on the tokens of a face line, in token
    order. *)
Definition position_indices (tokens : list string) : list Z :=
  flat_map (fun v => match py_int (position_component v) with
                     | Some k => [k]
                     | None => []
                     end) tokens.

(** What one line stands for, read off the line alone: the vertex of a
    [v] line, and the fan of a face line made of every position index
    written on it, minus 1. Neither looks at what was read before, and
    neither compares an index with anything. *)
Definition line_vertices (line : string) : list vertex :=
  match split (strip line) with
  | p0 :: rest =>
      if String.eqb p0 "v"
      then match parse_vertex (p0 :: rest) with
           | Some v => [v]
           | None => []
           end
      else []
  | [] => []
  end.

Definition line_triangles (line : string) : list triangle :=
  match split (strip line) with
  | p0 :: rest =>
      if String.eqb p0 "f"
      then fan_spec (map (fun k => (k - 1)%Z) (position_indices rest))
      else []
  | [] => []
  end.

(** The line raises (on any lists: see [process_line_closed]). *)
Definition line_raises (line : string) : bool :=
  raised (process_line ([], []) line).

(** The lines the loop reads to their end: those before the first line
    that raises. *)
Fixpoint lines_read (lines : list string) : list string :=
  match lines with
  | [] => []
  | l :: rest => if line_raises l then [] else l :: lines_read rest
  end.

End Spec.

(** ** Vocabulary of the statements about drawing *)

Module DrawSpec.

Import PyStr Loader Viewer.
Local Open Scope list_scope.
Local Open Scope Z_scope.

(** A subscript Python accepts on a list of [n] elements. *)
Definition subscript_ok (n i : Z) : Prop := - n <= i < n.

(** The element a valid subscript reads. *)
Definition element {A : Type} (l : list A) (i : Z) (d : A) : A :=
  nth (Z.to_nat (if 0 <=? i then i else len l + i)) l d.

Definition origin : vertex := (0, 0, 0)%float.

Definition vertex_call (v : vertex) : gl_call :=
  let '(x, y, z) := v in glVertex3f x y z.

Definition normal_call (v : vertex) : gl_call :=
  let '(x, y, z) := v in glNormal3f x y z.

(** The calls one triangle stands for: its normal, then its three
    corners in the order of the face. *)
Definition face_calls (verts : list vertex) (t : triangle)
  : list gl_call :=
  match t with
  | [i; j; k] =>
      let v0 := element verts i origin in
      let v1 := element verts j origin in
      let v2 := element verts k origin in
      [normal_call (compute_normal v0 v1 v2);
       vertex_call v0; vertex_call v1; vertex_call v2]
  | _ => []
  end.

(** Every face has three indices, all of them valid subscripts. *)
Definition drawable (verts : list vertex) (faces : list triangle) : Prop :=
  forall t : triangle,
    In t faces ->
    List.length t = 3%nat /\
    forall i : Z, In i t -> subscript_ok (len verts) i.

(** The open-file command. *)
Definition event_is_open (ev : event) : bool :=
  match ev with KEYDOWN K_o => true | _ => false end.

(** The path [main] loads at start: the first argument of the command
    line, or else what the file dialog returns. *)
Definition startup_path (w : world) (argv : list string) : string :=
  match argv with
  | _ :: p :: _ => p
  | _ => fst (open_file_dialog w)
  end.

End DrawSpec.

(** ** The loop of [main] *)

Module Loop.

Import PyStr Loader Viewer.
Local Open Scope list_scope.

(** [while running:] over the batches of events that
    [pygame.event.get()] returns, one batch per iteration. An iteration
    handles its whole batch, then draws; the test of [running] is made
    only at the top of the loop. [screen] collects the calls made. The
    result is [Raised] when drawing raises (the exception leaves [main]),
    and [Done] when the loop ends or the batches run out. *)
Fixpoint run (w : world) (st : viewer) (batches : list (list event))
  (screen : list gl_call) : world * viewer * outcome (list gl_call) :=
  match batches with
  | [] => (w, st, Done screen)
  | evs :: rest =>
      if running st then
        let '(w', st') := handle_events w st evs in
        match render st' with
        | Done calls => run w' st' rest (screen ++ calls)
        | Raised calls => (w', st', Raised (screen ++ calls))
        end
      else (w, st, Done screen)
  end.

End Loop.

(** ** Sample files and viewer states *)

Module Demo.

Import PyStr Loader Spec Viewer.
Local Open Scope string_scope.
Local Open Scope list_scope.

Definition demo_text : string :=
  unlines ["v 0 0 0"; "v 1 0 0"; "v 0 1 0"; "f 1 2 3"].

Definition demo_files (p : string) : option string :=
  if String.eqb p "a.obj" then Some demo_text
  else if String.eqb p "copy.obj" then Some demo_text
  else if String.eqb p "empty.obj" then Some ""
  else None.

Definition demo_viewer : viewer :=
  {| verts := [(0, 0, 0); (1, 0, 0); (0, 1, 0)]%float;
     faces := [[0; 1; 2]%Z];
     zoom := 5.0; rot_x := 0.0; rot_y := 0.0;
     mouse_down := false; last_mouse := (0, 0)%Z; running := true |}.

Definition blank_viewer : viewer :=
  {| verts := []; faces := [];
     zoom := 2.0; rot_x := 30.0; rot_y := 0.0;
     mouse_down := true; last_mouse := (7, 7)%Z; running := true |}.

End Demo.

(** * Properties *)

Import PyStr PyNum Loader Spec Demo.
Import DrawSpec Loop.
Open Scope string_scope.
Open Scope list_scope.

(** ** Strings and tokens *)

Section Strings.

Local Open Scope string_scope.

Lemma append_empty_r (s : string) : s ++ "" = s.
Proof. induction s as [|c s IH]; simpl; [reflexivity | now rewrite IH]. Qed.

Lemma append_assoc (s t u : string) : (s ++ t) ++ u = s ++ (t ++ u).
Proof. induction s as [|c s IH]; simpl; [reflexivity | now rewrite IH]. Qed.

Lemma is_empty_append (s t : string) :
  is_empty s = false -> is_empty (s ++ t) = false.
Proof. destruct s; simpl; [discriminate | reflexivity]. Qed.

(** Once a token has been started, it is the head of what [split] returns
    and it only grows. *)
Lemma split_from_head (s cur : string) :
  is_empty cur = false ->
  exists t rest, split_from cur s = (cur ++ t) :: rest.
Proof.
  revert cur; induction s as [|c s IH]; intros cur Hcur; simpl.
  - rewrite Hcur. exists "", []. now rewrite append_empty_r.
  - destruct (is_space c).
    + rewrite Hcur. exists "", (split_from "" s). now rewrite append_empty_r.
    + destruct (IH (cur ++ String c "")) as (t & rest & E).
      { now apply is_empty_append. }
      exists (String c t), rest. rewrite E, append_assoc. reflexivity.
Qed.

(** A comment line has no first token, or one that starts with the
    number sign. *)
Lemma comment_first_token (line : string) :
  startswith line "#" = true ->
  exists t rest, split (strip line) = String "#" t :: rest.
Proof.
  destruct line as [|c l]; cbn [startswith]; [discriminate|].
  intros Hc. apply andb_true_iff in Hc as [Hc _].
  apply Ascii.eqb_eq in Hc. subst c.
  unfold strip, split. cbn [lstrip rstrip split_from].
  change (is_space "#") with false. cbn [andb].
  destruct (split_from_head (rstrip l) "#" eq_refl) as (t & rest & E).
  exists t, rest. exact E.
Qed.

(** So a line whose first token is a letter is no comment. *)
Lemma first_token_not_comment (line p0 : string) (rest : list string) :
  split (strip line) = p0 :: rest ->
  startswith p0 "#" = false ->
  startswith line "#" = false.
Proof.
  intros E Hp. destruct (startswith line "#") eqn:Hs; [|reflexivity].
  destruct (comment_first_token line Hs) as (t & r & E').
  rewrite E' in E. inversion E; subst p0.
  cbn [startswith] in Hp. rewrite Ascii.eqb_refl in Hp. simpl in Hp.
  destruct t; discriminate.
Qed.

(** [split('/')] always has a first piece: the text before the first
    slash. *)
Lemma position_component_prefix (idx tail : string) :
  no_slash idx = true ->
  position_component (idx ++ String "/" tail) = idx.
Proof.
  unfold position_component. induction idx as [|c idx IH]; simpl; intros H.
  - reflexivity.
  - apply andb_true_iff in H as [Hc Hrest].
    apply negb_true_iff in Hc. rewrite Hc.
    specialize (IH Hrest).
    destruct (split_on "/" (idx ++ String "/" tail)); simpl in *;
      now rewrite IH.
Qed.

Lemma position_component_bare (idx : string) :
  no_slash idx = true -> position_component idx = idx.
Proof.
  unfold position_component. induction idx as [|c idx IH]; simpl; intros H.
  - reflexivity.
  - apply andb_true_iff in H as [Hc Hrest].
    apply negb_true_iff in Hc. rewrite Hc.
    specialize (IH Hrest).
    destruct (split_on "/" idx); simpl in *; now rewrite IH.
Qed.

End Strings.

(** ** Faces *)

Section Faces.

Local Open Scope list_scope.
Local Open Scope Z_scope.

Lemma getitem_in_range (A : Type) (l : list A) (i : Z) (d : A) :
  0 <= i < len l -> getitem l i = Some (nth (Z.to_nat i) l d).
Proof.
  unfold getitem, len. intros [Hlo Hhi].
  apply Z.leb_le in Hlo as Hlo'. rewrite Hlo'.
  apply nth_error_nth'. lia.
Qed.

(** A negative subscript reads from the end. *)
Lemma getitem_negative (A : Type) (l : list A) (i : Z) (d : A) :
  - len l <= i < 0 ->
  getitem l i = Some (nth (Z.to_nat (len l + i)) l d).
Proof.
  unfold getitem, len. intros [Hlo Hhi].
  destruct (0 <=? i) eqn:E; [apply Z.leb_le in E; lia|].
  apply Z.leb_le in Hlo as Hlo'. rewrite Hlo'.
  apply nth_error_nth'. lia.
Qed.

(** The subscript -1 reads the last element of a list that has one. *)
Lemma getitem_last (A : Type) (l : list A) (d : A) :
  l <> [] -> getitem l (-1) = Some (last l d).
Proof.
  intros Hl. destruct (exists_last Hl) as (l' & a & ->).
  rewrite last_last.
  rewrite (getitem_negative (l' ++ [a]) (i := -1) d)
    by (unfold len; rewrite length_app; simpl; lia).
  f_equal. unfold len. rewrite length_app. simpl.
  replace (Z.to_nat (Z.of_nat (List.length l' + 1) + -1))
    with (List.length l') by lia.
  apply nth_middle.
Qed.

Lemma range_from_1 (n : nat) :
  range 1 (Z.of_nat n - 1) = map Z.of_nat (seq 1 (n - 2)).
Proof.
  unfold range.
  replace (Z.to_nat (Z.of_nat n - 1 - 1)) with (n - 2)%nat by lia.
  rewrite <- seq_shift, map_map. apply map_ext. intros k. lia.
Qed.

(** The fan loop never raises on subscripts inside the face, and appends
    one triangle per value of [i], in order. *)
Lemma fan_loop_in_range (face : list Z) (todo : list nat)
  (faces : list triangle) :
  (forall i, In i todo -> (S i < List.length face)%nat) ->
  fan_loop face (map Z.of_nat todo) faces =
  Done (faces ++ map (fun i => [nth 0 face 0; nth i face 0; nth (S i) face 0])
                     todo).
Proof.
  revert faces. induction todo as [|i todo IH]; intros faces Hin; simpl.
  - now rewrite app_nil_r.
  - assert (Hi : (S i < List.length face)%nat) by (apply Hin; now left).
    rewrite (getitem_in_range face (i := 0) 0) by (unfold len; lia).
    rewrite (getitem_in_range face (i := Z.of_nat i) 0) by (unfold len; lia).
    rewrite (getitem_in_range face (i := Z.of_nat i + 1) 0)
      by (unfold len; lia).
    rewrite IH by (intros j Hj; apply Hin; now right).
    rewrite <- app_assoc. simpl.
    replace (Z.to_nat (Z.of_nat i + 1)) with (S i) by lia.
    now rewrite Nat2Z.id.
Qed.

(** Lines 47 to 54 add exactly the triangles of [fan_spec], and do not
    raise. *)
Lemma add_face_fan (face : list Z) (faces : list triangle) :
  add_face face faces = Done (faces ++ fan_spec face).
Proof.
  unfold add_face, fan_spec, len.
  destruct (Nat.ltb_spec (List.length face) 3) as [Hlt|Hge].
  - destruct (Z.leb_spec 3 (Z.of_nat (List.length face))); [lia|].
    now rewrite app_nil_r.
  - destruct (Z.leb_spec 3 (Z.of_nat (List.length face))); [|lia].
    destruct (Nat.eqb_spec (List.length face) 3) as [E3|N3].
    + rewrite E3. reflexivity.
    + destruct (Z.eqb_spec (Z.of_nat (List.length face)) 3); [lia|].
      rewrite range_from_1. apply fan_loop_in_range.
      intros i Hi. apply in_seq in Hi. lia.
Qed.

Lemma fan_spec_length (face : list Z) :
  List.length (fan_spec face) = (List.length face - 2)%nat.
Proof.
  unfold fan_spec.
  destruct (Nat.ltb_spec (List.length face) 3) as [Hlt|Hge]; simpl; [lia|].
  destruct (Nat.eqb_spec (List.length face) 3) as [E3|N3]; simpl; [lia|].
  now rewrite length_map, length_seq.
Qed.

(** Every index of a fan triangle is an index of the face. *)
Lemma fan_spec_incl (face : list Z) (t : triangle) (i : Z) :
  In t (fan_spec face) -> In i t -> In i face.
Proof.
  unfold fan_spec.
  destruct (Nat.ltb_spec (List.length face) 3) as [Hlt|Hge]; [intros []|].
  destruct (Nat.eqb_spec (List.length face) 3) as [E3|N3].
  - intros [<-|[]]. trivial.
  - intros Ht Hi. apply in_map_iff in Ht as (k & <- & Hk).
    apply in_seq in Hk.
    destruct Hi as [<-|[<-|[<-|[]]]]; apply nth_In; lia.
Qed.

(** [face_indices] only appends to the list it was given. *)
Lemma face_indices_app (tokens : list string) (face : list Z) :
  face_indices tokens face =
  option_map (app face) (face_indices tokens []).
Proof.
  revert face. induction tokens as [|v rest IH]; intros face; simpl.
  - now rewrite app_nil_r.
  - destruct (is_empty (position_component v)); [apply IH|].
    destruct (py_int (position_component v)) as [k|]; [|reflexivity].
    rewrite IH. rewrite (IH [k - 1]).
    destruct (face_indices rest []); simpl; [|reflexivity].
    now rewrite <- app_assoc.
Qed.

(** A line whose first token is [f] runs the face branch. *)
Lemma process_face_line (verts : list vertex) (faces : list triangle)
  (line : string) (tokens : list string) :
  split (strip line) = "f"%string :: tokens ->
  process_line (verts, faces) line =
  match face_indices tokens [] with
  | Some face => Done (verts, faces ++ fan_spec face)
  | None => Raised (verts, faces)
  end.
Proof.
  intros E. unfold process_line.
  rewrite (first_token_not_comment line E eq_refl), E.
  change (String.eqb "f" "v") with false.
  change (String.eqb "f" "f") with true. cbv iota.
  destruct (face_indices tokens []) as [face|]; [|reflexivity].
  now rewrite add_face_fan.
Qed.

End Faces.

(** C5. A face line that resolves to [n] indices adds no triangle when
    [n < 3], the face itself when [n = 3], and when [n > 3] the [n - 2]
    fan triangles [face[0], face[i], face[i+1]] for [i] from 1 to [n - 2],
    in that order; five indices a, b, c, d, e give [a,b,c], [a,c,d],
    [a,d,e]. *)
Theorem face_decomposition :
  forall (verts : list vertex) (faces : list triangle) (line : string)
         (tokens : list string) (face : list Z),
    split (strip line) = "f"%string :: tokens ->
    face_indices tokens [] = Some face ->
    let n := List.length face in
    let at_ (i : nat) := nth i face 0%Z in
    exists added : list triangle,
      process_line (verts, faces) line = Done (verts, faces ++ added) /\
      (n < 3 -> added = []) /\
      (n = 3 -> added = [face]) /\
      (n > 3 ->
       added = map (fun i => [at_ 0; at_ i; at_ (S i)]) (seq 1 (n - 2)) /\
       List.length added = n - 2) /\
      (forall a b c d e : Z,
          face = [a; b; c; d; e] ->
          added = [[a; b; c]; [a; c; d]; [a; d; e]]).
Proof.
  intros verts faces line tokens face Hline Hface n at_.
  exists (fan_spec face). split.
  - rewrite (process_face_line verts faces line Hline), Hface. reflexivity.
  - unfold fan_spec. fold n. repeat split.
    + intros H. apply Nat.ltb_lt in H. now rewrite H.
    + intros H. rewrite H. reflexivity.
    + destruct (Nat.ltb_spec n 3); [lia|].
      destruct (Nat.eqb_spec n 3); [lia|]. reflexivity.
    + pose proof (fan_spec_length face) as L. unfold fan_spec in L.
      fold n in L. exact L.
    + intros a b c d e ->. reflexivity.
Qed.

(** The file ["f 1 2 3 4 5"]: three triangles. *)
Lemma face_decomposition_witness :
  exists added : list triangle,
    process_line ([], []) "f 1 2 3 4 5" = Done ([], [] ++ added) /\
    added = [[0; 1; 2]; [0; 2; 3]; [0; 3; 4]]%Z.
Proof.
  destruct (@face_decomposition [] [] "f 1 2 3 4 5"
              ["1"; "2"; "3"; "4"; "5"]%string [0; 1; 2; 3; 4]%Z
              eq_refl eq_refl) as (added & Hrun & _ & _ & _ & H5).
  exists added. split; [exact Hrun|]. apply (H5 0 1 2 3 4)%Z. reflexivity.
Defined.

(** C6. Of a face reference in any of the four forms (idx, idx/t, idx//n,
    idx/t/n) only the text before the first slash is used; a non-empty
    position component that reads as the int [k] contributes the index
    [k - 1], an empty one contributes nothing; the line
    ["f 1/2/3 4//5 7"] resolves to the indices 0, 3, 6. *)
Theorem face_reference_parsing :
  forall (idx : string),
    no_slash idx = true ->
    (forall t n : string,
        position_component idx = idx /\
        position_component (idx ++ "/" ++ t)%string = idx /\
        position_component (idx ++ "//" ++ n)%string = idx /\
        position_component (idx ++ "/" ++ t ++ "/" ++ n)%string = idx) /\
    (forall (v : string) (rest : list string) (face : list Z),
        position_component v = idx ->
        (idx = ""%string ->
         face_indices (v :: rest) face = face_indices rest face) /\
        (forall k : Z,
            idx <> ""%string -> py_int idx = Some k ->
            face_indices (v :: rest) face =
            face_indices rest (face ++ [(k - 1)%Z]))) /\
    split (strip "f 1/2/3 4//5 7") = ["f"; "1/2/3"; "4//5"; "7"]%string /\
    face_indices ["1/2/3"; "4//5"; "7"]%string [] = Some [0; 3; 6]%Z.
Proof.
  intros idx Hidx. split; [|split; [|split; reflexivity]].
  - intros t n. repeat split.
    + now apply position_component_bare.
    + now apply position_component_prefix.
    + now apply position_component_prefix.
    + now apply position_component_prefix.
  - intros v rest face Hv. split.
    + intros ->. simpl. now rewrite Hv.
    + intros k Hne Hk. simpl. rewrite Hv, Hk.
      destruct idx; [congruence | reflexivity].
Qed.

(** The reference ["4//5"]: position component ["4"], index 3. *)
Lemma face_reference_parsing_witness :
  position_component "4//5" = "4"%string /\
  face_indices ["4//5"]%string [] = Some [3%Z].
Proof.
  pose proof (@face_reference_parsing "4" eq_refl) as (Hforms & Hstep & _).
  destruct (Hforms "" "5"%string) as (_ & _ & Hdouble & _).
  split; [exact Hdouble|].
  destruct (Hstep "4//5"%string [] [] Hdouble) as (_ & Hk).
  apply (Hk 4%Z); [discriminate | reflexivity].
Defined.

(** ** Vertices *)

(** C7. A line whose first token is [v] and whose next three tokens read
    as floats appends exactly one vertex, made of these three floats, after
    the vertices already read; further tokens are ignored and the faces
    are untouched. ["v 1 2 3 4 5"] gives the vertex (1, 2, 3). *)
Theorem vertex_line_parsing :
  forall (verts : list vertex) (faces : list triangle) (line : string)
         (a b c : string) (extra : list string) (x y z : float),
    split (strip line) = "v"%string :: a :: b :: c :: extra ->
    py_float a = Some x -> py_float b = Some y -> py_float c = Some z ->
    process_line (verts, faces) line = Done (verts ++ [(x, y, z)], faces).
Proof.
  intros verts faces line a b c extra x y z Hline Ha Hb Hc.
  unfold process_line.
  rewrite (first_token_not_comment line Hline eq_refl), Hline.
  change (String.eqb "v" "v") with true. cbv iota.
  unfold parse_vertex, slice. cbn [Nat.sub skipn firstn].
  now rewrite Ha, Hb, Hc.
Qed.

Lemma vertex_line_parsing_witness :
  process_line ([(0, 0, 0)%float], [[0; 0; 0]%Z]) "v 1 2 3 4 5" =
  Done ([(0, 0, 0); (1, 2, 3)]%float, [[0; 0; 0]%Z]).
Proof.
  apply (@vertex_line_parsing [(0, 0, 0)%float] [[0; 0; 0]%Z] "v 1 2 3 4 5"
           "1" "2" "3" ["4"; "5"]%string 1%float 2%float 3%float);
    reflexivity.
Defined.

(** ** The loop over the lines *)

Section ReadLoop.

Lemma process_line_effect (m : mesh) (line : string) :
  line_effect m line (process_line m line).
Proof.
  destruct m as [verts faces]. unfold process_line.
  destruct (startswith line "#") eqn:Hc; [constructor|].
  destruct (split (strip line)) as [|p0 rest] eqn:Hs; [constructor|].
  destruct (String.eqb_spec p0 "v") as [->|Hv].
  - destruct (parse_vertex ("v" :: rest)) as [v|].
    + apply (effect_vertex (verts, faces) line v).
    + constructor.
  - destruct (String.eqb_spec p0 "f") as [->|Hf]; [|constructor].
    destruct (face_indices rest []) as [face|] eqn:Hface; [|constructor].
    rewrite add_face_fan.
    apply (effect_face (verts, faces) line Hs Hface).
Qed.

Lemma process_line_raised_state (m m' : mesh) (line : string) :
  line_effect m line (Raised m') -> m' = m.
Proof. intros H. inversion H. reflexivity. Qed.

(** An exception leaves both lists as they were before the line. *)
Lemma process_line_raised (m m' : mesh) (line : string) :
  process_line m line = Raised m' -> m' = m.
Proof.
  intros E. apply (process_line_raised_state (line := line)).
  rewrite <- E. apply process_line_effect.
Qed.

(** The lines that raise: a [v] line whose three coordinates cannot be
    read, and an [f] line with a position component that is no int. *)
Lemma process_line_raises (m : mesh) (line : string) :
  raised (process_line m line) = true <->
  exists rest : list string,
    (split (strip line) = "v" :: rest /\ parse_vertex ("v" :: rest) = None) \/
    (split (strip line) = "f" :: rest /\ face_indices rest [] = None).
Proof.
  destruct m as [verts faces]. unfold process_line. split.
  - destruct (startswith line "#") eqn:Hc; [discriminate|].
    destruct (split (strip line)) as [|p0 rest] eqn:Hs; [discriminate|].
    destruct (String.eqb_spec p0 "v") as [->|Hv].
    + destruct (parse_vertex ("v" :: rest)) eqn:Hp; [discriminate|].
      intros _. exists rest. now left.
    + destruct (String.eqb_spec p0 "f") as [->|Hf]; [|discriminate].
      destruct (face_indices rest []) eqn:Hface.
      * rewrite add_face_fan. discriminate.
      * intros _. exists rest. now right.
  - intros (rest & [[Hs Hp]|[Hs Hp]]).
    + rewrite (first_token_not_comment line Hs eq_refl), Hs.
      change (String.eqb "v" "v") with true. cbv iota. now rewrite Hp.
    + rewrite (first_token_not_comment line Hs eq_refl), Hs.
      change (String.eqb "f" "v") with false.
      change (String.eqb "f" "f") with true. cbv iota. now rewrite Hp.
Qed.

(** The loop stops at the first line that raises: the lines after it are
    not read, and the lists are those built from the lines before it. *)
Lemma read_loop_abort (pre post : list string) (bad : string) (m0 m : mesh) :
  read_loop pre m0 = Done m ->
  raised (process_line m bad) = true ->
  read_loop (pre ++ bad :: post) m0 = Raised m.
Proof.
  revert m0. induction pre as [|l pre IH]; intros m0 Hpre Hbad; simpl in *.
  - injection Hpre as ->.
    destruct (process_line m bad) as [m'|m'] eqn:E; [discriminate|].
    now rewrite (process_line_raised _ _ E).
  - destruct (process_line m0 l) as [m1|m1]; [|discriminate].
    now apply IH.
Qed.

(** Reading more lines only appends: what the first lines gave comes
    first, in the same order. *)
Lemma read_loop_extends (lines : list string) (m : mesh) :
  exists (vs : list vertex) (ts : list triangle),
    state_of (read_loop lines m) = (fst m ++ vs, snd m ++ ts).
Proof.
  revert m. induction lines as [|l lines IH]; intros m; simpl.
  - exists [], []. destruct m. simpl. now rewrite !app_nil_r.
  - pose proof (process_line_effect m l) as H.
    destruct (process_line m l) as [m1|m1].
    + destruct (IH m1) as (vs & ts & E). rewrite E.
      inversion H; subst; simpl.
      * now exists vs, ts.
      * exists (v :: vs), ts. now rewrite <- app_assoc.
      * exists vs, (fan_spec face ++ ts). now rewrite <- app_assoc.
    + apply process_line_raised_state in H. subst m1.
      exists [], []. destruct m. simpl. now rewrite !app_nil_r.
Qed.

Lemma read_loop_app (l1 l2 : list string) (m : mesh) :
  read_loop (l1 ++ l2) m =
  match read_loop l1 m with
  | Done m1 => read_loop l2 m1
  | Raised m1 => Raised m1
  end.
Proof.
  revert m. induction l1 as [|l l1 IH]; intros m; simpl; [reflexivity|].
  destruct (process_line m l); [apply IH | reflexivity].
Qed.

End ReadLoop.

(** ** What [load_obj] returns *)

Section Load.

Local Open Scope Z_scope.

(** The indices gathered from the tokens of a face line are the position
    indices written there, minus 1. *)
Lemma face_indices_from_refs (tokens : list string) (acc face : list Z) :
  face_indices tokens acc = Some face ->
  forall i : Z,
    In i face ->
    In i acc \/
    In (i + 1) (flat_map (fun v => match py_int (position_component v) with
                                   | Some k => [k]
                                   | None => []
                                   end) tokens).
Proof.
  revert acc. induction tokens as [|v rest IH]; intros acc; simpl.
  - intros [= <-] i Hi. now left.
  - destruct (is_empty (position_component v)).
    + intros E i Hi. destruct (IH _ E i Hi) as [H|H]; [now left|].
      right. apply in_or_app. now right.
    + destruct (py_int (position_component v)) as [k|]; [|discriminate].
      intros E i Hi. destruct (IH _ E i Hi) as [H|H].
      * apply in_app_or in H as [H|[<-|[]]]; [now left|].
        right. left. lia.
      * right. right. exact H.
Qed.

(** Every triangle the loop adds is made of position indices of the lines
    it has read, minus 1: nothing is filtered and nothing else is made. *)
Lemma read_loop_refs (lines : list string) (m : mesh) :
  forall (t : triangle),
    In t (snd (state_of (read_loop lines m))) ->
    In t (snd m) \/
    forall i : Z, In i t ->
      exists line : string, In line lines /\ In (i + 1) (face_refs line).
Proof.
  revert m. induction lines as [|l lines IH]; intros m t; simpl.
  - now left.
  - pose proof (process_line_effect m l) as H.
    destruct (process_line m l) as [m1|m1].
    + intros Ht. destruct (IH m1 t Ht) as [Hold|Hnew].
      * inversion H as [E|v E|tokens face Hs Hf E|]; subst m1; simpl in Hold.
        -- now left.
        -- now left.
        -- apply in_app_or in Hold as [Hold|Hfan]; [now left|].
           right. intros i Hi. exists l. split; [now left|].
           unfold face_refs. rewrite Hs.
           change (String.eqb "f" "f") with true. cbv iota.
           pose proof (fan_spec_incl face t i Hfan Hi) as Hface.
           destruct (face_indices_from_refs tokens [] Hf i Hface) as [[]|Hr].
           exact Hr.
      * right. intros i Hi. destruct (Hnew i Hi) as (line & Hl & Hr).
        exists line. split; [now right | exact Hr].
    + apply process_line_raised_state in H. subst m1. simpl. now left.
Qed.

End Load.

Section NoFilter.

Local Open Scope Z_scope.

Lemma face_indices_some (tokens : list string) (acc face : list Z) :
  face_indices tokens acc = Some face ->
  face = acc ++ map (fun k => k - 1) (position_indices tokens).
Proof.
  revert acc. induction tokens as [|v rest IH]; intros acc; simpl.
  - intros [= <-]. now rewrite app_nil_r.
  - destruct (position_component v) as [|c idx] eqn:Ev; simpl.
    + apply IH.
    + destruct (py_int (String c idx)) as [k|]; [|discriminate].
      intros E. rewrite (IH _ E). simpl. now rewrite <- app_assoc.
Qed.

(** One line, in closed form: it raises or not whatever the lists are,
    and when it does not raise it appends [line_vertices] and
    [line_triangles], nothing less and nothing more. *)
Lemma process_line_closed (m : mesh) (line : string) :
  process_line m line =
  if line_raises line then Raised m
  else Done (fst m ++ line_vertices line, snd m ++ line_triangles line).
Proof.
  destruct m as [verts faces].
  unfold line_raises, line_vertices, line_triangles, process_line.
  destruct (startswith line "#") eqn:Hc.
  { destruct (comment_first_token line Hc) as (t & rest & ->).
    cbn [raised fst snd].
    replace (String.eqb (String "#" t) "v") with false
      by (now destruct t).
    replace (String.eqb (String "#" t) "f") with false
      by (now destruct t).
    now rewrite !app_nil_r. }
  destruct (split (strip line)) as [|p0 rest].
  { cbn [raised fst snd]. now rewrite !app_nil_r. }
  destruct (String.eqb_spec p0 "v") as [->|Hv].
  { change (String.eqb "v" "f") with false.
    destruct (parse_vertex ("v" :: rest)); cbn [raised fst snd];
      [now rewrite app_nil_r | reflexivity]. }
  destruct (String.eqb_spec p0 "f") as [->|Hf].
  - destruct (face_indices rest []) as [face|] eqn:Hface;
      [|reflexivity].
    rewrite !add_face_fan. cbn [raised fst snd].
    apply face_indices_some in Hface. simpl in Hface. subst face.
    now rewrite app_nil_r.
  - cbn [raised fst snd]. now rewrite !app_nil_r.
Qed.

(** The whole loop, in closed form. *)
Lemma read_loop_closed (lines : list string) (m : mesh) :
  state_of (read_loop lines m) =
  (fst m ++ flat_map line_vertices (lines_read lines),
   snd m ++ flat_map line_triangles (lines_read lines)).
Proof.
  revert m. induction lines as [|l lines IH]; intros m; cbn [read_loop].
  - destruct m. simpl. now rewrite !app_nil_r.
  - rewrite process_line_closed. cbn [lines_read].
    destruct (line_raises l).
    + destruct m. simpl. now rewrite !app_nil_r.
    + rewrite IH. cbn [fst snd flat_map]. now rewrite !app_assoc.
Qed.

Lemma load_obj_closed (text : string) :
  load_obj (Some text) =
  (flat_map line_vertices (lines_read (readlines text)),
   flat_map line_triangles (lines_read (readlines text))).
Proof. unfold load_obj, try_block. now rewrite read_loop_closed. Qed.

End NoFilter.

(** C1, as the code has it. [load_obj] compares no index with the number
    of vertices and drops nothing for being out of range: the triangles it
    returns are exactly, line after line, the fans of the faces written on
    the lines it reads, each face made of every position index of its line
    minus 1, whatever the number of vertices. So every index of every
    returned triangle is [k - 1] for a position index [k] of the file, and
    the indices are below [len(vertices)] whenever the position indices of
    the file are at most the number of vertices returned. *)
Theorem triangle_indices_from_file :
  forall (text : string),
    let m := load_obj (Some text) in
    m = (flat_map line_vertices (lines_read (readlines text)),
         flat_map line_triangles (lines_read (readlines text))) /\
    (forall (t : triangle) (i : Z),
        In t (snd m) -> In i t ->
        exists line : string,
          In line (readlines text) /\ In (i + 1)%Z (face_refs line)) /\
    ((forall (line : string) (k : Z),
         In line (readlines text) -> In k (face_refs line) ->
         (k <= len (fst m))%Z) ->
     forall (t : triangle) (i : Z),
       In t (snd m) -> In i t -> (i < len (fst m))%Z).
Proof.
  intros text m. split; [apply load_obj_closed|].
  assert (Hrefs : forall (t : triangle) (i : Z),
             In t (snd m) -> In i t ->
             exists line : string,
               In line (readlines text) /\ In (i + 1)%Z (face_refs line)).
  { intros t i Ht Hi. unfold m, load_obj, try_block in Ht.
    destruct (read_loop_refs (readlines text) ([], []) t Ht) as [[]|H].
    now apply H. }
  split; [exact Hrefs|].
  intros Hbound t i Ht Hi.
  destruct (Hrefs t i Ht Hi) as (line & Hl & Hr).
  specialize (Hbound line (i + 1)%Z Hl Hr). lia.
Qed.

(** Three vertices and the face 1 2 3. *)
Lemma triangle_indices_from_file_witness :
  let m := load_obj (Some (unlines ["v 0 0 0"; "v 1 0 0"; "v 0 1 0";
                                   "f 1 2 3"])) in
  snd m = [[0; 1; 2]%Z] /\
  forall (t : triangle) (i : Z),
    In t (snd m) -> In i t -> (i < len (fst m))%Z.
Proof.
  intros m. split; [reflexivity|].
  apply (proj2 (proj2 (triangle_indices_from_file
                  (unlines ["v 0 0 0"; "v 1 0 0"; "v 0 1 0"; "f 1 2 3"])))).
  intros line k Hl Hk. vm_compute in Hl.
  destruct Hl as [<-|[<-|[<-|[<-|[]]]]]; vm_compute in Hk;
    try contradiction.
  destruct Hk as [<-|[<-|[<-|[]]]]; vm_compute; discriminate.
Defined.

(** C1 fails as stated: the face 1 2 7 of a file with three vertices is
    kept, with the index 6, and drawing it raises IndexError. *)
Lemma index_invariant_counterexample :
  let m := load_obj (Some (unlines ["v 0 0 0"; "v 1 0 0"; "v 0 1 0";
                                   "f 1 2 7"])) in
  len (fst m) = 3%Z /\
  snd m = [[0; 1; 6]%Z] /\
  line_triangles "f 1 2 7" = [[0; 1; 6]%Z] /\
  raised (Viewer.draw_mesh (fst m) (snd m) []) = true /\
  exists (t : triangle) (i : Z),
    In t (snd m) /\ In i t /\ ~ (i < len (fst m))%Z.
Proof.
  split; [reflexivity|]. split; [reflexivity|]. split; [reflexivity|].
  split; [reflexivity|].
  exists [0; 1; 6]%Z, 6%Z. split; [now left|]. split.
  - right. right. now left.
  - vm_compute. discriminate.
Qed.

(** C2, as the code has it. When a line raises, the loop stops there and
    [load_obj] returns the vertices and triangles built from the lines
    before it: the failing line and the lines after it add nothing, and
    what was read before is kept. *)
Theorem load_abort_keeps_partial :
  forall (text : string) (pre post : list string) (bad : string) (m : mesh),
    readlines text = pre ++ bad :: post ->
    read_loop pre ([], []) = Done m ->
    raised (process_line m bad) = true ->
    try_block (Some text) = Raised m /\ load_obj (Some text) = m.
Proof.
  intros text pre post bad m Hlines Hpre Hbad.
  assert (E : try_block (Some text) = Raised m).
  { unfold try_block. rewrite Hlines. now apply read_loop_abort. }
  split; [exact E|]. unfold load_obj. now rewrite E.
Qed.

(** A vertex, then a [v] line with two numbers, then another vertex. *)
Lemma load_abort_keeps_partial_witness :
  load_obj (Some (unlines ["v 1 2 3"; "v 1 2"; "v 4 5 6"])) =
  ([(1, 2, 3)%float], []).
Proof.
  apply (@load_abort_keeps_partial
           (unlines ["v 1 2 3"; "v 1 2"; "v 4 5 6"])
           [unlines ["v 1 2 3"]] [unlines ["v 4 5 6"]] (unlines ["v 1 2"])
           ([(1, 2, 3)%float], []));
    reflexivity.
Defined.

(** C2 fails as stated: after a vertex, a [v] line with two numbers (and
    likewise a face line with a position component that is no int) raises,
    and the vertex read before is returned. *)
Lemma load_abort_counterexample :
  raised (try_block (Some (unlines ["v 1 2 3"; "v 1 2"]))) = true /\
  load_obj (Some (unlines ["v 1 2 3"; "v 1 2"])) = ([(1, 2, 3)%float], []) /\
  raised (try_block (Some (unlines ["v 1 2 3"; "f 1 x 1"]))) = true /\
  load_obj (Some (unlines ["v 1 2 3"; "f 1 x 1"])) = ([(1, 2, 3)%float], []) /\
  load_obj (Some (unlines ["v 1 2 3"; "v 1 2"])) <> ([], []).
Proof.
  repeat split; try reflexivity. vm_compute. discriminate.
Qed.

(** ** The viewer *)

Import Viewer.

Section Determinism.

Import Steps.
Local Open Scope Z_scope.











End Determinism.



(** C3, as the code has it. The open-file command replaces the active
    vertices and triangles by what [load_obj] returns whenever the dialog
    gives a path, also when that is an empty mesh: the frames that follow
    then draw no mesh. The mesh is left as it was only when the dialog
    gives no path. The camera is not touched. *)
Theorem reload_replaces_mesh :
  forall (w : world) (st : viewer),
    let newpath := fst (open_file_dialog w) in
    let st' := snd (handle_event w st (KEYDOWN K_o)) in
    (newpath <> "" ->
     (verts st', faces st') = load_obj (files w newpath)) /\
    (newpath = "" -> st' = st) /\
    (zoom st' = zoom st /\ rot_x st' = rot_x st /\ rot_y st' = rot_y st) /\
    (verts st' = [] \/ faces st' = [] ->
     render st' = Done (frame_head st' ++ [display_flip])).
Proof.
  intros w st newpath st'.
  assert (Hfiles : files (snd (open_file_dialog w)) = files w).
  { unfold open_file_dialog. now destruct (dialog w). }
  unfold st', newpath, handle_event.
  destruct (open_file_dialog w) as [p w'] eqn:E. simpl in *.
  repeat split.
  - intros Hp. destruct p; [congruence|]. simpl. rewrite Hfiles.
    now destruct (load_obj (files w (String a p))).
  - now intros ->.
  - now destruct (is_empty p).
  - now destruct (is_empty p).
  - now destruct (is_empty p).
  - intros H. unfold render.
    destruct H as [H|H]; rewrite H; simpl; [reflexivity|].
    now rewrite andb_false_r.
Qed.

(** The dialog gives the path of an empty file: the triangle that was
    shown is gone and the next frame draws no mesh. *)
Lemma reload_replaces_mesh_witness :
  let st' := snd (handle_event (World demo_files ["empty.obj"]) demo_viewer
                    (KEYDOWN K_o)) in
  (verts st', faces st') = load_obj (demo_files "empty.obj") /\
  render st' = Done (frame_head st' ++ [display_flip]).
Proof.
  pose proof (@reload_replaces_mesh (World demo_files ["empty.obj"])
                demo_viewer) as (Hload & _ & _ & Hdraw).
  split.
  - apply Hload. discriminate.
  - apply Hdraw. left. reflexivity.
Defined.

(** C3 fails as stated: with a triangle on screen, opening an empty file,
    or a file that cannot be read, leaves no vertex and no triangle. *)
Lemma reload_atomicity_counterexample :
  let st1 := snd (handle_event (World demo_files ["empty.obj"]) demo_viewer
                    (KEYDOWN K_o)) in
  let st2 := snd (handle_event (World demo_files ["missing.obj"]) demo_viewer
                    (KEYDOWN K_o)) in
  load_obj (demo_files "empty.obj") = ([], []) /\
  load_obj (demo_files "missing.obj") = ([], []) /\
  verts demo_viewer = [(0, 0, 0); (1, 0, 0); (0, 1, 0)]%float /\
  faces demo_viewer = [[0; 1; 2]%Z] /\
  verts st1 = [] /\ faces st1 = [] /\
  verts st2 = [] /\ faces st2 = [].
Proof. repeat split. Qed.

(** C4. Some file makes [load_obj] return a triangle with a negative
    index: the position component 0 is stored as -1, and no lower bound is
    checked. [draw_mesh] then subscripts the vertices with -1, which reads
    the last vertex and does not fail. *)
Theorem negative_index_reads_last_vertex :
  exists (text : string),
    let m := load_obj (Some text) in
    In "f 0 1 2" (map strip (readlines text)) /\
    face_indices ["0"; "1"; "2"] [] = Some [-1; 0; 1]%Z /\
    snd m = [[-1; 0; 1]%Z] /\
    (exists (t : triangle) (i : Z), In t (snd m) /\ In i t /\ (i < 0)%Z) /\
    (forall (vs : list vertex) (d : vertex),
        vs <> [] -> getitem vs (-1) = Some (last vs d)) /\
    corner (fst m) [-1; 0; 1]%Z 0 = Some (0, 1, 0)%float /\
    draw_mesh (fst m) (snd m) [] =
    Done [glBegin_TRIANGLES; glNormal3f 0 0 1;
          glVertex3f 0 1 0; glVertex3f 0 0 0; glVertex3f 1 0 0; glEnd].
Proof.
  exists (unlines ["v 0 0 0"; "v 1 0 0"; "v 0 1 0"; "f 0 1 2"]).
  cbv zeta.
  split; [|split; [reflexivity|split; [reflexivity|split; [|split; [|split]]]]].
  - vm_compute. right. right. right. now left.
  - exists [-1; 0; 1]%Z, (-1)%Z. split; [now left|]. split; [now left|].
    reflexivity.
  - intros vs d. apply getitem_last.
  - reflexivity.
  - reflexivity.
Qed.

(** C9. While the left button is held, a mouse move adds half of the
    vertical move to [rot_x] and half of the horizontal move to [rot_y],
    and the position of the event becomes the last mouse position; nothing
    else changes. *)
Theorem drag_transition :
  forall (w : world) (st : viewer) (pos : Z * Z),
    mouse_down st = true ->
    let dx := (fst pos - fst (last_mouse st))%Z in
    let dy := (snd pos - snd (last_mouse st))%Z in
    let st' := snd (handle_event w st (MOUSEMOTION pos)) in
    rot_x st' = (rot_x st + float_of_Z dy * 0.5)%float /\
    rot_y st' = (rot_y st + float_of_Z dx * 0.5)%float /\
    last_mouse st' = pos /\
    mouse_down st' = true /\
    zoom st' = zoom st /\ verts st' = verts st /\ faces st' = faces st /\
    running st' = running st /\
    fst (handle_event w st (MOUSEMOTION pos)) = w.
Proof.
  intros w st pos Hdown dx dy st'. unfold st', handle_event.
  rewrite Hdown. simpl. repeat split.
Qed.

(** Button down at (100, 100), then a move to (110, 115), from no
    rotation: [rot_x] is 7.5 and [rot_y] is 5. *)
Lemma drag_transition_witness :
  let w := World demo_files [] in
  let st1 := snd (handle_event w demo_viewer
                    (MOUSEBUTTONDOWN 1 (100, 100)%Z)) in
  let st2 := snd (handle_event w st1 (MOUSEMOTION (110, 115)%Z)) in
  rot_x st1 = 0%float /\ rot_y st1 = 0%float /\
  rot_x st2 = 7.5%float /\ rot_y st2 = 5%float /\
  last_mouse st2 = (110, 115)%Z.
Proof.
  cbv zeta.
  pose proof (@drag_transition (World demo_files [])
                (snd (handle_event (World demo_files []) demo_viewer
                        (MOUSEBUTTONDOWN 1 (100, 100)%Z)))
                (110, 115)%Z eq_refl) as (Hx & Hy & Hpos & _).
  split; [reflexivity|]. split; [reflexivity|].
  split; [rewrite Hx; reflexivity|].
  split; [rewrite Hy; reflexivity|]. exact Hpos.
Defined.

(** ** The normal of a triangle

    [compute_normal] squares, adds, takes a square root and divides in
    binary64. Each of these operations, on numbers that are neither too
    large nor too small, returns the exact result up to a relative error
    of [2^-52]: this is proved from the definitions of the operations
    ([SpecFloat]), first for the rounding of a mantissa, then for each
    operation, then for the chain of them [compute_normal] runs. *)

Unset Implicit Arguments.

Module Rounding.

Import Reals Lra FloatAxioms Binary64.

Local Open Scope Z_scope.

(** *** Digits *)

Lemma digits2_pos_log2 (p : positive) :
  Zpos (digits2_pos p) = Z.log2 (Zpos p) + 1.
Proof.
  induction p as [p IH|p IH|]; simpl digits2_pos.
  - rewrite Pos2Z.inj_succ, IH.
    change (Zpos p~1) with (2 * Zpos p + 1).
    rewrite Z.log2_succ_double by lia. lia.
  - rewrite Pos2Z.inj_succ, IH.
    change (Zpos p~0) with (2 * Zpos p).
    rewrite Z.log2_double by lia. lia.
  - reflexivity.
Qed.

Lemma Zdigits2_bounds (m : Z) :
  0 < m -> 2 ^ (Zdigits2 m - 1) <= m < 2 ^ Zdigits2 m.
Proof.
  intros Hm. destruct m as [|p|p]; try lia.
  simpl Zdigits2. rewrite digits2_pos_log2.
  replace (Z.log2 (Zpos p) + 1 - 1) with (Z.log2 (Zpos p)) by lia.
  replace (Z.log2 (Zpos p) + 1) with (Z.succ (Z.log2 (Zpos p))) by lia.
  apply Z.log2_spec. lia.
Qed.

Lemma Zdigits2_nonneg (m : Z) : 0 <= Zdigits2 m.
Proof. destruct m; simpl; lia. Qed.

Lemma Zdigits2_pos (m : Z) : 0 < m -> 0 < Zdigits2 m.
Proof. destruct m; simpl; lia. Qed.

(** [d] is the number of digits of [m]. *)
Lemma Zdigits2_unique (m d : Z) :
  0 < d -> 2 ^ (d - 1) <= m < 2 ^ d -> Zdigits2 m = d.
Proof.
  intros Hd [Hlo Hhi].
  assert (Hm : 0 < m).
  { assert (0 < 2 ^ (d - 1)) by (apply Z.pow_pos_nonneg; lia). lia. }
  destruct m as [|p|p]; try lia.
  simpl Zdigits2. rewrite digits2_pos_log2.
  rewrite (Z.log2_unique (Zpos p) (d - 1)); try lia.
  replace (Z.succ (d - 1)) with d by lia. lia.
Qed.

Lemma Zdigits2_ge (m k : Z) : 0 <= k -> 2 ^ k <= m -> k + 1 <= Zdigits2 m.
Proof.
  intros Hk Hm.
  assert (Hpos : 0 < m).
  { assert (0 < 2 ^ k) by (apply Z.pow_pos_nonneg; lia). lia. }
  destruct (Zdigits2_bounds m Hpos) as [_ Hhi].
  destruct (Z_lt_le_dec (Zdigits2 m) (k + 1)) as [Hlt|]; [|lia].
  exfalso.
  assert (2 ^ Zdigits2 m <= 2 ^ k).
  { apply Z.pow_le_mono_r; [lia|lia]. }
  lia.
Qed.

Lemma Zdigits2_le (m k : Z) : 0 <= k -> 0 <= m < 2 ^ k -> Zdigits2 m <= k.
Proof.
  intros Hk [Hlo Hhi].
  destruct (Z.eq_dec m 0) as [->|Hne]; [simpl; lia|].
  destruct (Zdigits2_bounds m ltac:(lia)) as [Hb _].
  destruct (Z_le_gt_dec (Zdigits2 m) k) as [|Hgt]; [lia|].
  exfalso.
  assert (2 ^ k <= 2 ^ (Zdigits2 m - 1)).
  { apply Z.pow_le_mono_r; lia. }
  lia.
Qed.

(** *** Shifting right *)

Lemma shr_1_m (mrs : shr_record) :
  0 <= shr_m mrs -> shr_m (shr_1 mrs) = shr_m mrs / 2.
Proof.
  destruct mrs as [m r s]. cbn [shr_m]. intros Hm.
  destruct m as [|q|q]; [reflexivity| |lia].
  destruct q as [p|p|]; cbn [shr_1 shr_m].
  - change (Zpos p~1) with (2 * Zpos p + 1).
    apply Z.div_unique with (r := 1); lia.
  - change (Zpos p~0) with (2 * Zpos p).
    apply Z.div_unique with (r := 0); lia.
  - reflexivity.
Qed.

Lemma pow2_pos (n : Z) : 0 <= n -> 0 < 2 ^ n.
Proof. intros Hn. apply Z.pow_pos_nonneg; lia. Qed.

Lemma div_pow2_pow2 (a n m : Z) :
  0 <= n -> 0 <= m -> a / 2 ^ n / 2 ^ m = a / 2 ^ (n + m).
Proof.
  intros Hn Hm. pose proof (pow2_pos n Hn). pose proof (pow2_pos m Hm).
  rewrite Z.div_div by lia. now rewrite Z.pow_add_r.
Qed.

Lemma iter_pos_shr_m (p : positive) (mrs : shr_record) :
  0 <= shr_m mrs ->
  shr_m (SpecFloat.iter_pos shr_1 p mrs) = shr_m mrs / 2 ^ Zpos p.
Proof.
  revert mrs. induction p as [p IH|p IH|]; intros mrs Hm;
    simpl SpecFloat.iter_pos.
  - assert (H1 : 0 <= shr_m (shr_1 mrs)).
    { rewrite shr_1_m by exact Hm. apply Z.div_pos; lia. }
    assert (H2 : 0 <= shr_m (SpecFloat.iter_pos shr_1 p (shr_1 mrs))).
    { rewrite IH by exact H1. apply Z.div_pos; [lia | apply pow2_pos; lia]. }
    rewrite IH by exact H2. rewrite IH by exact H1.
    rewrite shr_1_m by exact Hm.
    change 2 with (2 ^ 1) at 1.
    rewrite !div_pow2_pow2 by lia. f_equal. f_equal. lia.
  - assert (H2 : 0 <= shr_m (SpecFloat.iter_pos shr_1 p mrs)).
    { rewrite IH by exact Hm. apply Z.div_pos; [lia | apply pow2_pos; lia]. }
    rewrite IH by exact H2. rewrite IH by exact Hm.
    rewrite div_pow2_pow2 by lia. f_equal. f_equal. lia.
  - rewrite shr_1_m by exact Hm. reflexivity.
Qed.

Lemma shr_record_of_loc_m (m : Z) (l : location) :
  shr_m (shr_record_of_loc m l) = m.
Proof. destruct l as [|[| |]]; reflexivity. Qed.

(** Shifting right by [n >= 0] divides the mantissa by [2^n] and adds [n]
    to the exponent. *)
Lemma shr_value (mrs : shr_record) (e n : Z) :
  0 <= shr_m mrs -> 0 <= n ->
  shr_m (fst (shr mrs e n)) = shr_m mrs / 2 ^ n /\
  snd (shr mrs e n) = e + n.
Proof.
  intros Hm Hn. destruct n as [|p|p]; try lia; simpl.
  - rewrite Z.div_1_r. split; [reflexivity | lia].
  - split; [now apply iter_pos_shr_m | reflexivity].
Qed.

Lemma round_nearest_even_bounds (m : Z) (l : location) :
  m <= round_nearest_even m l <= m + 1.
Proof.
  destruct l as [|[| |]]; simpl; try lia.
  destruct (Z.even m); lia.
Qed.

(** *** Rounding a mantissa of 53 digits or more

    [binary_round_aux] on a mantissa [mx] of [d >= 53] digits, away from
    the subnormal and the overflow ranges: the result is finite and its
    value is [mr * 2^(d + ex - 53)] for [mr] one of the two integers around
    [mx / 2^(d - 53)]. *)
Lemma round_aux_normal (sx : bool) (mx ex : Z) (lx : location) :
  0 < mx ->
  53 <= Zdigits2 mx ->
  -1074 <= Zdigits2 mx + ex - 53 <= 958 ->
  exists (m : positive) (e : Z) (mr : Z),
    binary_round_aux 53 1024 sx mx ex lx = S754_finite sx m e /\
    mx / 2 ^ (Zdigits2 mx - 53) <= mr <= mx / 2 ^ (Zdigits2 mx - 53) + 1 /\
    2 ^ 52 <= mx / 2 ^ (Zdigits2 mx - 53) /\
    Zdigits2 mx + ex - 53 <= e /\
    Zpos m * 2 ^ (e - (Zdigits2 mx + ex - 53)) = mr.
Proof.
  intros Hmx Hd He. set (d := Zdigits2 mx) in *.
  destruct (Zdigits2_bounds mx Hmx) as [Hlo Hhi]. fold d in Hlo, Hhi.
  unfold binary_round_aux.
  assert (Hf : shr_fexp 53 1024 mx ex lx =
               shr (shr_record_of_loc mx lx) ex (d - 53)).
  { unfold shr_fexp. fold d. f_equal. unfold fexp, emin. lia. }
  rewrite Hf. clear Hf.
  destruct (shr_value (shr_record_of_loc mx lx) ex (d - 53)) as [Hm1 He1].
  { rewrite shr_record_of_loc_m. lia. }
  { lia. }
  destruct (shr (shr_record_of_loc mx lx) ex (d - 53)) as [mrs1 e1].
  cbn [fst snd] in Hm1, He1. rewrite shr_record_of_loc_m in Hm1.
  assert (Hp : 0 < 2 ^ (d - 53)) by (apply pow2_pos; lia).
  assert (Hm1lo : 2 ^ 52 <= shr_m mrs1).
  { rewrite Hm1. apply Z.div_le_lower_bound; [exact Hp|].
    rewrite <- Z.pow_add_r by lia.
    replace (d - 53 + 52) with (d - 1) by lia. exact Hlo. }
  assert (Hm1hi : shr_m mrs1 < 2 ^ 53).
  { rewrite Hm1. apply Z.div_lt_upper_bound; [exact Hp|].
    rewrite <- Z.pow_add_r by lia.
    replace (d - 53 + 53) with d by lia. exact Hhi. }
  pose proof (round_nearest_even_bounds (shr_m mrs1) (loc_of_shr_record mrs1))
    as Hr.
  set (m2 := round_nearest_even (shr_m mrs1) (loc_of_shr_record mrs1)) in *.
  destruct (Z.eq_dec m2 (2 ^ 53)) as [E|N].
  - (* the rounding carried into a 54th digit *)
    assert (Hd2 : Zdigits2 m2 = 54).
    { apply Zdigits2_unique; [lia|]. rewrite E.
      change (54 - 1) with 53. split; [lia|].
      apply Z.pow_lt_mono_r; lia. }
    assert (Hf : shr_fexp 53 1024 m2 e1 loc_Exact =
                 shr (shr_record_of_loc m2 loc_Exact) e1 1).
    { unfold shr_fexp. rewrite Hd2. f_equal. unfold fexp, emin. lia. }
    rewrite Hf. clear Hf.
    destruct (shr_value (shr_record_of_loc m2 loc_Exact) e1 1) as [Hm3 He3].
    { rewrite shr_record_of_loc_m. lia. }
    { lia. }
    destruct (shr (shr_record_of_loc m2 loc_Exact) e1 1) as [mrs3 e3].
    cbn [fst snd] in Hm3, He3. rewrite shr_record_of_loc_m in Hm3.
    rewrite E in Hm3. change (2 ^ 53 / 2 ^ 1) with (2 ^ 52) in Hm3.
    rewrite Hm3. change (2 ^ 52) with (Zpos (2 ^ 52)%positive).
    replace (e3 <=? 1024 - 53) with true by (symmetry; apply Z.leb_le; lia).
    exists (2 ^ 52)%positive, e3, m2.
    split; [reflexivity|]. split; [rewrite <- Hm1; exact Hr|].
    split; [rewrite <- Hm1; exact Hm1lo|]. split; [lia|].
    replace (e3 - (d + ex - 53)) with 1 by lia. rewrite E. reflexivity.
  - assert (Hd2 : Zdigits2 m2 = 53).
    { apply Zdigits2_unique; [lia|]. change (53 - 1) with 52. lia. }
    assert (Hf : shr_fexp 53 1024 m2 e1 loc_Exact =
                 shr (shr_record_of_loc m2 loc_Exact) e1 0).
    { unfold shr_fexp. rewrite Hd2. f_equal. unfold fexp, emin. lia. }
    rewrite Hf. clear Hf. cbn [shr shr_record_of_loc shr_m].
    assert (Hpos : 0 < m2) by lia.
    destruct m2 as [|p|p] eqn:Em2; try lia.
    replace (e1 <=? 1024 - 53) with true by (symmetry; apply Z.leb_le; lia).
    exists p, e1, (Zpos p).
    split; [reflexivity|]. split; [rewrite <- Hm1; exact Hr|].
    split; [rewrite <- Hm1; exact Hm1lo|]. split; [lia|].
    replace (e1 - (d + ex - 53)) with 0 by lia. lia.
Qed.

(** *** Powers of two as real numbers *)

Local Open Scope R_scope.

Lemma bpow_pos (e : Z) : 0 < bpow e.
Proof. apply powerRZ_lt. lra. Qed.

Lemma bpow_add (a b : Z) : bpow (a + b) = bpow a * bpow b.
Proof. apply powerRZ_add. lra. Qed.

Lemma bpow_IZR (k : Z) : (0 <= k)%Z -> bpow k = IZR (2 ^ k).
Proof.
  intros Hk. unfold bpow. rewrite <- (Z2Nat.id k) by exact Hk.
  rewrite <- pow_powerRZ. now rewrite pow_IZR.
Qed.

Lemma bpow_ge_1 (k : Z) : (0 <= k)%Z -> 1 <= bpow k.
Proof.
  intros Hk. rewrite bpow_IZR by exact Hk. apply IZR_le.
  pose proof (pow2_pos k Hk). lia.
Qed.

Lemma bpow_le (a b : Z) : (a <= b)%Z -> bpow a <= bpow b.
Proof.
  intros H. replace b with (a + (b - a))%Z by lia. rewrite bpow_add.
  pose proof (bpow_pos a). pose proof (bpow_ge_1 (b - a) ltac:(lia)). nra.
Qed.

Lemma bpow_lt (a b : Z) : (a < b)%Z -> bpow a < bpow b.
Proof.
  intros H. replace b with (a + 1 + (b - a - 1))%Z by lia.
  rewrite !bpow_add. change (bpow 1) with (2 * 1).
  pose proof (bpow_pos a). pose proof (bpow_ge_1 (b - a - 1) ltac:(lia)). nra.
Qed.

Lemma bpow_le_inv (a b : Z) : bpow a <= bpow b -> (a <= b)%Z.
Proof.
  intros H. destruct (Z_le_gt_dec a b) as [|Hgt]; [assumption|].
  pose proof (bpow_lt b a ltac:(lia)). lra.
Qed.

Lemma bpow_lt_inv (a b : Z) : bpow a < bpow b -> (a < b)%Z.
Proof.
  intros H. destruct (Z_lt_ge_dec a b) as [|Hge]; [assumption|].
  pose proof (bpow_le b a ltac:(lia)). lra.
Qed.

(** A positive integer of [d] digits lies in [[2^(d-1), 2^d)]. *)
Lemma IZR_digits (m : Z) :
  (0 < m)%Z -> bpow (Zdigits2 m - 1) <= IZR m < bpow (Zdigits2 m).
Proof.
  intros Hm. destruct (Zdigits2_bounds m Hm) as [Hlo Hhi].
  pose proof (Zdigits2_pos m Hm).
  rewrite !bpow_IZR by lia. split; [now apply IZR_le | now apply IZR_lt].
Qed.

(** *** The rounding error of [binary_round_aux]

    For a real [x] in the normal range, between [mx * 2^ex] and
    [(mx + 1) * 2^ex], the result is finite and within [2^-52 * x] of
    [x]. *)
Lemma round_aux_error (sx : bool) (mx ex : Z) (lx : location) (x : R) :
  (0 < mx)%Z -> (53 <= Zdigits2 mx)%Z ->
  IZR mx * bpow ex <= x <= IZR (mx + 1) * bpow ex ->
  bpow (-1010) <= x <= bpow 1010 ->
  exists (m : positive) (e : Z),
    binary_round_aux 53 1024 sx mx ex lx = S754_finite sx m e /\
    Rabs (IZR (Zpos m) * bpow e - x) <= bpow (-52) * x.
Proof.
  intros Hmx Hd [Hxlo Hxhi] [Hrlo Hrhi].
  set (d := Zdigits2 mx) in *.
  destruct (IZR_digits mx Hmx) as [Hdlo Hdhi]. fold d in Hdlo, Hdhi.
  pose proof (bpow_pos ex) as Hex.
  assert (Hrange : (-1074 <= d + ex - 53 <= 958)%Z).
  { split.
    - assert (H : bpow (-1010) <= bpow (d + ex)).
      { rewrite bpow_add.
        assert (H1 : IZR (mx + 1) <= bpow d).
        { rewrite bpow_IZR by lia. apply IZR_le.
          destruct (Zdigits2_bounds mx Hmx) as [_ Hhi]. fold d in Hhi. lia. }
        apply Rle_trans with x; [exact Hrlo|].
        apply Rle_trans with (IZR (mx + 1) * bpow ex); [exact Hxhi|].
        apply Rmult_le_compat_r; [lra | exact H1]. }
      apply bpow_le_inv in H. lia.
    - assert (H : bpow (d - 1 + ex) <= bpow 1010).
      { rewrite bpow_add.
        apply Rle_trans with x; [|exact Hrhi].
        apply Rle_trans with (IZR mx * bpow ex); [|exact Hxlo].
        apply Rmult_le_compat_r; [lra | exact Hdlo]. }
      apply bpow_le_inv in H. lia. }
  destruct (round_aux_normal sx mx ex lx Hmx Hd Hrange)
    as (m & e & mr & Hres & Hmr & Hm1 & He & Hval).
  fold d in Hres, Hmr, Hm1, He, Hval.
  exists m, e. split; [exact Hres|].
  set (n := (d - 53)%Z) in *. set (e1 := (d + ex - 53)%Z) in *.
  set (m1 := (mx / 2 ^ n)%Z) in *.
  assert (Hn : (0 <= n)%Z) by (unfold n; lia).
  pose proof (pow2_pos n Hn) as Hpn.
  assert (Hdiv1 : (2 ^ n * m1 <= mx)%Z) by (apply Z.mul_div_le; lia).
  assert (Hdiv2 : (mx < 2 ^ n * Z.succ m1)%Z)
    by (apply Z.mul_succ_div_gt; lia).
  assert (He1 : bpow e1 = bpow n * bpow ex).
  { rewrite <- bpow_add. f_equal. unfold e1, n. lia. }
  assert (Hv : IZR (Zpos m) * bpow e = IZR mr * bpow e1).
  { replace e with ((e - e1) + e1)%Z by lia. rewrite bpow_add.
    rewrite bpow_IZR by lia. rewrite <- Rmult_assoc, <- mult_IZR.
    now rewrite Hval. }
  rewrite Hv.
  pose proof (bpow_pos e1) as Hpe1.
  assert (Hlo1 : IZR m1 * bpow e1 <= x).
  { apply Rle_trans with (IZR mx * bpow ex); [|exact Hxlo].
    rewrite He1, <- Rmult_assoc. apply Rmult_le_compat_r; [lra|].
    rewrite bpow_IZR by lia. rewrite <- mult_IZR. apply IZR_le. lia. }
  assert (Hhi1 : x <= IZR (m1 + 1) * bpow e1).
  { apply Rle_trans with (IZR (mx + 1) * bpow ex); [exact Hxhi|].
    rewrite He1, <- Rmult_assoc. apply Rmult_le_compat_r; [lra|].
    rewrite bpow_IZR by lia. rewrite <- mult_IZR. apply IZR_le. lia. }
  assert (Hmr1 : IZR m1 <= IZR mr <= IZR m1 + 1).
  { rewrite <- plus_IZR. split; apply IZR_le; lia. }
  assert (H52 : bpow 52 <= IZR m1).
  { rewrite bpow_IZR by lia. now apply IZR_le. }
  rewrite plus_IZR in Hhi1.
  assert (Hulp : bpow e1 <= bpow (-52) * x).
  { assert (bpow (-52) * bpow 52 = 1).
    { rewrite <- bpow_add. reflexivity. }
    pose proof (bpow_pos (-52)).
    assert (bpow 52 * bpow e1 <= x) by nra.
    assert (bpow (-52) * (bpow 52 * bpow e1) <= bpow (-52) * x) by nra.
    nra. }
  apply Rabs_le. split; nra.
Qed.

Lemma canonical_spec (m : positive) (e : Z) :
  canonical m e ->
  (Zdigits2 (Zpos m) <= 53 /\ -1074 <= e /\
   (Zdigits2 (Zpos m) = 53 \/ e = -1074))%Z.
Proof.
  unfold canonical, canonical_mantissa, fexp, emin. intros H.
  apply Z.eqb_eq in H. cbn [Zdigits2]. lia.
Qed.

Lemma mantissa_pos (m : positive) (e : Z) : 0 < IZR (Zpos m) * bpow e.
Proof.
  apply Rmult_lt_0_compat; [apply IZR_lt; lia | apply bpow_pos].
Qed.

(** A canonical number that is not tiny has a full mantissa. *)
Lemma canonical_normal (m : positive) (e : Z) :
  canonical m e ->
  bpow (-1010) <= IZR (Zpos m) * bpow e ->
  Zdigits2 (Zpos m) = 53%Z.
Proof.
  intros Hc Hv. destruct (canonical_spec m e Hc) as (Hd & He & [H|H]);
    [exact H|].
  destruct (Z.eq_dec (Zdigits2 (Zpos m)) 53) as [|Hne]; [assumption|].
  exfalso. subst e.
  destruct (IZR_digits (Zpos m) ltac:(lia)) as [_ Hhi].
  assert (H1 : bpow (Zdigits2 (Zpos m)) <= bpow 52) by (apply bpow_le; lia).
  assert (H2 : IZR (Zpos m) * bpow (-1074) < bpow 52 * bpow (-1074)).
  { apply Rmult_lt_compat_r; [apply bpow_pos | lra]. }
  rewrite <- bpow_add in H2.
  assert (H3 : bpow (52 + -1074) < bpow (-1010)) by (apply bpow_lt; lia).
  lra.
Qed.

Lemma Zdigits2_shift (m k : Z) :
  (0 < m)%Z -> (0 <= k)%Z -> Zdigits2 (m * 2 ^ k) = (Zdigits2 m + k)%Z.
Proof.
  intros Hm Hk. destruct (Zdigits2_bounds m Hm) as [Hlo Hhi].
  pose proof (Zdigits2_pos m Hm) as Hd. pose proof (pow2_pos k Hk) as Hp.
  apply Zdigits2_unique; [lia|].
  replace (Zdigits2 m + k - 1)%Z with (Zdigits2 m - 1 + k)%Z by lia.
  rewrite !Z.pow_add_r by lia. split; nia.
Qed.

(** *** Aligning a mantissa *)

Lemma iter_xO (m d : positive) :
  Zpos (Pos.iter xO m d) = (Zpos m * 2 ^ Zpos d)%Z.
Proof.
  induction d as [|d IH] using Pos.peano_ind.
  - rewrite Z.pow_1_r. cbn [Pos.iter]. lia.
  - rewrite Pos.iter_succ, Pos2Z.inj_xO, IH, Pos2Z.inj_succ.
    rewrite Z.pow_succ_r by lia. lia.
Qed.

Lemma shl_align_spec (m : positive) (e e' : Z) :
  (e' <= e)%Z ->
  snd (shl_align m e e') = e' /\
  Zpos (fst (shl_align m e e')) = (Zpos m * 2 ^ (e - e'))%Z.
Proof.
  intros H. unfold shl_align.
  destruct (e' - e)%Z as [|p|p] eqn:E; try lia.
  - cbn [fst snd]. replace (e - e')%Z with 0%Z by lia. split; lia.
  - cbn [fst snd]. rewrite iter_xO.
    replace (e - e')%Z with (Zpos p) by lia. split; reflexivity.
Qed.

Lemma shl_align_id (m : positive) (e e' : Z) :
  (e <= e')%Z -> shl_align m e e' = (m, e).
Proof.
  intros H. unfold shl_align.
  destruct (e' - e)%Z as [|p|p] eqn:E; try lia; reflexivity.
Qed.

(** *** [binary_round]: rounding an exact value *)

Lemma binary_round_error (sx : bool) (m : positive) (e : Z) :
  bpow (-1010) <= IZR (Zpos m) * bpow e <= bpow 1010 ->
  exists (m' : positive) (e' : Z),
    binary_round 53 1024 sx m e = S754_finite sx m' e' /\
    Rabs (IZR (Zpos m') * bpow e' - IZR (Zpos m) * bpow e)
    <= bpow (-52) * (IZR (Zpos m) * bpow e).
Proof.
  intros [Hlo Hhi]. unfold binary_round.
  set (d := Zpos (digits2_pos m)).
  assert (Hd : Zdigits2 (Zpos m) = d) by reflexivity.
  set (f := fexp 53 1024 (d + e)).
  assert (Hf : f = Z.max (d + e - 53) (-1074)) by reflexivity.
  destruct (IZR_digits (Zpos m) ltac:(lia)) as [Hdlo Hdhi].
  rewrite Hd in Hdlo, Hdhi.
  (* the value is at least 2^-1010, so d + e > -1010 *)
  assert (Hde : (-1010 < d + e)%Z).
  { apply bpow_lt_inv. rewrite bpow_add.
    apply Rle_lt_trans with (IZR (Zpos m) * bpow e); [exact Hlo|].
    apply Rmult_lt_compat_r; [apply bpow_pos | exact Hdhi]. }
  destruct (Z_lt_le_dec f e) as [Hlt|Hge].
  - destruct (shl_align_spec m e f ltac:(lia)) as [He' Hm'].
    destruct (shl_align m e f) as [mz ez]. cbn [fst snd] in He', Hm'.
    subst ez.
    assert (Hval : IZR (Zpos mz) * bpow f = IZR (Zpos m) * bpow e).
    { rewrite Hm', mult_IZR, <- bpow_IZR by lia.
      rewrite Rmult_assoc, <- bpow_add. f_equal. f_equal. lia. }
    destruct (round_aux_error sx (Zpos mz) f loc_Exact
                (IZR (Zpos m) * bpow e)) as (m' & e' & Hres & Herr).
    + lia.
    + rewrite Hm', Zdigits2_shift by lia. rewrite Hd. lia.
    + rewrite Hval. split; [lra|].
      rewrite <- Hval, plus_IZR. pose proof (bpow_pos f). nra.
    + split; assumption.
    + exists m', e'. split; assumption.
  - rewrite shl_align_id by lia.
    destruct (round_aux_error sx (Zpos m) e loc_Exact
                (IZR (Zpos m) * bpow e)) as (m' & e' & Hres & Herr).
    + lia.
    + rewrite Hd. lia.
    + split; [lra|]. rewrite plus_IZR. pose proof (bpow_pos e). nra.
    + split; assumption.
    + exists m', e'. split; assumption.
Qed.

(** *** The four operations on finite numbers in the normal range *)

Lemma mantissa_ge_52 (m : positive) :
  Zdigits2 (Zpos m) = 53%Z -> (2 ^ 52 <= Zpos m < 2 ^ 53)%Z.
Proof.
  intros H. pose proof (Zdigits2_bounds (Zpos m) ltac:(lia)) as Hb.
  rewrite H in Hb. exact Hb.
Qed.

Lemma SFmul_error (sx sy : bool) (mx my : positive) (ex ey : Z) :
  canonical mx ex -> canonical my ey ->
  bpow (-505) <= IZR (Zpos mx) * bpow ex <= bpow 505 ->
  bpow (-505) <= IZR (Zpos my) * bpow ey <= bpow 505 ->
  exists (m : positive) (e : Z),
    SFmul 53 1024 (S754_finite sx mx ex) (S754_finite sy my ey) =
    S754_finite (xorb sx sy) m e /\
    Rabs (IZR (Zpos m) * bpow e -
          (IZR (Zpos mx) * bpow ex) * (IZR (Zpos my) * bpow ey))
    <= bpow (-52) * ((IZR (Zpos mx) * bpow ex) * (IZR (Zpos my) * bpow ey)).
Proof.
  intros Hcx Hcy [Hxlo Hxhi] [Hylo Hyhi]. cbn [SFmul].
  assert (Hdx : Zdigits2 (Zpos mx) = 53%Z).
  { apply (canonical_normal mx ex Hcx).
    apply Rle_trans with (bpow (-505)); [apply bpow_le; lia | exact Hxlo]. }
  destruct (mantissa_ge_52 mx Hdx) as [Hmx _].
  set (X := IZR (Zpos mx) * bpow ex) in *.
  set (Y := IZR (Zpos my) * bpow ey) in *.
  assert (Hval : IZR (Zpos (mx * my)) * bpow (ex + ey) = X * Y).
  { rewrite Pos2Z.inj_mul, mult_IZR, bpow_add. unfold X, Y. ring. }
  pose proof (bpow_pos (-505)) as Hp1. pose proof (bpow_pos 505) as Hp2.
  destruct (round_aux_error (xorb sx sy) (Zpos (mx * my)) (ex + ey)
              loc_Exact (X * Y)) as (m & e & Hres & Herr).
  - lia.
  - apply (Zdigits2_ge (Zpos (mx * my)) 52); [lia|].
    rewrite Pos2Z.inj_mul. nia.
  - rewrite plus_IZR, Rmult_plus_distr_r, Hval.
    pose proof (bpow_pos (ex + ey)). lra.
  - change (-1010)%Z with (-505 + -505)%Z.
    change 1010%Z with (505 + 505)%Z. rewrite !bpow_add. split; nra.
  - exists m, e. split; assumption.
Qed.

Lemma SFadd_error (mx my : positive) (ex ey : Z) :
  bpow (-1010) <= IZR (Zpos mx) * bpow ex + IZR (Zpos my) * bpow ey
  <= bpow 1010 ->
  exists (m : positive) (e : Z),
    SFadd 53 1024 (S754_finite false mx ex) (S754_finite false my ey) =
    S754_finite false m e /\
    Rabs (IZR (Zpos m) * bpow e -
          (IZR (Zpos mx) * bpow ex + IZR (Zpos my) * bpow ey))
    <= bpow (-52) * (IZR (Zpos mx) * bpow ex + IZR (Zpos my) * bpow ey).
Proof.
  intros Hr. cbn [SFadd cond_Zopp].
  set (ez := Z.min ex ey).
  destruct (shl_align_spec mx ex ez ltac:(unfold ez; lia)) as [_ Ha].
  destruct (shl_align_spec my ey ez ltac:(unfold ez; lia)) as [_ Hb].
  set (a := fst (shl_align mx ex ez)) in *.
  set (b := fst (shl_align my ey ez)) in *.
  change (Zpos a + Zpos b)%Z with (Zpos (a + b)). cbn [binary_normalize].
  assert (Hval : IZR (Zpos (a + b)) * bpow ez =
                 IZR (Zpos mx) * bpow ex + IZR (Zpos my) * bpow ey).
  { rewrite Pos2Z.inj_add, plus_IZR, Ha, Hb, !mult_IZR.
    rewrite <- !bpow_IZR by (unfold ez; lia).
    rewrite Rmult_plus_distr_r, !Rmult_assoc, <- !bpow_add.
    f_equal; f_equal; f_equal; lia. }
  rewrite <- Hval in Hr |- *.
  apply binary_round_error. exact Hr.
Qed.

Lemma canonical_exponent (m : positive) (e : Z) :
  canonical m e ->
  bpow (-1010) <= IZR (Zpos m) * bpow e <= bpow 1010 ->
  (Zdigits2 (Zpos m) = 53 /\ -1063 <= e <= 958)%Z.
Proof.
  intros Hc [Hlo Hhi].
  pose proof (canonical_normal m e Hc Hlo) as Hd.
  destruct (IZR_digits (Zpos m) ltac:(lia)) as [Hdlo Hdhi].
  rewrite Hd in Hdlo, Hdhi. change (53 - 1)%Z with 52%Z in Hdlo.
  pose proof (bpow_pos e) as He.
  split; [exact Hd|]. split.
  - assert (H : bpow (-1010) < bpow (53 + e)).
    { rewrite bpow_add.
      apply Rle_lt_trans with (IZR (Zpos m) * bpow e); [exact Hlo|].
      apply Rmult_lt_compat_r; assumption. }
    apply bpow_lt_inv in H. lia.
  - assert (H : bpow (52 + e) <= bpow 1010).
    { rewrite bpow_add.
      apply Rle_trans with (IZR (Zpos m) * bpow e); [|exact Hhi].
      apply Rmult_le_compat_r; lra. }
    apply bpow_le_inv in H. lia.
Qed.

Lemma sqrt_bracket (a b x : R) :
  0 <= a -> 0 <= b -> a * a <= x <= b * b -> a <= sqrt x <= b.
Proof.
  intros Ha Hb [Hlo Hhi]. split.
  - rewrite <- (sqrt_square a Ha). now apply sqrt_le_1_alt.
  - rewrite <- (sqrt_square b Hb). now apply sqrt_le_1_alt.
Qed.

Lemma SFsqrt_error (m : positive) (e : Z) :
  canonical m e ->
  bpow (-1010) <= IZR (Zpos m) * bpow e <= bpow 1010 ->
  exists (m' : positive) (e' : Z),
    SFsqrt 53 1024 (S754_finite false m e) = S754_finite false m' e' /\
    Rabs (IZR (Zpos m') * bpow e' - sqrt (IZR (Zpos m) * bpow e))
    <= bpow (-52) * sqrt (IZR (Zpos m) * bpow e).
Proof.
  intros Hc Hr. destruct (canonical_exponent m e Hc Hr) as (Hd & He).
  destruct (mantissa_ge_52 m Hd) as [Hmlo Hmhi].
  destruct Hr as [Hlo Hhi].
  cbn [SFsqrt]. unfold SFsqrt_core_binary. rewrite Hd.
  set (h := (e / 2)%Z).
  assert (Hh : (e = 2 * h \/ e = 2 * h + 1)%Z).
  { unfold h. Z.div_mod_to_equations. lia. }
  assert (Hd2 : Z.div2 e = h) by (apply Z.div2_div).
  assert (Hd3 : Z.div2 (53 + e + 1) = (h + 27)%Z).
  { rewrite Z.div2_div. unfold h. Z.div_mod_to_equations. lia. }
  rewrite Hd2, Hd3.
  assert (He0 : Z.min (fexp 53 1024 (h + 27)) h = (h - 26)%Z).
  { unfold fexp, emin. lia. }
  rewrite He0.
  set (s := (e - 2 * (h - 26))%Z).
  assert (Hs : (s = 52 \/ s = 53)%Z) by (unfold s; lia).
  assert (Hm' : match s with
                | Zpos _ => Z.shiftl (Zpos m) s
                | Z0 => Zpos m
                | Zneg _ => 0%Z
                end = (Zpos m * 2 ^ s)%Z).
  { destruct s as [|p|p]; try lia. apply Z.shiftl_mul_pow2. lia. }
  rewrite Hm'. clear Hm'.
  set (m2 := (Zpos m * 2 ^ s)%Z).
  assert (Hm2 : (2 ^ 104 <= m2)%Z).
  { unfold m2. assert (2 ^ 52 <= 2 ^ s)%Z by (apply Z.pow_le_mono_r; lia).
    change (2 ^ 104)%Z with (2 ^ 52 * 2 ^ 52)%Z. nia. }
  pose proof (Z.sqrtrem_spec m2 ltac:(lia)) as Hq.
  destruct (Z.sqrtrem m2) as [q r]. destruct Hq as [Hq Hrr].
  assert (Hq52 : (2 ^ 52 <= q)%Z).
  { change (2 ^ 104)%Z with (2 ^ 52 * 2 ^ 52)%Z in Hm2. nia. }
  set (l := if (r =? 0)%Z then loc_Exact
            else loc_Inexact (if (r <=? q)%Z then Lt else Gt)).
  set (X := IZR (Zpos m) * bpow e) in *.
  assert (HX : X = IZR m2 * (bpow (h - 26) * bpow (h - 26))).
  { unfold X, m2. rewrite mult_IZR, <- bpow_IZR by lia.
    rewrite Rmult_assoc, <- !bpow_add. f_equal. f_equal. unfold s. lia. }
  pose proof (bpow_pos (h - 26)) as Hp.
  assert (Hqpos : 0 <= IZR q) by (apply IZR_le; lia).
  assert (Hbr : IZR q * bpow (h - 26) <= sqrt X
                <= IZR (q + 1) * bpow (h - 26)).
  { apply sqrt_bracket.
    - nra.
    - rewrite plus_IZR. nra.
    - rewrite HX. split.
      + replace (IZR q * bpow (h - 26) * (IZR q * bpow (h - 26)))
          with (IZR (q * q) * (bpow (h - 26) * bpow (h - 26)))
          by (rewrite mult_IZR; ring).
        apply Rmult_le_compat_r; [nra|]. apply IZR_le. lia.
      + replace (IZR (q + 1) * bpow (h - 26) * (IZR (q + 1) * bpow (h - 26)))
          with (IZR ((q + 1) * (q + 1)) * (bpow (h - 26) * bpow (h - 26)))
          by (rewrite mult_IZR; ring).
        apply Rmult_le_compat_r; [nra|]. apply IZR_le. lia. }
  destruct (round_aux_error false q (h - 26) l (sqrt X))
    as (m' & e' & Hres & Herr).
  - lia.
  - apply (Zdigits2_ge q 52); lia.
  - exact Hbr.
  - assert (H1 : bpow (-1010) <= bpow (-505)) by (apply bpow_le; lia).
    assert (H2 : bpow 505 <= bpow 1010) by (apply bpow_le; lia).
    assert (H3 : bpow (-505) <= sqrt X <= bpow 505).
    { apply sqrt_bracket.
      - pose proof (bpow_pos (-505)). lra.
      - pose proof (bpow_pos 505). lra.
      - rewrite <- !bpow_add. exact (conj Hlo Hhi). }
    lra.
  - exists m', e'. split; assumption.
Qed.

Lemma SFdiv_error (sx sy : bool) (mx my : positive) (ex ey : Z) :
  canonical mx ex -> canonical my ey ->
  bpow (-505) <= IZR (Zpos mx) * bpow ex <= bpow 505 ->
  bpow (-505) <= IZR (Zpos my) * bpow ey <= bpow 505 ->
  exists (m : positive) (e : Z),
    SFdiv 53 1024 (S754_finite sx mx ex) (S754_finite sy my ey) =
    S754_finite (xorb sx sy) m e /\
    Rabs (IZR (Zpos m) * bpow e -
          (IZR (Zpos mx) * bpow ex) / (IZR (Zpos my) * bpow ey))
    <= bpow (-52) * ((IZR (Zpos mx) * bpow ex) / (IZR (Zpos my) * bpow ey)).
Proof.
  intros Hcx Hcy Hx Hy.
  assert (Hx' : bpow (-1010) <= IZR (Zpos mx) * bpow ex <= bpow 1010).
  { pose proof (bpow_le (-1010) (-505) ltac:(lia)).
    pose proof (bpow_le 505 1010 ltac:(lia)). lra. }
  assert (Hy' : bpow (-1010) <= IZR (Zpos my) * bpow ey <= bpow 1010).
  { pose proof (bpow_le (-1010) (-505) ltac:(lia)).
    pose proof (bpow_le 505 1010 ltac:(lia)). lra. }
  destruct (canonical_exponent mx ex Hcx Hx') as (Hdx & Hex).
  destruct (canonical_exponent my ey Hcy Hy') as (Hdy & Hey).
  destruct (mantissa_ge_52 mx Hdx) as [Hmxlo Hmxhi].
  destruct (mantissa_ge_52 my Hdy) as [Hmylo Hmyhi].
  set (X := IZR (Zpos mx) * bpow ex) in *.
  set (Y := IZR (Zpos my) * bpow ey) in *.
  pose proof (bpow_pos (-505)) as Hp1. pose proof (bpow_pos 505) as Hp2.
  assert (HY : 0 < Y) by lra.
  assert (Hratio : bpow (-1010) <= X / Y <= bpow 1010).
  { change (-1010)%Z with (-505 + -505)%Z.
    change 1010%Z with (505 + 505)%Z. rewrite !bpow_add.
    assert (Hinv : bpow (-505) * bpow 505 = 1).
    { rewrite <- bpow_add. reflexivity. }
    assert (Hi : bpow (-505) <= / Y <= bpow 505).
    { split.
      - apply Rmult_le_reg_r with Y; [exact HY|].
        rewrite Rinv_l by lra. nra.
      - apply Rmult_le_reg_r with Y; [exact HY|].
        rewrite Rinv_l by lra. nra. }
    unfold Rdiv. split; nra. }
  (* the exponents are close enough for the quotient not to be tiny *)
  assert (Hee : (-1012 <= ex - ey)%Z).
  { assert (H : bpow (-1010) < bpow (ex - ey + 1)).
    { apply Rle_lt_trans with (X / Y); [apply Hratio|].
      apply Rmult_lt_reg_r with Y; [exact HY|].
      unfold Rdiv. rewrite Rmult_assoc, Rinv_l, Rmult_1_r by lra.
      unfold X, Y.
      assert (H1 : IZR (Zpos mx) < bpow 53).
      { rewrite bpow_IZR by lia. apply IZR_lt. lia. }
      assert (H2 : bpow 52 <= IZR (Zpos my)).
      { rewrite bpow_IZR by lia. apply IZR_le. lia. }
      replace (ex - ey + 1)%Z with ((53 + ex) + (-52 + - ey))%Z by lia.
      rewrite !bpow_add.
      assert (H3 : bpow (-52) * bpow 52 = 1)
        by (rewrite <- bpow_add; reflexivity).
      assert (H4 : bpow (- ey) * bpow ey = 1).
      { rewrite <- bpow_add. replace (- ey + ey)%Z with 0%Z by lia.
        reflexivity. }
      pose proof (bpow_pos ex). pose proof (bpow_pos ey).
      pose proof (bpow_pos (- ey)). pose proof (bpow_pos (-52)).
      pose proof (bpow_pos 53). pose proof (bpow_pos 52).
      assert (K5 : IZR (Zpos mx) * bpow ex < bpow 53 * bpow ex) by nra.
      assert (K6 : 1 <= bpow (-52) * IZR (Zpos my)) by nra.
      assert (K7 : bpow 53 * bpow ex
                   <= bpow 53 * bpow ex * (bpow (-52) * IZR (Zpos my))).
      { assert (0 < bpow 53 * bpow ex) by nra. nra. }
      replace (bpow 53 * bpow ex * (bpow (-52) * bpow (- ey)) *
               (IZR (Zpos my) * bpow ey))
        with (bpow 53 * bpow ex * (bpow (-52) * IZR (Zpos my)) *
              (bpow (- ey) * bpow ey)) by ring.
      rewrite H4. lra. }
    apply bpow_lt_inv in H. lia. }
  cbn [SFdiv]. unfold SFdiv_core_binary. rewrite Hdx, Hdy.
  assert (He0 : Z.min (fexp 53 1024 (53 + ex - (53 + ey))) (ex - ey)
                = (ex - ey - 53)%Z).
  { unfold fexp, emin. lia. }
  rewrite He0.
  replace (ex - ey - (ex - ey - 53))%Z with 53%Z by lia.
  cbv iota. rewrite Z.shiftl_mul_pow2 by lia.
  set (m2 := (Zpos mx * 2 ^ 53)%Z).
  pose proof (Z.div_eucl_eq m2 (Zpos my) ltac:(lia)) as Hq.
  pose proof (Z.mod_pos_bound m2 (Zpos my) ltac:(lia)) as Hrb.
  unfold Z.modulo in Hrb.
  destruct (Z.div_eucl m2 (Zpos my)) as [q r].
  assert (Hm2 : (2 ^ 105 <= m2)%Z).
  { unfold m2. change (2 ^ 105)%Z with (2 ^ 52 * 2 ^ 53)%Z.
    apply Z.mul_le_mono_nonneg_r; lia. }
  assert (Hq52 : (2 ^ 52 <= q)%Z).
  { change (2 ^ 105)%Z with (2 ^ 53 * 2 ^ 52)%Z in Hm2. nia. }
  assert (HXY : X / Y = IZR m2 / IZR (Zpos my) * bpow (ex - ey - 53)).
  { unfold X, Y, m2. rewrite mult_IZR, <- bpow_IZR by lia.
    replace (ex - ey - 53)%Z with (ex + (- ey + -53))%Z by lia.
    rewrite !bpow_add.
    assert (H3 : bpow 53 * bpow (-53) = 1)
      by (rewrite <- bpow_add; reflexivity).
    assert (H4 : bpow (- ey) * bpow ey = 1).
    { rewrite <- bpow_add. replace (- ey + ey)%Z with 0%Z by lia.
      reflexivity. }
    pose proof (bpow_pos ey). pose proof (bpow_pos (- ey)).
    assert (Hmy : 0 < IZR (Zpos my)) by (apply IZR_lt; lia).
    assert (Hinv : / bpow ey = bpow (- ey)).
    { apply Rmult_eq_reg_r with (bpow ey); [|lra].
      rewrite Rinv_l by lra. lra. }
    unfold Rdiv. rewrite Rinv_mult, Hinv.
    replace (IZR (Zpos mx) * bpow 53 * / IZR (Zpos my) *
             (bpow ex * (bpow (- ey) * bpow (-53))))
      with (IZR (Zpos mx) * bpow ex * (/ IZR (Zpos my) * bpow (- ey)) *
            (bpow 53 * bpow (-53))) by ring.
    rewrite H3. ring. }
  pose proof (bpow_pos (ex - ey - 53)) as Hp.
  assert (Hmy : 0 < IZR (Zpos my)) by (apply IZR_lt; lia).
  assert (Hbr : IZR q <= IZR m2 / IZR (Zpos my) <= IZR (q + 1)).
  { split.
    - apply Rmult_le_reg_r with (IZR (Zpos my)); [exact Hmy|].
      unfold Rdiv. rewrite Rmult_assoc, Rinv_l, Rmult_1_r by lra.
      rewrite <- mult_IZR. apply IZR_le. lia.
    - apply Rmult_le_reg_r with (IZR (Zpos my)); [exact Hmy|].
      unfold Rdiv. rewrite Rmult_assoc, Rinv_l, Rmult_1_r by lra.
      rewrite <- mult_IZR. apply IZR_le. nia. }
  destruct (round_aux_error (xorb sx sy) q (ex - ey - 53)
              (new_location (Zpos my) r) (X / Y))
    as (m & e & Hres & Herr).
  - lia.
  - apply (Zdigits2_ge q 52); lia.
  - rewrite HXY. split; apply Rmult_le_compat_r; lra.
  - exact Hratio.
  - exists m, e. split; assumption.
Qed.

(** *** Binary64 numbers of the program *)

Lemma eps_bounds : 0 < eps <= 1 / 1000.
Proof.
  unfold eps. pose proof (bpow_pos (-52)) as Hp.
  assert (H1 : bpow (-52) * bpow 52 = 1) by (rewrite <- bpow_add; reflexivity).
  assert (H2 : 1000 <= bpow 52).
  { rewrite bpow_IZR by lia. apply IZR_le. vm_compute. discriminate. }
  split; [exact Hp|]. nra.
Qed.

Lemma prim_canonical (x : float) (s : bool) (m : positive) (e : Z) :
  Prim2SF x = S754_finite s m e -> canonical m e.
Proof.
  intros H. pose proof (Prim2SF_valid x) as Hv. rewrite H in Hv.
  cbn [SpecFloat.valid_binary] in Hv. unfold bounded in Hv.
  apply andb_prop in Hv. exact (proj1 Hv).
Qed.

Lemma moderate_cases (x : float) :
  moderate x = true ->
  (exists s, Prim2SF x = S754_zero s) \/
  (exists s m e, Prim2SF x = S754_finite s m e /\
                 bpow (-500) <= V m e <= bpow 500).
Proof.
  unfold moderate. destruct (Prim2SF x) as [s| | |s m e] eqn:E;
    try discriminate; intros H.
  - left. now exists s.
  - right. exists s, m, e. split; [reflexivity|].
    apply andb_prop in H. destruct H as [H1 H2].
    apply Z.leb_le in H1, H2.
    pose proof (prim_canonical x s m e E) as Hc.
    destruct (canonical_spec m e Hc) as (Hd & He & Hn).
    assert (Hd53 : Zdigits2 (Zpos m) = 53%Z) by lia.
    destruct (mantissa_ge_52 m Hd53) as [Hlo Hhi].
    pose proof (bpow_pos e) as Hp. unfold V. split.
    + apply Rle_trans with (bpow (52 + e)); [apply bpow_le; lia|].
      rewrite bpow_add, (bpow_IZR 52) by lia.
      apply Rmult_le_compat_r; [lra|]. apply IZR_le. lia.
    + apply Rle_trans with (bpow (53 + e)); [|apply bpow_le; lia].
      rewrite bpow_add, (bpow_IZR 53) by lia.
      apply Rmult_le_compat_r; [lra|]. apply IZR_le. lia.
Qed.

Lemma Rabs_le_inv (a b : R) : Rabs a <= b -> - b <= a <= b.
Proof. unfold Rabs. destruct (Rcase_abs a); lra. Qed.

Lemma xorb_same (s : bool) : xorb s s = false.
Proof. now destruct s. Qed.

Lemma square_near (x : float) :
  moderate x = true ->
  near eps (x * x) (B2R x * B2R x) /\
  (B2R x * B2R x = 0 \/ bpow (-1000) <= B2R x * B2R x <= bpow 1000).
Proof.
  intros H. destruct (moderate_cases x H) as [(s & E)|(s & m & e & E & Hr)].
  - assert (Hz : B2R x * B2R x = 0).
    { unfold B2R. rewrite E. cbn [SF2R]. ring. }
    split; [|now left]. left. split; [|exact Hz].
    rewrite mul_spec, E. unfold SF64mul. cbn [SFmul].
    now rewrite xorb_same.
  - pose proof (prim_canonical x s m e E) as Hc.
    assert (Hsq : B2R x * B2R x = V m e * V m e).
    { unfold B2R. rewrite E. cbn [SF2R]. unfold F2R, V. destruct s; ring. }
    assert (Hr' : bpow (-505) <= V m e <= bpow 505).
    { pose proof (bpow_le (-505) (-500) ltac:(lia)).
      pose proof (bpow_le 500 505 ltac:(lia)). lra. }
    destruct (SFmul_error s s m m e e Hc Hc Hr' Hr')
      as (m' & e' & Hres & Herr).
    pose proof (bpow_pos (-500)) as Hp.
    assert (Hrange : bpow (-1000) <= V m e * V m e <= bpow 1000).
    { change (-1000)%Z with (-500 + -500)%Z.
      change 1000%Z with (500 + 500)%Z. rewrite !bpow_add.
      split; apply Rmult_le_compat; lra. }
    rewrite Hsq. split; [|now right]. right. exists m', e'.
    split; [|split].
    + rewrite mul_spec, E. unfold SF64mul, prec, emax.
      rewrite Hres. now rewrite xorb_same.
    + pose proof (bpow_pos (-1000)). lra.
    + exact Herr.
Qed.

Lemma near_weaken (d d' : R) (f : float) (x : R) :
  d <= d' -> near d f x -> near d' f x.
Proof.
  intros Hd [H|(m & e & E & Hx & Herr)]; [now left|].
  right. exists m, e. split; [exact E|]. split; [exact Hx|].
  apply Rle_trans with (d * x); [exact Herr|].
  apply Rmult_le_compat_r; lra.
Qed.

Lemma add_near (d d' : R) (a b : float) (x y : R) :
  near d a x -> near d b y ->
  0 <= d <= 1 / 2 -> d + eps + d * eps <= d' ->
  x = 0 \/ bpow (-1000) <= x <= bpow 1002 ->
  y = 0 \/ bpow (-1000) <= y <= bpow 1002 ->
  near d' (a + b) (x + y).
Proof.
  intros Ha Hb Hd Hd' Hx Hy. pose proof eps_bounds as He.
  assert (Hdd : d <= d') by nra.
  destruct Ha as [(Ea & Xz)|(ma & ea & Ea & Xp & Erra)];
    destruct Hb as [(Eb & Yz)|(mb & eb & Eb & Yp & Errb)].
  - left. split; [|lra]. rewrite add_spec, Ea, Eb. reflexivity.
  - right. exists mb, eb. split; [|split].
    + rewrite add_spec, Ea, Eb. reflexivity.
    + lra.
    + subst x. rewrite Rplus_0_l.
      apply Rle_trans with (d * y); [exact Errb|].
      apply Rmult_le_compat_r; lra.
  - right. exists ma, ea. split; [|split].
    + rewrite add_spec, Ea, Eb. reflexivity.
    + lra.
    + subst y. rewrite Rplus_0_r.
      apply Rle_trans with (d * x); [exact Erra|].
      apply Rmult_le_compat_r; lra.
  - destruct Hx as [Hx|Hx]; [lra|]. destruct Hy as [Hy|Hy]; [lra|].
    apply Rabs_le_inv in Erra, Errb.
    pose proof (bpow_pos (-1000)) as Hp.
    assert (H1 : bpow (-1010) <= bpow (-1000)) by (apply bpow_le; lia).
    assert (H2 : bpow 1004 <= bpow 1010) by (apply bpow_le; lia).
    assert (H3 : bpow 1004 = 4 * bpow 1002).
    { change 1004%Z with (2 + 1002)%Z. rewrite bpow_add.
      rewrite (bpow_IZR 2) by lia. reflexivity. }
    assert (Hsum : bpow (-1010) <= V ma ea + V mb eb <= bpow 1010).
    { split; nra. }
    destruct (SFadd_error ma mb ea eb Hsum) as (m & e & Hres & Herr).
    right. exists m, e. split; [|split].
    + rewrite add_spec, Ea, Eb. unfold SF64add, prec, emax. exact Hres.
    + lra.
    + apply Rabs_le_inv in Herr. apply Rabs_le.
      fold (V m e) in Herr. fold (V ma ea) (V mb eb) in Herr.
      fold eps in Herr.
      assert (K1 : eps * (V ma ea + V mb eb) <= eps * ((1 + d) * (x + y))).
      { apply Rmult_le_compat_l; lra. }
      assert (K2 : (d + eps + d * eps) * (x + y) <= d' * (x + y)).
      { apply Rmult_le_compat_r; lra. }
      split; lra.
Qed.

Lemma bpow_scale (a k : Z) :
  (0 <= k)%Z -> bpow (a + k) = IZR (2 ^ k) * bpow a.
Proof. intros Hk. rewrite bpow_add, (bpow_IZR k) by lia. ring. Qed.

Lemma square_le_inv (a b : R) : 0 <= a -> 0 < b -> a * a <= b * b -> a <= b.
Proof. intros Ha Hb H. destruct (Rle_lt_dec a b) as [|Hlt]; [assumption|nra]. Qed.

Lemma sqrt_near (d : R) (q : float) (x : R) :
  near d q x -> 0 <= d <= 1 / 2 ->
  bpow (-1000) <= x <= bpow 1003 ->
  exists (m : positive) (e : Z),
    Prim2SF (PrimFloat.sqrt q) = S754_finite false m e /\
    bpow (-505) <= V m e <= bpow 505 /\
    (1 - eps) * (1 - eps) * (1 - d) * x <= V m e * V m e
    <= (1 + eps) * (1 + eps) * (1 + d) * x.
Proof.
  intros Hq Hd [Hlo Hhi]. pose proof eps_bounds as He.
  pose proof (bpow_pos (-1010)) as Hp.
  assert (B1 : bpow (-1000) = 1024 * bpow (-1010)).
  { change (-1000)%Z with (-1010 + 10)%Z. now rewrite bpow_scale by lia. }
  assert (B2 : bpow 1010 = 128 * bpow 1003).
  { change 1010%Z with (1003 + 7)%Z. now rewrite bpow_scale by lia. }
  destruct Hq as [(_ & Hz)|(mq & xq & Eq & Hx & Herr)]; [lra|].
  apply Rabs_le_inv in Herr.
  assert (Hr : bpow (-1010) <= V mq xq <= bpow 1010) by (split; nra).
  pose proof (prim_canonical q false mq xq Eq) as Hc.
  destruct (SFsqrt_error mq xq Hc Hr) as (m & e & Hres & Hs).
  fold (V mq xq) in Hs. fold (V m e) in Hs. fold eps in Hs.
  apply Rabs_le_inv in Hs.
  assert (HQ : 0 < V mq xq) by lra.
  pose proof (sqrt_lt_R0 _ HQ) as HS.
  pose proof (sqrt_sqrt (V mq xq) ltac:(lra)) as HSS.
  set (S := sqrt (V mq xq)) in *.
  assert (HD : 0 < V m e) by nra.
  assert (Hsq : (1 - eps) * (1 - eps) * V mq xq <= V m e * V m e
                <= (1 + eps) * (1 + eps) * V mq xq).
  { rewrite <- HSS. split.
    - replace ((1 - eps) * (1 - eps) * (S * S))
        with (((1 - eps) * S) * ((1 - eps) * S)) by ring.
      apply Rmult_le_compat; nra.
    - replace ((1 + eps) * (1 + eps) * (S * S))
        with (((1 + eps) * S) * ((1 + eps) * S)) by ring.
      apply Rmult_le_compat; nra. }
  assert (Hfin : (1 - eps) * (1 - eps) * (1 - d) * x <= V m e * V m e
                 <= (1 + eps) * (1 + eps) * (1 + d) * x).
  { destruct Hsq as [Hsq1 Hsq2]. split.
    - apply Rle_trans with ((1 - eps) * (1 - eps) * V mq xq); [|exact Hsq1].
      rewrite Rmult_assoc. apply Rmult_le_compat_l; nra.
    - apply Rle_trans with ((1 + eps) * (1 + eps) * V mq xq); [exact Hsq2|].
      rewrite (Rmult_assoc _ (1 + d) x). apply Rmult_le_compat_l; nra. }
  exists m, e. split; [|split].
  - rewrite sqrt_spec, Eq. unfold SF64sqrt, prec, emax. exact Hres.
  - pose proof (bpow_pos (-505)) as Hp1. pose proof (bpow_pos 505) as Hp2.
    assert (C1 : bpow (-505) * bpow (-505) = bpow (-1010))
      by (rewrite <- bpow_add; reflexivity).
    assert (C2 : bpow 505 * bpow 505 = bpow 1010)
      by (rewrite <- bpow_add; reflexivity).
    assert (K1 : 1 / 4 <= (1 - eps) * (1 - eps) * (1 - d)) by nra.
    assert (K2 : (1 + eps) * (1 + eps) * (1 + d) <= 2) by nra.
    destruct Hfin as [F1 F2]. split.
    + apply square_le_inv; [lra|lra|]. rewrite C1.
      apply Rle_trans with ((1 - eps) * (1 - eps) * (1 - d) * x);
        [|exact F1].
      apply Rle_trans with (1 / 4 * x); [lra|].
      apply Rmult_le_compat_r; lra.
    + apply square_le_inv; [lra|lra|]. rewrite C2.
      apply Rle_trans with ((1 + eps) * (1 + eps) * (1 + d) * x);
        [exact F2|].
      apply Rle_trans with (2 * x); [|lra].
      apply Rmult_le_compat_r; lra.
  - exact Hfin.
Qed.

Lemma prim_zero : Prim2SF 0%float = S754_zero false.
Proof. reflexivity. Qed.

Lemma positive_not_zero (d : float) (m : positive) (e : Z) :
  Prim2SF d = S754_finite false m e -> PrimFloat.eqb d 0%float = false.
Proof. intros H. rewrite eqb_spec, H, prim_zero. reflexivity. Qed.

Lemma moderate_nonzero (x : float) :
  moderate x = true -> PrimFloat.eqb x 0%float = false ->
  bpow (-1000) <= B2R x * B2R x.
Proof.
  intros Hm Hz. destruct (square_near x Hm) as [_ [H|H]]; [|apply H].
  exfalso. destruct (moderate_cases x Hm) as [(s & E)|(s & m & e & E & Hr)].
  - rewrite eqb_spec, E, prim_zero in Hz. discriminate.
  - unfold B2R in H. rewrite E in H. cbn [SF2R] in H. unfold F2R in H.
    fold (V m e) in H. pose proof (bpow_pos (-500)).
    destruct s; nra.
Qed.

Lemma div_near (n d : float) (md : positive) (ed : Z) :
  moderate n = true ->
  Prim2SF d = S754_finite false md ed ->
  bpow (-505) <= V md ed <= bpow 505 ->
  finite (n / d) = true /\
  Rabs (B2R (n / d) - B2R n / V md ed) <= eps * Rabs (B2R n / V md ed).
Proof.
  intros Hm Ed Hd. pose proof eps_bounds as He.
  destruct (moderate_cases n Hm) as [(s & E)|(s & m & e & E & Hr)].
  - assert (Er : Prim2SF (n / d) = S754_zero (xorb s false)).
    { rewrite div_spec, E, Ed. reflexivity. }
    unfold finite, B2R. rewrite Er, E. cbn [SF2R]. split; [reflexivity|].
    unfold Rdiv. rewrite Rmult_0_l, Rminus_0_r, Rabs_R0. lra.
  - pose proof (prim_canonical n s m e E) as Hc.
    pose proof (prim_canonical d false md ed Ed) as Hcd.
    assert (Hr' : bpow (-505) <= V m e <= bpow 505).
    { pose proof (bpow_le (-505) (-500) ltac:(lia)).
      pose proof (bpow_le 500 505 ltac:(lia)). lra. }
    destruct (SFdiv_error s false m md e ed Hc Hcd Hr' Hd)
      as (m' & e' & Hres & Herr).
    fold (V m e) (V md ed) (V m' e') in Herr. fold eps in Herr.
    assert (Er : Prim2SF (n / d) = S754_finite s m' e').
    { rewrite div_spec, E, Ed. unfold SF64div, prec, emax. rewrite Hres.
      now destruct s. }
    unfold finite, B2R. rewrite Er, E. cbn [SF2R]. split; [reflexivity|].
    pose proof (bpow_pos (-505)) as Hp. pose proof (bpow_pos (-500)) as Hp'.
    assert (Hpos : 0 < V m e / V md ed).
    { apply Rdiv_lt_0_compat; lra. }
    unfold F2R. fold (V m e) (V m' e'). destruct s.
    + replace (- V m' e' - - V m e / V md ed)
        with (- (V m' e' - V m e / V md ed)) by (unfold Rdiv; ring).
      replace (- V m e / V md ed) with (- (V m e / V md ed))
        by (unfold Rdiv; ring).
      rewrite !Rabs_Ropp, (Rabs_pos_eq (V m e / V md ed)) by lra.
      exact Herr.
    + rewrite (Rabs_pos_eq (V m e / V md ed)) by lra. exact Herr.
Qed.

(** *** The error of a normalised component, over the reals *)

Lemma normalize_error (x D N r : R) :
  0 < x -> 0 < D ->
  (1 - eps) * (1 - eps) * (1 - 5 * eps) * x <= D * D
  <= (1 + eps) * (1 + eps) * (1 + 5 * eps) * x ->
  Rabs (r - N / D) <= eps * Rabs (N / D) ->
  Rabs (r - N / sqrt x) <= 8 * eps * Rabs (N / sqrt x).
Proof.
  intros Hx HD [Hlo Hhi] Hr. pose proof eps_bounds as He.
  pose proof (sqrt_lt_R0 _ Hx) as HS.
  pose proof (sqrt_sqrt x ltac:(lra)) as HSS.
  set (S := sqrt x) in *.
  assert (H1 : (1 - 4 * eps) * S <= D).
  { apply square_le_inv; [nra|lra|].
    apply Rle_trans with ((1 - eps) * (1 - eps) * (1 - 5 * eps) * x);
      [|exact Hlo].
    rewrite <- HSS.
    replace ((1 - 4 * eps) * S * ((1 - 4 * eps) * S))
      with ((1 - 4 * eps) * (1 - 4 * eps) * (S * S)) by ring.
    apply Rmult_le_compat_r; nra. }
  assert (H2 : D <= (1 + 4 * eps) * S).
  { apply square_le_inv; [lra|nra|].
    apply Rle_trans with ((1 + eps) * (1 + eps) * (1 + 5 * eps) * x);
      [exact Hhi|].
    rewrite <- HSS.
    replace ((1 + 4 * eps) * S * ((1 + 4 * eps) * S))
      with ((1 + 4 * eps) * (1 + 4 * eps) * (S * S)) by ring.
    apply Rmult_le_compat_r; nra. }
  unfold Rdiv in *.
  pose proof (Rinv_0_lt_compat _ HD) as HiD.
  pose proof (Rinv_0_lt_compat _ HS) as HiS.
  assert (ED : D * / D = 1) by (apply Rinv_r; lra).
  assert (ES : S * / S = 1) by (apply Rinv_r; lra).
  set (iD := / D) in *. set (iS := / S) in *.
  assert (H3 : (1 - 4 * eps) * iD <= iS).
  { replace ((1 - 4 * eps) * iD)
      with (((1 - 4 * eps) * S) * (iD * iS))
      by (transitivity ((1 - 4 * eps) * iD * (S * iS));
          [ring | rewrite ES; ring]).
    apply Rle_trans with (D * (iD * iS)).
    - apply Rmult_le_compat_r; nra.
    - replace (D * (iD * iS)) with ((D * iD) * iS) by ring.
      rewrite ED. lra. }
  assert (H4 : iS <= (1 + 4 * eps) * iD).
  { replace ((1 + 4 * eps) * iD)
      with (((1 + 4 * eps) * S) * (iD * iS))
      by (transitivity ((1 + 4 * eps) * iD * (S * iS));
          [ring | rewrite ES; ring]).
    apply Rle_trans with (D * (iD * iS)).
    - replace (D * (iD * iS)) with ((D * iD) * iS) by ring.
      rewrite ED. lra.
    - apply Rmult_le_compat_r; nra. }
  assert (H5 : Rabs (iD - iS) <= 5 * eps * iS).
  { apply Rabs_le. split; nra. }
  rewrite !Rabs_mult in *.
  rewrite (Rabs_pos_eq iD) in Hr by lra.
  rewrite (Rabs_pos_eq iS) by lra.
  pose proof (Rabs_pos N) as Ha. set (a := Rabs N) in *.
  replace (r - N * iS) with ((r - N * iD) + N * (iD - iS)) by ring.
  apply Rle_trans with (Rabs (r - N * iD) + Rabs (N * (iD - iS)));
    [apply Rabs_triang|].
  rewrite Rabs_mult. fold a.
  assert (H6 : a * Rabs (iD - iS) <= a * (5 * eps * iS)).
  { apply Rmult_le_compat_l; lra. }
  assert (H7 : iD <= (1 + 5 * eps) * iS) by nra.
  assert (H8 : eps * (a * iD) <= eps * (a * ((1 + 5 * eps) * iS))).
  { apply Rmult_le_compat_l; [lra|]. apply Rmult_le_compat_l; lra. }
  assert (H9 : 0 <= eps * (a * iS)).
  { apply Rmult_le_pos; [lra|]. apply Rmult_le_pos; lra. }
  assert (H10 : eps * (eps * (a * iS)) <= 1 / 1000 * (eps * (a * iS))).
  { apply Rmult_le_compat_r; lra. }
  lra.
Qed.

Lemma component_square (u r c : R) :
  0 <= c <= 1 -> Rabs (r - u) <= c * Rabs u ->
  (1 - c) * (1 - c) * (u * u) <= r * r <= (1 + c) * (1 + c) * (u * u).
Proof.
  intros Hc H. apply Rabs_le_inv in H. unfold Rabs in H.
  destruct (Rcase_abs u) as [Hu|Hu].
  - replace (r * r) with ((- r) * (- r)) by ring.
    replace (u * u) with ((- u) * (- u)) by ring.
    replace ((1 - c) * (1 - c) * (- u * - u))
      with (((1 - c) * - u) * ((1 - c) * - u)) by ring.
    replace ((1 + c) * (1 + c) * (- u * - u))
      with (((1 + c) * - u) * ((1 + c) * - u)) by ring.
    split; apply Rmult_le_compat; nra.
  - replace ((1 - c) * (1 - c) * (u * u))
      with (((1 - c) * u) * ((1 - c) * u)) by ring.
    replace ((1 + c) * (1 + c) * (u * u))
      with (((1 + c) * u) * ((1 + c) * u)) by ring.
    split; apply Rmult_le_compat; nra.
Qed.

Lemma unit_magnitude (u0 u1 u2 r0 r1 r2 c : R) :
  0 <= c <= 1 ->
  u0 * u0 + u1 * u1 + u2 * u2 = 1 ->
  Rabs (r0 - u0) <= c * Rabs u0 ->
  Rabs (r1 - u1) <= c * Rabs u1 ->
  Rabs (r2 - u2) <= c * Rabs u2 ->
  Rabs (sqrt (r0 * r0 + r1 * r1 + r2 * r2) - 1) <= c.
Proof.
  intros Hc Hu H0 H1 H2.
  pose proof (component_square u0 r0 c Hc H0) as [A0 B0].
  pose proof (component_square u1 r1 c Hc H1) as [A1 B1].
  pose proof (component_square u2 r2 c Hc H2) as [A2 B2].
  assert (Hb : 1 - c <= sqrt (r0 * r0 + r1 * r1 + r2 * r2) <= 1 + c).
  { apply sqrt_bracket; [lra|lra|]. split; nra. }
  apply Rabs_le. lra.
Qed.

Lemma square_range (x : float) :
  moderate x = true ->
  0 <= B2R x * B2R x /\
  (B2R x * B2R x = 0 \/ bpow (-1000) <= B2R x * B2R x <= bpow 1000).
Proof.
  intros H. split; [nra|]. apply (square_near x H).
Qed.

Lemma norm_near (n0 n1 n2 : float) :
  moderate n0 = true -> moderate n1 = true -> moderate n2 = true ->
  (PrimFloat.eqb n0 0 && PrimFloat.eqb n1 0 && PrimFloat.eqb n2 0)%bool
  = false ->
  let x := B2R n0 * B2R n0 + B2R n1 * B2R n1 + B2R n2 * B2R n2 in
  0 < x /\
  exists (m : positive) (e : Z),
    Prim2SF (PrimFloat.sqrt (n0 * n0 + n1 * n1 + n2 * n2)%float)
    = S754_finite false m e /\
    bpow (-505) <= V m e <= bpow 505 /\
    (1 - eps) * (1 - eps) * (1 - 5 * eps) * x <= V m e * V m e
    <= (1 + eps) * (1 + eps) * (1 + 5 * eps) * x.
Proof.
  intros H0 H1 H2 Hnz x. pose proof eps_bounds as He.
  destruct (square_near n0 H0) as [N0 _].
  destruct (square_near n1 H1) as [N1 _].
  destruct (square_near n2 H2) as [N2 _].
  destruct (square_range n0 H0) as [P0 R0].
  destruct (square_range n1 H1) as [P1 R1].
  destruct (square_range n2 H2) as [P2 R2].
  set (x0 := B2R n0 * B2R n0) in *.
  set (x1 := B2R n1 * B2R n1) in *.
  set (x2 := B2R n2 * B2R n2) in *.
  pose proof (bpow_pos (-1000)) as Hp. pose proof (bpow_pos 1000) as Hp'.
  assert (B1 : bpow 1002 = 4 * bpow 1000).
  { change 1002%Z with (1000 + 2)%Z. now rewrite bpow_scale by lia. }
  assert (B2 : bpow 1003 = 8 * bpow 1000).
  { change 1003%Z with (1000 + 3)%Z. now rewrite bpow_scale by lia. }
  assert (Hx : bpow (-1000) <= x).
  { unfold x. fold x0 x1 x2.
    destruct (PrimFloat.eqb n0 0) eqn:E0.
    - destruct (PrimFloat.eqb n1 0) eqn:E1.
      + destruct (PrimFloat.eqb n2 0) eqn:E2; [discriminate|].
        pose proof (moderate_nonzero n2 H2 E2). fold x2 in H. lra.
      + pose proof (moderate_nonzero n1 H1 E1). fold x1 in H. lra.
    - pose proof (moderate_nonzero n0 H0 E0). fold x0 in H. lra. }
  assert (N01 : near (3 * eps) (n0 * n0 + n1 * n1) (x0 + x1)).
  { apply (add_near eps (3 * eps) (n0 * n0) (n1 * n1) x0 x1 N0 N1);
      [lra|nra| |]; [destruct R0 as [?|?] | destruct R1 as [?|?]];
      try (now left); right; lra. }
  assert (N012 : near (5 * eps) (n0 * n0 + n1 * n1 + n2 * n2) (x0 + x1 + x2)).
  { apply (add_near (3 * eps) (5 * eps) (n0 * n0 + n1 * n1) (n2 * n2)
             (x0 + x1) x2 N01).
    - apply (near_weaken eps); [lra|exact N2].
    - lra.
    - nra.
    - destruct R0 as [?|?]; destruct R1 as [?|?];
        try (left; lra); right; lra.
    - destruct R2 as [?|?]; [now left|right; lra]. }
  split; [lra|].
  apply (sqrt_near (5 * eps) _ x N012); [lra|].
  unfold x. fold x0 x1 x2. split; [exact Hx|].
  destruct R0 as [?|?]; destruct R1 as [?|?]; destruct R2 as [?|?]; lra.
Qed.

Lemma bpow_m49 : bpow (-49) = 8 * eps.
Proof.
  unfold eps. change (-49)%Z with (-52 + 3)%Z. now rewrite bpow_scale by lia.
Qed.

Lemma normalize_float (n0 n1 n2 : float) :
  moderate n0 = true -> moderate n1 = true -> moderate n2 = true ->
  (PrimFloat.eqb n0 0 && PrimFloat.eqb n1 0 && PrimFloat.eqb n2 0)%bool
  = false ->
  let d := PrimFloat.sqrt (n0 * n0 + n1 * n1 + n2 * n2)%float in
  let X := sqrt (B2R n0 * B2R n0 + B2R n1 * B2R n1 + B2R n2 * B2R n2) in
  0 < X /\
  PrimFloat.eqb d 0 = false /\
  forall n : float, moderate n = true ->
    finite (n / d) = true /\
    Rabs (B2R (n / d) - B2R n / X) <= bpow (-49) * Rabs (B2R n / X).
Proof.
  intros H0 H1 H2 Hnz d X.
  destruct (norm_near n0 n1 n2 H0 H1 H2 Hnz) as (Hx & m & e & E & Hr & Hsq).
  fold d in E. split; [|split].
  - now apply sqrt_lt_R0.
  - exact (positive_not_zero d m e E).
  - intros n Hn. destruct (div_near n d m e Hn E Hr) as [Hf Herr].
    split; [exact Hf|]. rewrite bpow_m49.
    apply (normalize_error _ (V m e) (B2R n) (B2R (n / d)) Hx);
      [|exact Hsq|exact Herr].
    pose proof (bpow_pos (-505)). lra.
Qed.

Lemma zero_norm (n0 n1 n2 : float) :
  (PrimFloat.eqb n0 0 && PrimFloat.eqb n1 0 && PrimFloat.eqb n2 0)%bool
  = true ->
  PrimFloat.eqb (PrimFloat.sqrt (n0 * n0 + n1 * n1 + n2 * n2)%float) 0 = true.
Proof.
  intros H. apply andb_prop in H. destruct H as [H H2].
  apply andb_prop in H. destruct H as [H0 H1].
  assert (Z : forall n, PrimFloat.eqb n 0 = true ->
                        Prim2SF (n * n) = S754_zero false).
  { intros n Hn. rewrite eqb_spec, prim_zero in Hn. rewrite mul_spec.
    destruct (Prim2SF n) as [s|s| |s m e]; try destruct s;
      try discriminate; reflexivity. }
  rewrite eqb_spec, sqrt_spec, !add_spec, (Z n0 H0), (Z n1 H1), (Z n2 H2).
  reflexivity.
Qed.


(** *** The range condition, in words *)

Lemma F2R_abs (s : bool) (m : positive) (e : Z) : Rabs (F2R s m e) = V m e.
Proof.
  pose proof (mantissa_pos m e) as Hp. unfold F2R, V.
  destruct s; [rewrite Rabs_Ropp|]; apply Rabs_pos_eq; lra.
Qed.

Lemma moderate_spec (x : float) :
  moderate x = true <->
  finite x = true /\
  (B2R x = 0 \/ bpow (-500) <= Rabs (B2R x) < bpow 500).
Proof.
  unfold moderate, finite, B2R.
  destruct (Prim2SF x) as [s|s| |s m e] eqn:E; cbn [SF2R].
  - split; [intros _; split; [reflexivity|now left] | reflexivity].
  - split; [discriminate | intros [H _]; discriminate].
  - split; [discriminate | intros [H _]; discriminate].
  - pose proof (prim_canonical x s m e E) as Hc.
    pose proof (mantissa_pos m e) as Hpos. fold (V m e) in Hpos.
    pose proof (bpow_pos e) as Hp.
    rewrite F2R_abs.
    assert (Hv : Zdigits2 (Zpos m) = 53%Z ->
                 bpow (52 + e) <= V m e < bpow (53 + e)).
    { intros Hd. destruct (mantissa_ge_52 m Hd) as [Hlo Hhi].
      rewrite !bpow_add, (bpow_IZR 52), (bpow_IZR 53) by lia.
      unfold V. split.
      - apply Rmult_le_compat_r; [lra|]. apply IZR_le. lia.
      - apply Rmult_lt_compat_r; [lra|]. apply IZR_lt. lia. }
    split.
    + intros H. apply andb_prop in H. destruct H as [H1 H2].
      apply Z.leb_le in H1, H2.
      destruct (canonical_spec m e Hc) as (Hd & He & Hn).
      destruct (Hv ltac:(lia)) as [Hlo Hhi].
      split; [reflexivity|]. right. split.
      * apply Rle_trans with (bpow (52 + e)); [apply bpow_le; lia|exact Hlo].
      * apply Rlt_le_trans with (bpow (53 + e)); [exact Hhi|apply bpow_le; lia].
    + intros [_ [H|[Hlo Hhi]]].
      * exfalso. unfold F2R in H. fold (V m e) in H. destruct s; lra.
      * assert (Hd : Zdigits2 (Zpos m) = 53%Z).
        { apply (canonical_normal m e Hc). fold (V m e).
          apply Rle_trans with (bpow (-500)); [apply bpow_le; lia|exact Hlo]. }
        destruct (Hv Hd) as [Hvlo Hvhi].
        assert (K1 : bpow (-500) < bpow (53 + e)) by lra.
        assert (K2 : bpow (52 + e) < bpow 500) by lra.
        apply bpow_lt_inv in K1, K2.
        apply andb_true_intro. split; apply Z.leb_le; lia.
Qed.

(** *** [compute_normal] *)

Lemma in_range_components (n0 n1 n2 : float) :
  in_range (n0, n1, n2) = true ->
  moderate n0 = true /\ moderate n1 = true /\ moderate n2 = true.
Proof.
  unfold in_range. intros H. apply andb_prop in H. destruct H as [H H2].
  apply andb_prop in H. destruct H as [H0 H1]. now repeat split.
Qed.

Lemma unit_vector (N0 N1 N2 : R) :
  0 < sqrt (N0 * N0 + N1 * N1 + N2 * N2) ->
  let X := sqrt (N0 * N0 + N1 * N1 + N2 * N2) in
  N0 / X * (N0 / X) + N1 / X * (N1 / X) + N2 / X * (N2 / X) = 1.
Proof.
  intros HX X. fold X in HX.
  assert (HXX : X * X = N0 * N0 + N1 * N1 + N2 * N2).
  { apply sqrt_sqrt. nra. }
  replace (N0 / X * (N0 / X) + N1 / X * (N1 / X) + N2 / X * (N2 / X))
    with ((N0 * N0 + N1 * N1 + N2 * N2) / (X * X)) by (field; lra).
  rewrite <- HXX. field. lra.
Qed.

Lemma compute_normal_branch (v0 v1 v2 : vertex) :
  let n := Normal.cross Normal.binary64 (Normal.vsub Normal.binary64 v1 v0)
             (Normal.vsub Normal.binary64 v2 v0) in
  Viewer.compute_normal v0 v1 v2 =
  if PrimFloat.eqb (Normal.norm Normal.binary64 n) 0
  then (0, 0, 1)%float
  else Normal.vdiv Normal.binary64 n (Normal.norm Normal.binary64 n).
Proof. reflexivity. Qed.

(** C8, as the code has it. [compute_normal] runs in binary64. Write [n]
    for the cross product of [v1 - v0] and [v2 - v0] it computes: every
    difference, product and difference of products rounded (second
    conjunct).
    - When the computed norm of [n] compares equal to 0, and so whenever
      every component of [n] is a zero, it returns exactly (0, 0, 1) and
      divides nothing.
    - When every component of [n] is zero or of magnitude in
      [[2^-500, 2^500)] and one is not zero, it returns [n] divided by its
      computed norm; every component of the result is finite and is the
      component of the exact [n / |n|] up to a relative error of [2^-49],
      and the magnitude of the result is within [2^-49] of 1.
    The first conjunct says what "in range" is. *)
Theorem compute_normal_unit :
  (forall x : float,
      moderate x = true <->
      finite x = true /\
      (B2R x = 0 \/ bpow (-500) <= Rabs (B2R x) < bpow 500)) /\
  (forall x0 y0 z0 x1 y1 z1 x2 y2 z2 : float,
      Normal.cross Normal.binary64
        (Normal.vsub Normal.binary64 (x1, y1, z1) (x0, y0, z0))
        (Normal.vsub Normal.binary64 (x2, y2, z2) (x0, y0, z0)) =
      ((y1 - y0) * (z2 - z0) - (z1 - z0) * (y2 - y0),
       (z1 - z0) * (x2 - x0) - (x1 - x0) * (z2 - z0),
       (x1 - x0) * (y2 - y0) - (y1 - y0) * (x2 - x0))%float) /\
  (forall v0 v1 v2 : vertex,
      let n := Normal.cross Normal.binary64 (Normal.vsub Normal.binary64 v1 v0)
                 (Normal.vsub Normal.binary64 v2 v0) in
      let r := Viewer.compute_normal v0 v1 v2 in
      (PrimFloat.eqb (Normal.norm Normal.binary64 n) 0 = true ->
       r = (0, 0, 1)%float) /\
      (all_zero n = true -> r = (0, 0, 1)%float) /\
      (in_range n = true -> all_zero n = false ->
       r = Normal.vdiv Normal.binary64 n (Normal.norm Normal.binary64 n) /\
       all_finite r = true /\
       close3 (bpow (-49)) (coords r) (normalized n) /\
       Rabs (magnitude r - 1) <= bpow (-49))).
Proof.
  split; [exact moderate_spec|]. split; [reflexivity|].
  intros v0 v1 v2 n r. subst r. rewrite (compute_normal_branch v0 v1 v2).
  fold n. clearbody n. destruct n as [[n0 n1] n2].
  change (Normal.norm Normal.binary64 (n0, n1, n2))
    with (PrimFloat.sqrt (n0 * n0 + n1 * n1 + n2 * n2)%float).
  set (d := PrimFloat.sqrt (n0 * n0 + n1 * n1 + n2 * n2)%float).
  split; [|split].
  - intros ->. reflexivity.
  - intros Hz. unfold d. now rewrite (zero_norm n0 n1 n2 Hz).
  - intros Hr Hnz.
    destruct (in_range_components n0 n1 n2 Hr) as (H0 & H1 & H2).
    destruct (normalize_float n0 n1 n2 H0 H1 H2 Hnz) as (HX & Hd & Hq).
    fold d in Hd, Hq. rewrite Hd.
    change (Normal.vdiv Normal.binary64 (n0, n1, n2) d)
      with ((n0 / d, n1 / d, n2 / d)%float).
    destruct (Hq n0 H0) as [F0 E0]. destruct (Hq n1 H1) as [F1 E1].
    destruct (Hq n2 H2) as [F2 E2].
    split; [reflexivity|]. split; [|split].
    + unfold all_finite. now rewrite F0, F1, F2.
    + exact (conj E0 (conj E1 E2)).
    + pose proof eps_bounds as He.
      apply (unit_magnitude _ _ _ _ _ _ (bpow (-49))
               ltac:(rewrite bpow_m49; lra)
               (unit_vector (B2R n0) (B2R n1) (B2R n2) HX) E0 E1 E2).
Qed.

(** The triangle (0,0,0), (0,0,1), (1,1,0), of normal (-1, 1, 0) / sqrt 2,
    and the collinear points (0,0,0), (1,1,1), (2,2,2). *)
Lemma compute_normal_unit_witness :
  all_finite (Viewer.compute_normal (0, 0, 0)%float (0, 0, 1)%float
                (1, 1, 0)%float) = true /\
  Rabs (magnitude (Viewer.compute_normal (0, 0, 0)%float (0, 0, 1)%float
                     (1, 1, 0)%float) - 1) <= bpow (-49) /\
  Viewer.compute_normal (0, 0, 0)%float (1, 1, 1)%float (2, 2, 2)%float =
  (0, 0, 1)%float.
Proof.
  pose proof compute_normal_unit as (_ & _ & H).
  destruct (H (0, 0, 0)%float (0, 0, 1)%float (1, 1, 0)%float)
    as (_ & _ & Hunit).
  destruct (Hunit eq_refl eq_refl) as (_ & Hf & _ & Hm).
  destruct (H (0, 0, 0)%float (1, 1, 1)%float (2, 2, 2)%float)
    as (_ & Hzero & _).
  split; [exact Hf|]. split; [exact Hm|]. exact (Hzero eq_refl).
Defined.

Lemma B2R_finite (x : float) (s : bool) (m : positive) (e : Z) :
  Prim2SF x = S754_finite s m e -> B2R x = F2R s m e.
Proof. intros H. unfold B2R. now rewrite H. Qed.

Lemma below_one (m : positive) :
  (2 * (Zpos m * Zpos m) < 2 ^ 106)%Z ->
  sqrt (F2R true m (-53) * F2R true m (-53) +
        F2R false m (-53) * F2R false m (-53) + 0 * 0) < 1.
Proof.
  intros H. rewrite <- sqrt_1. apply sqrt_lt_1_alt.
  pose proof (bpow_pos (-53)) as Hp.
  assert (Hb : bpow (-53) * bpow (-53) * IZR (2 ^ 106) = 1).
  { rewrite <- (bpow_IZR 106), <- !bpow_add by lia. reflexivity. }
  apply IZR_lt in H. rewrite !mult_IZR in H.
  unfold F2R. set (M := IZR (Zpos m)) in *. set (b := bpow (-53)) in *.
  assert (Hbb : 0 < b * b) by nra.
  assert (K : 2 * (M * M) * (b * b) < IZR (2 ^ 106) * (b * b)).
  { apply Rmult_lt_compat_r; assumption. }
  split; nra.
Qed.

(** C8 fails as stated, four times over.
    - Overflow: for the right triangle of side 2^300 the cross product is
      (0, 0, 2^600), not zero, but its squared norm overflows: the norm is
      infinite and the quotient is (0, 0, 0), of magnitude 0.
    - Underflow: for the right triangle of side 2^-300 the cross product is
      (0, -2^-600, 0), not zero, but its squared norm underflows to 0: the
      fallback (0, 0, 1) is returned, which is not its direction.
    - Rounding: for (0,0,0), (0,0,1), (1,1,0) the result has magnitude
      below 1, over the reals and as binary64 computes it.
    - Collinear points: (-1,0,-3), (2^-53, 0, 3 * 2^-53), (1,0,3) lie on
      one line, but the difference of the first two is rounded and the
      result is (0, 1, 0), not (0, 0, 1). *)
Lemma unit_normal_counterexample :
  (let v0 := (0, 0, 0)%float in
   let v1 := (0x1p+300, 0, 0)%float in
   let v2 := (0, 0x1p+300, 0)%float in
   let n := Normal.cross Normal.binary64 (Normal.vsub Normal.binary64 v1 v0)
              (Normal.vsub Normal.binary64 v2 v0) in
   n = (0, 0, 0x1p+600)%float /\
   Normal.norm Normal.binary64 n = infinity /\
   Viewer.compute_normal v0 v1 v2 = (0, 0, 0)%float /\
   magnitude (Viewer.compute_normal v0 v1 v2) = 0) /\
  (let v0 := (0, 0, 0)%float in
   let v1 := (0x1p-300, 0, 0)%float in
   let v2 := (0, 0, 0x1p-300)%float in
   let n := Normal.cross Normal.binary64 (Normal.vsub Normal.binary64 v1 v0)
              (Normal.vsub Normal.binary64 v2 v0) in
   n = (0, -0x1p-600, 0)%float /\
   all_zero n = false /\
   Normal.norm Normal.binary64 n = 0%float /\
   Viewer.compute_normal v0 v1 v2 = (0, 0, 1)%float) /\
  (let r := Viewer.compute_normal (0, 0, 0)%float (0, 0, 1)%float
              (1, 1, 0)%float in
   r = (-0x1.6a09e667f3bccp-1, 0x1.6a09e667f3bccp-1, 0)%float /\
   Normal.norm Normal.binary64 r = 0x1.fffffffffffffp-1%float /\
   magnitude r < 1) /\
  (let v0 := (-1, 0, -3)%float in
   let v1 := (0x1p-53, 0, 0x1.8p-52)%float in
   let v2 := (1, 0, 3)%float in
   collinear v0 v1 v2 /\
   Viewer.compute_normal v0 v1 v2 = (0, 1, 0)%float).
Proof.
  assert (Ez : B2R 0 = 0) by (unfold B2R; rewrite prim_zero; reflexivity).
  split; [|split; [|split]]; cbv zeta.
  - split; [reflexivity|]. split; [reflexivity|]. split; [reflexivity|].
    change (Viewer.compute_normal (0, 0, 0)%float (0x1p+300, 0, 0)%float
              (0, 0x1p+300, 0)%float) with (0, 0, 0)%float.
    unfold magnitude, coords. rewrite Ez.
    replace (0 * 0 + 0 * 0 + 0 * 0) with 0 by ring. apply sqrt_0.
  - repeat split.
  - split; [reflexivity|]. split; [reflexivity|].
    change (Viewer.compute_normal (0, 0, 0)%float (0, 0, 1)%float
              (1, 1, 0)%float)
      with (-0x1.6a09e667f3bccp-1, 0x1.6a09e667f3bccp-1, 0)%float.
    unfold magnitude, coords. rewrite Ez.
    rewrite (B2R_finite (-0x1.6a09e667f3bccp-1) true 6369051672525772 (-53)
               eq_refl).
    rewrite (B2R_finite 0x1.6a09e667f3bccp-1 false 6369051672525772 (-53)
               eq_refl).
    apply below_one. reflexivity.
  - split; [|reflexivity].
    unfold collinear, coords. rewrite Ez.
    rewrite (B2R_finite (-1) true 4503599627370496 (-52) eq_refl).
    rewrite (B2R_finite 1 false 4503599627370496 (-52) eq_refl).
    rewrite (B2R_finite (-3) true 6755399441055744 (-51) eq_refl).
    rewrite (B2R_finite 3 false 6755399441055744 (-51) eq_refl).
    rewrite (B2R_finite 0x1p-53 false 4503599627370496 (-105) eq_refl).
    rewrite (B2R_finite 0x1.8p-52 false 6755399441055744 (-104) eq_refl).
    unfold F2R.
    change (-52)%Z with (-105 + 53)%Z. change (-51)%Z with (-105 + 54)%Z.
    change (-104)%Z with (-105 + 1)%Z.
    rewrite !bpow_scale by lia. change (-105 + 0)%Z with (-105)%Z.
    split; [ring|]. split; [|ring].
    assert (K : IZR (2 ^ 105) * bpow (-105) = 1).
    { rewrite <- (bpow_IZR 105), <- bpow_add by lia. reflexivity. }
    set (t := bpow (-105)) in *.
    change (2 ^ 53)%Z with 9007199254740992%Z.
    change (2 ^ 54)%Z with 18014398509481984%Z.
    change (2 ^ 1)%Z with 2%Z.
    change (2 ^ 105)%Z with 40564819207303340847894502572032%Z in K.
    nra.
Qed.

End Rounding.

Set Implicit Arguments.

(** * Further properties of the loader *)

Section Lines.

Local Open Scope string_scope.
Local Open Scope list_scope.

Lemma lstrip_comment_first_token (line : string) :
  startswith (lstrip line) "#" = true ->
  exists t rest, split (strip line) = String "#" t :: rest.
Proof.
  unfold strip. destruct (lstrip line) as [|c l]; cbn [startswith];
    [discriminate|].
  intros Hc. apply andb_true_iff in Hc as [Hc _].
  apply Ascii.eqb_eq in Hc. subst c.
  unfold split. cbn [rstrip split_from].
  change (is_space "#") with false. cbn [andb].
  destruct (split_from_head (rstrip l) "#" eq_refl) as (t & rest & E).
  exists t, rest. exact E.
Qed.

(** What a line does to the lists does not depend on the lists: it is
    what the line does to empty lists, appended. *)
Lemma process_line_shift (m : mesh) (line : string) :
  process_line m line =
  match process_line ([], []) line with
  | Done d => Done (fst m ++ fst d, snd m ++ snd d)
  | Raised _ => Raised m
  end.
Proof.
  destruct m as [verts faces]. unfold process_line.
  destruct (startswith line "#").
  { simpl. now rewrite !app_nil_r. }
  destruct (split (strip line)) as [|p0 rest].
  { simpl. now rewrite !app_nil_r. }
  destruct (String.eqb p0 "v").
  { destruct (parse_vertex (p0 :: rest)); simpl; [|reflexivity].
    now rewrite app_nil_r. }
  destruct (String.eqb p0 "f").
  - destruct (face_indices rest []) as [face|]; [|reflexivity].
    rewrite !add_face_fan. simpl. now rewrite app_nil_r.
  - simpl. now rewrite !app_nil_r.
Qed.

Lemma face_indices_none (tokens : list string) (acc : list Z) :
  face_indices tokens acc = None <->
  exists v : string,
    In v tokens /\ position_component v <> "" /\
    py_int (position_component v) = None.
Proof.
  revert acc. induction tokens as [|v rest IH]; intros acc; simpl.
  - split; [discriminate | intros (v & [] & _)].
  - destruct (position_component v) as [|c idx] eqn:Ev; simpl.
    + rewrite IH. split.
      * intros (u & Hu & H). exists u. split; [now right | exact H].
      * intros (u & [<-|Hu] & Hne & H).
        -- rewrite Ev in Hne. congruence.
        -- exists u. now split.
    + destruct (py_int (String c idx)) as [k|] eqn:Ek.
      * rewrite IH. split.
        -- intros (u & Hu & H). exists u. split; [now right | exact H].
        -- intros (u & [<-|Hu] & Hne & H).
           ++ rewrite Ev in H. congruence.
           ++ exists u. now split.
      * split; [|reflexivity]. intros _. exists v.
        split; [now left|]. rewrite Ev. split; [discriminate | exact Ek].
Qed.

Lemma parse_vertex_none (p0 : string) (rest : list string) :
  parse_vertex (p0 :: rest) = None <->
  (List.length rest < 3)%nat \/
  exists t : string, In t (firstn 3 rest) /\ py_float t = None.
Proof.
  unfold parse_vertex, slice. cbn [Nat.sub skipn].
  destruct rest as [|a [|b [|c extra]]]; cbn [firstn List.length].
  - split; [intros _; left; lia | reflexivity].
  - split; [intros _; left; lia | reflexivity].
  - split; [intros _; left; lia | reflexivity].
  - destruct (py_float a) as [x|] eqn:Ea.
    2:{ split; [|reflexivity]. intros _. right. exists a.
        split; [now left | exact Ea]. }
    destruct (py_float b) as [y|] eqn:Eb.
    2:{ split; [|reflexivity]. intros _. right. exists b.
        split; [right; now left | exact Eb]. }
    destruct (py_float c) as [z|] eqn:Ec.
    2:{ split; [|reflexivity]. intros _. right. exists c.
        split; [right; right; now left | exact Ec]. }
    split; [discriminate|].
    intros [H|(t & [<-|[<-|[<-|[]]]] & H)]; [simpl in H; lia| | |];
      congruence.
Qed.

Lemma py_int_empty : py_int "" = None.
Proof. reflexivity. Qed.

(** When every position component is empty or an int, the indices of the
    face are the position indices minus 1, in token order. *)
Lemma face_indices_closed (tokens : list string) (acc : list Z) :
  (forall v : string,
      In v tokens ->
      position_component v = "" \/
      exists k : Z, py_int (position_component v) = Some k) ->
  face_indices tokens acc =
  Some (acc ++ map (fun k => (k - 1)%Z) (position_indices tokens)).
Proof.
  revert acc. induction tokens as [|v rest IH]; intros acc Hok; simpl.
  - now rewrite app_nil_r.
  - assert (Hrest : forall u, In u rest ->
              position_component u = "" \/
              exists k : Z, py_int (position_component u) = Some k)
      by (intros u Hu; apply Hok; now right).
    destruct (Hok v (or_introl eq_refl)) as [Hv|(k & Hk)].
    + rewrite Hv. simpl. now apply IH.
    + rewrite Hk. destruct (position_component v) eqn:Ev.
      * rewrite py_int_empty in Hk. discriminate.
      * simpl. rewrite (IH _ Hrest). now rewrite <- app_assoc.
Qed.

End Lines.

(** X1. A line that starts with the number sign, with or without white
    space before it, a blank line, and a line whose first token is neither
    [v] nor [f] (vt, vn, o, g, usemtl, ...) are skipped: they change
    neither list and never raise, whatever else they contain. *)
Theorem other_lines_ignored :
  forall (m : mesh) (line : string),
    startswith (lstrip line) "#" = true \/
    split (strip line) = [] \/
    (exists (p0 : string) (rest : list string),
        split (strip line) = p0 :: rest /\ p0 <> "v" /\ p0 <> "f") ->
    process_line m line = Done m.
Proof.
  intros [verts faces] line H. unfold process_line.
  destruct (startswith line "#"); [reflexivity|].
  destruct H as [H|[H|(p0 & rest & H & Hv & Hf)]].
  - destruct (lstrip_comment_first_token line H) as (t & rest & E).
    rewrite E. destruct t; reflexivity.
  - now rewrite H.
  - rewrite H. apply String.eqb_neq in Hv, Hf. now rewrite Hv, Hf.
Qed.

(** An indented comment that looks like a vertex line. *)
Lemma other_lines_ignored_witness :
  process_line ([(0, 0, 0)%float], []) "   # v 1 2 x" =
  Done ([(0, 0, 0)%float], []).
Proof.
  apply (@other_lines_ignored ([(0, 0, 0)%float], []) "   # v 1 2 x").
  left. reflexivity.
Defined.

(** X2. The lines that raise are exactly the [v] lines with fewer than
    three tokens after the [v] or with one of the first three that is no
    float, and the [f] lines with a token whose non-empty position
    component is no int. Such a line leaves both lists as they were: no
    part of it is stored. *)
Theorem raising_lines :
  forall (m : mesh) (line : string),
    (raised (process_line m line) = true <->
     exists rest : list string,
       (split (strip line) = "v" :: rest /\
        ((List.length rest < 3)%nat \/
         exists t : string, In t (firstn 3 rest) /\ py_float t = None)) \/
       (split (strip line) = "f" :: rest /\
        exists v : string,
          In v rest /\ position_component v <> "" /\
          py_int (position_component v) = None)) /\
    (raised (process_line m line) = true ->
     state_of (process_line m line) = m).
Proof.
  intros m line. split.
  - rewrite process_line_raises. split.
    + intros (rest & [[Hs Hp]|[Hs Hp]]); exists rest.
      * left. split; [exact Hs|]. now apply parse_vertex_none in Hp.
      * right. split; [exact Hs|]. now apply face_indices_none in Hp.
    + intros (rest & [[Hs Hp]|[Hs Hp]]); exists rest.
      * left. split; [exact Hs|]. now apply parse_vertex_none.
      * right. split; [exact Hs|]. now apply face_indices_none.
  - destruct (process_line m line) as [m'|m'] eqn:E; [discriminate|].
    intros _. simpl. now apply process_line_raised in E.
Qed.

(** X3. On a face line whose tokens all have an empty or an int position
    component, the face is the list of the position indices minus 1, in
    token order, and the line adds the fan of that list; tokens with an
    empty position component shorten the face. *)
Theorem face_line_closed_form :
  forall (m : mesh) (line : string) (tokens : list string),
    split (strip line) = "f" :: tokens ->
    (forall v : string,
        In v tokens ->
        position_component v = "" \/
        exists k : Z, py_int (position_component v) = Some k) ->
    let face := map (fun k => (k - 1)%Z) (position_indices tokens) in
    face_indices tokens [] = Some face /\
    (List.length face <= List.length tokens)%nat /\
    process_line m line = Done (fst m, snd m ++ fan_spec face).
Proof.
  intros [verts faces] line tokens Hs Hok face.
  pose proof (face_indices_closed tokens [] Hok) as E. simpl in E.
  fold face in E. split; [exact E|]. split.
  - unfold face, position_indices. rewrite length_map.
    clear. induction tokens as [|v rest IH]; simpl; [lia|].
    rewrite length_app.
    destruct (py_int (position_component v)); simpl; lia.
  - rewrite (process_face_line verts faces line Hs), E. reflexivity.
Qed.

(** Four references, one of them with an empty position component. *)
Lemma face_line_closed_form_witness :
  face_indices ["1/2/3"; "/5"; "4//5"; "7"] [] = Some [0; 3; 6]%Z /\
  process_line ([], []) "f 1/2/3 /5 4//5 7" = Done ([], [[0; 3; 6]%Z]).
Proof.
  destruct (@face_line_closed_form ([], []) "f 1/2/3 /5 4//5 7"
              ["1/2/3"; "/5"; "4//5"; "7"] eq_refl) as (Hface & _ & Hline).
  - intros v [<-|[<-|[<-|[<-|[]]]]].
    + right. exists 1%Z. reflexivity.
    + left. reflexivity.
    + right. exists 4%Z. reflexivity.
    + right. exists 7%Z. reflexivity.
  - split; [exact Hface | exact Hline].
Defined.

Section WholeFile.

Local Open Scope list_scope.

Lemma read_loop_shift (lines : list string) :
  exists (vs : list vertex) (ts : list triangle),
  forall m : mesh,
    state_of (read_loop lines m) = (fst m ++ vs, snd m ++ ts) /\
    raised (read_loop lines m) = raised (read_loop lines ([], [])).
Proof.
  induction lines as [|l lines (vs & ts & IH)].
  - exists [], []. intros [verts faces]. simpl. now rewrite !app_nil_r.
  - cbn [read_loop]. destruct (process_line ([], []) l) as [d|d] eqn:E.
    + exists (fst d ++ vs), (snd d ++ ts). intros m.
      rewrite (process_line_shift m l), E.
      destruct (IH (fst m ++ fst d, snd m ++ snd d)) as (H1 & H2).
      destruct (IH d) as (_ & H4).
      split.
      * rewrite H1. simpl. now rewrite !app_assoc.
      * now rewrite H2, H4.
    + exists [], []. intros m.
      rewrite (process_line_shift m l), E. simpl.
      apply process_line_raised in E. subst d. simpl.
      destruct m. simpl. now rewrite !app_nil_r.
Qed.

Lemma fan_spec_three (face : list Z) :
  Forall (fun t : triangle => List.length t = 3%nat) (fan_spec face).
Proof.
  unfold fan_spec.
  destruct (Nat.ltb_spec (List.length face) 3); [constructor|].
  destruct (Nat.eqb_spec (List.length face) 3) as [E|N].
  - constructor; [exact E | constructor].
  - apply Forall_forall. intros t Ht.
    apply in_map_iff in Ht as (k & <- & _). reflexivity.
Qed.

Lemma read_loop_three (lines : list string) (m : mesh) :
  Forall (fun t : triangle => List.length t = 3%nat) (snd m) ->
  Forall (fun t : triangle => List.length t = 3%nat)
         (snd (state_of (read_loop lines m))).
Proof.
  revert m. induction lines as [|l lines IH]; intros m Hm; simpl.
  - exact Hm.
  - pose proof (process_line_effect m l) as H.
    destruct (process_line m l) as [m1|m1].
    + apply IH.
      inversion H as [E|v E|tokens face Hs Hf E|]; subst m1; simpl;
        try exact Hm.
      apply Forall_app. split; [exact Hm | apply fan_spec_three].
    + apply process_line_raised_state in H. now subst m1.
Qed.

Lemma load_obj_three (file : option string) :
  Forall (fun t : triangle => List.length t = 3%nat) (snd (load_obj file)).
Proof.
  unfold load_obj, try_block. destruct file as [text|].
  - apply read_loop_three. constructor.
  - constructor.
Qed.

End WholeFile.

(** X4. The loader keeps no state from line to line: reading the same
    lines on top of any lists already built appends the same vertices and
    the same triangles, and stops at the same line. In particular an index
    is never resolved against the number of vertices read so far. *)
Theorem lines_contribute_independently :
  forall (lines : list string),
  exists (vs : list vertex) (ts : list triangle),
    state_of (read_loop lines ([], [])) = (vs, ts) /\
    forall m : mesh,
      state_of (read_loop lines m) = (fst m ++ vs, snd m ++ ts) /\
      raised (read_loop lines m) = raised (read_loop lines ([], [])).
Proof.
  intros lines. destruct (read_loop_shift lines) as (vs & ts & H).
  exists vs, ts. split; [|exact H].
  destruct (H ([], [])) as (E & _). exact E.
Qed.

(** X5. Every face [load_obj] returns is a list of exactly three indices,
    for every file, readable or not, well formed or not. *)
Theorem load_obj_triangles :
  forall (file : option string),
    Forall (fun t : triangle => List.length t = 3%nat)
           (snd (load_obj file)).
Proof. intros file. apply load_obj_three. Qed.

(** * Properties of [draw_mesh] *)

Section Drawing.

Local Open Scope list_scope.
Local Open Scope Z_scope.

Lemma subscript_dec (n i : Z) : {subscript_ok n i} + {~ subscript_ok n i}.
Proof.
  unfold subscript_ok.
  destruct (Z_le_dec (- n) i); [|right; lia].
  destruct (Z_lt_dec i n); [left; lia | right; lia].
Qed.

Lemma getitem_element (A : Type) (l : list A) (i : Z) (d : A) :
  subscript_ok (len l) i -> getitem l i = Some (element l i d).
Proof.
  unfold subscript_ok, element. intros H.
  destruct (Z.leb_spec 0 i).
  - apply getitem_in_range. lia.
  - apply getitem_negative. lia.
Qed.

Lemma getitem_none (A : Type) (l : list A) (i : Z) :
  ~ subscript_ok (len l) i -> getitem l i = None.
Proof.
  unfold subscript_ok, getitem, len. intros H.
  destruct (Z.leb_spec 0 i).
  - apply nth_error_None. lia.
  - destruct (Z.leb_spec (- Z.of_nat (List.length l)) i); [lia | reflexivity].
Qed.

Lemma corner_three (verts : list vertex) (i j k : Z) :
  corner verts [i; j; k] 0 = getitem verts i /\
  corner verts [i; j; k] 1 = getitem verts j /\
  corner verts [i; j; k] 2 = getitem verts k.
Proof. repeat split. Qed.

Lemma emit_vertices_ok (verts : list vertex) (f : list Z)
  (out : list gl_call) :
  (forall i, In i f -> subscript_ok (len verts) i) ->
  emit_vertices verts f out =
  Done (out ++ map (fun i => vertex_call (element verts i origin)) f).
Proof.
  revert out. induction f as [|i f IH]; intros out Hok; simpl.
  - now rewrite app_nil_r.
  - rewrite (getitem_element verts origin (Hok i (or_introl eq_refl))).
    destruct (element verts i origin) as [[x y] z] eqn:E.
    rewrite IH by (intros j Hj; apply Hok; now right).
    rewrite <- app_assoc. simpl. reflexivity.
Qed.

Lemma draw_face_ok (verts : list vertex) (i j k : Z) (out : list gl_call) :
  subscript_ok (len verts) i -> subscript_ok (len verts) j ->
  subscript_ok (len verts) k ->
  draw_face verts [i; j; k] out = Done (out ++ face_calls verts [i; j; k]).
Proof.
  intros Hi Hj Hk. unfold draw_face.
  destruct (corner_three verts i j k) as (-> & -> & ->).
  rewrite (getitem_element verts origin Hi),
    (getitem_element verts origin Hj), (getitem_element verts origin Hk).
  unfold face_calls, normal_call.
  destruct (compute_normal (element verts i origin) (element verts j origin)
              (element verts k origin)) as [[nx ny] nz].
  rewrite emit_vertices_ok
    by (intros x [<-|[<-|[<-|[]]]]; assumption).
  rewrite <- app_assoc. reflexivity.
Qed.

Lemma draw_face_bad (verts : list vertex) (i j k : Z) (out : list gl_call) :
  ~ subscript_ok (len verts) i \/ ~ subscript_ok (len verts) j \/
  ~ subscript_ok (len verts) k ->
  raised (draw_face verts [i; j; k] out) = true.
Proof.
  intros H. unfold draw_face.
  destruct (corner_three verts i j k) as (-> & -> & ->).
  destruct (subscript_dec (len verts) i) as [Hi|Hi].
  2:{ now rewrite (getitem_none verts Hi). }
  rewrite (getitem_element verts origin Hi).
  destruct (subscript_dec (len verts) j) as [Hj|Hj].
  2:{ now rewrite (getitem_none verts Hj). }
  rewrite (getitem_element verts origin Hj).
  destruct (subscript_dec (len verts) k) as [Hk|Hk].
  2:{ now rewrite (getitem_none verts Hk). }
  tauto.
Qed.

Lemma draw_faces_ok (verts : list vertex) (faces : list triangle)
  (out : list gl_call) :
  drawable verts faces ->
  draw_faces verts faces out =
  Done (out ++ flat_map (face_calls verts) faces).
Proof.
  revert out. induction faces as [|t faces IH]; intros out Hd; simpl.
  - now rewrite app_nil_r.
  - destruct (Hd t (or_introl eq_refl)) as (H3 & Hok).
    destruct t as [|i [|j [|k [|? ?]]]]; try discriminate.
    rewrite draw_face_ok by (apply Hok; simpl; tauto).
    rewrite IH by (intros u Hu; apply Hd; now right).
    now rewrite <- app_assoc.
Qed.

Lemma draw_faces_raised (verts : list vertex) (faces : list triangle) :
  Forall (fun t : triangle => List.length t = 3%nat) faces ->
  forall out : list gl_call,
    raised (draw_faces verts faces out) = true <->
    exists (t : triangle) (i : Z),
      In t faces /\ In i t /\ ~ subscript_ok (len verts) i.
Proof.
  induction 1 as [|t faces H3 Hall IH]; intros out.
  - simpl. split; [discriminate | intros (t & i & [] & _)].
  - destruct t as [|i [|j [|k [|? ?]]]]; try discriminate.
    cbn [draw_faces].
    destruct (subscript_dec (len verts) i) as [Hi|Hi];
      [destruct (subscript_dec (len verts) j) as [Hj|Hj];
       [destruct (subscript_dec (len verts) k) as [Hk|Hk]|]|].
    + rewrite (@draw_face_ok verts i j k out Hi Hj Hk), IH. split.
      * intros (t & x & Ht & Hx). exists t, x. split; [now right | exact Hx].
      * intros (t & x & [<-|Ht] & Hx & Hbad).
        -- destruct Hx as [<-|[<-|[<-|[]]]]; contradiction.
        -- exists t, x. now split.
    + pose proof (@draw_face_bad verts i j k out
                    (or_intror (or_intror Hk))) as Hr.
      destruct (draw_face verts [i; j; k] out); [discriminate|].
      split; [|reflexivity]. intros _. exists [i; j; k], k.
      split; [now left|]. split; [simpl; tauto | exact Hk].
    + pose proof (@draw_face_bad verts i j k out
                    (or_intror (or_introl Hj))) as Hr.
      destruct (draw_face verts [i; j; k] out); [discriminate|].
      split; [|reflexivity]. intros _. exists [i; j; k], j.
      split; [now left|]. split; [simpl; tauto | exact Hj].
    + pose proof (@draw_face_bad verts i j k out (or_introl Hi)) as Hr.
      destruct (draw_face verts [i; j; k] out); [discriminate|].
      split; [|reflexivity]. intros _. exists [i; j; k], i.
      split; [now left|]. split; [simpl; tauto | exact Hi].
Qed.

Lemma face_calls_length (verts : list vertex) (faces : list triangle) :
  Forall (fun t : triangle => List.length t = 3%nat) faces ->
  List.length (flat_map (face_calls verts) faces) =
  (4 * List.length faces)%nat.
Proof.
  induction 1 as [|t faces H3 Hall IH]; [reflexivity|].
  destruct t as [|i [|j [|k [|? ?]]]]; try discriminate.
  cbn [flat_map]. rewrite length_app, IH. simpl. lia.
Qed.

Lemma drawable_three (verts : list vertex) (faces : list triangle) :
  drawable verts faces ->
  Forall (fun t : triangle => List.length t = 3%nat) faces.
Proof. intros H. apply Forall_forall. intros t Ht. now apply H. Qed.

End Drawing.

(** X6. When every face has three indices that are valid subscripts of
    the vertex list (negative ones included), [draw_mesh] does not raise
    and makes, between glBegin and glEnd, four calls per face in the order
    of the faces: the normal of the three corners, then the corners in the
    order of the face. *)
Theorem draw_mesh_calls :
  forall (verts : list vertex) (faces : list triangle) (out : list gl_call),
    drawable verts faces ->
    draw_mesh verts faces out =
    Done (out ++ [glBegin_TRIANGLES] ++
          flat_map (face_calls verts) faces ++ [glEnd]) /\
    List.length (flat_map (face_calls verts) faces) =
    (4 * List.length faces)%nat.
Proof.
  intros verts faces out Hd. split.
  - unfold draw_mesh. rewrite (@draw_faces_ok _ _ _ Hd).
    now rewrite <- !app_assoc.
  - apply face_calls_length. exact (drawable_three Hd).
Qed.

(** Two triangles on four vertices, one of them through the subscript
    -1. *)
Lemma draw_mesh_calls_witness :
  draw_mesh [(0, 0, 0); (1, 0, 0); (0, 1, 0); (1, 1, 0)]%float
            [[0; 1; 2]; [1; -1; 2]]%Z [] =
  Done [glBegin_TRIANGLES;
        glNormal3f 0 0 1; glVertex3f 0 0 0; glVertex3f 1 0 0;
        glVertex3f 0 1 0;
        glNormal3f 0 (-0) 1; glVertex3f 1 0 0; glVertex3f 1 1 0;
        glVertex3f 0 1 0;
        glEnd].
Proof.
  refine (proj1 (@draw_mesh_calls
                   [(0, 0, 0); (1, 0, 0); (0, 1, 0); (1, 1, 0)]%float
                   [[0; 1; 2]; [1; -1; 2]]%Z [] _)).
  intros t [<-|[<-|[]]]; (split; [reflexivity|]);
    intros i [<-|[<-|[<-|[]]]]; unfold subscript_ok, len; simpl; lia.
Defined.

(** X7. On faces of three indices, [draw_mesh] raises exactly when some
    index of some face is no valid subscript of the vertex list, that is
    outside [-len(verts), len(verts) - 1]. *)
Theorem draw_mesh_raises :
  forall (verts : list vertex) (faces : list triangle) (out : list gl_call),
    Forall (fun t : triangle => List.length t = 3%nat) faces ->
    (raised (draw_mesh verts faces out) = true <->
     exists (t : triangle) (i : Z),
       In t faces /\ In i t /\ ~ subscript_ok (len verts) i).
Proof.
  intros verts faces out H3.
  rewrite <- (@draw_faces_raised verts faces H3 (out ++ [glBegin_TRIANGLES])).
  unfold draw_mesh.
  destruct (draw_faces verts faces (out ++ [glBegin_TRIANGLES]));
    simpl; tauto.
Qed.

(** A face with the index 3 on three vertices, and one with -4. *)
Lemma draw_mesh_raises_witness :
  raised (draw_mesh [(0, 0, 0); (1, 0, 0); (0, 1, 0)]%float
            [[0; 1; 2]; [0; 1; 3]]%Z []) = true /\
  raised (draw_mesh [(0, 0, 0); (1, 0, 0); (0, 1, 0)]%float
            [[-4; 1; 2]]%Z []) = true.
Proof.
  split.
  - apply (@draw_mesh_raises [(0, 0, 0); (1, 0, 0); (0, 1, 0)]%float
             [[0; 1; 2]; [0; 1; 3]]%Z []).
    + repeat constructor.
    + exists [0; 1; 3]%Z, 3%Z. split; [right; now left|].
      split; [simpl; tauto|]. unfold subscript_ok, len. simpl. lia.
  - apply (@draw_mesh_raises [(0, 0, 0); (1, 0, 0); (0, 1, 0)]%float
             [[-4; 1; 2]]%Z []).
    + repeat constructor.
    + exists [-4; 1; 2]%Z, (-4)%Z. split; [now left|].
      split; [now left|]. unfold subscript_ok, len. simpl. lia.
Defined.

(** X8. A file whose position indices all lie between [1 - n] and [n],
    for [n] the number of vertices returned, loads into a mesh that
    [draw_mesh] draws without raising, four calls per triangle. *)
Theorem well_formed_file_draws :
  forall (text : string) (out : list gl_call),
    let m := load_obj (Some text) in
    (forall (line : string) (k : Z),
        In line (readlines text) -> In k (face_refs line) ->
        (1 - len (fst m) <= k <= len (fst m))%Z) ->
    drawable (fst m) (snd m) /\
    draw_mesh (fst m) (snd m) out =
    Done (out ++ [glBegin_TRIANGLES] ++
          flat_map (face_calls (fst m)) (snd m) ++ [glEnd]).
Proof.
  intros text out m Hrefs.
  assert (Hd : drawable (fst m) (snd m)).
  { intros t Ht. split.
    - pose proof (load_obj_three (Some text)) as H3.
      rewrite Forall_forall in H3. now apply H3.
    - intros i Hi. unfold m, load_obj, try_block in Ht.
      destruct (read_loop_refs (readlines text) ([], []) t Ht) as [[]|H].
      destruct (H i Hi) as (line & Hl & Hk).
      specialize (Hrefs line (i + 1)%Z Hl Hk).
      unfold subscript_ok. lia. }
  split; [exact Hd|].
  unfold draw_mesh. rewrite (@draw_faces_ok _ _ _ Hd).
  now rewrite <- !app_assoc.
Qed.

(** A square as one face of four references, the last one written 0. *)
Lemma well_formed_file_draws_witness :
  let m := load_obj (Some (unlines ["v 0 0 0"; "v 1 0 0"; "v 1 1 0";
                                   "v 0 1 0"; "f 1 2 3 0"])) in
  snd m = [[0; 1; 2]; [0; 2; -1]]%Z /\
  raised (draw_mesh (fst m) (snd m) []) = false.
Proof.
  cbv zeta. split; [reflexivity|].
  destruct (@well_formed_file_draws
              (unlines ["v 0 0 0"; "v 1 0 0"; "v 1 1 0"; "v 0 1 0";
                        "f 1 2 3 0"]) []) as (_ & H).
  - intros line k Hl Hk. vm_compute in Hl.
    destruct Hl as [<-|[<-|[<-|[<-|[<-|[]]]]]]; vm_compute in Hk;
      try contradiction.
    destruct Hk as [<-|[<-|[<-|[<-|[]]]]]; vm_compute; split; discriminate.
  - rewrite H. reflexivity.
Defined.

(** * Properties of the event loop *)

Section Events.

Local Open Scope list_scope.

Lemma handle_events_cons (w : world) (st : viewer) (ev : event)
  (evs : list event) :
  handle_events w st (ev :: evs) =
  handle_events (fst (handle_event w st ev)) (snd (handle_event w st ev)) evs.
Proof. simpl. now destruct (handle_event w st ev). Qed.

Lemma handle_event_mesh (w : world) (st : viewer) (ev : event) :
  ev <> KEYDOWN K_o ->
  fst (handle_event w st ev) = w /\
  verts (snd (handle_event w st ev)) = verts st /\
  faces (snd (handle_event w st ev)) = faces st.
Proof.
  intros Hev. destruct ev as [|k|button pos|button|pos|]; simpl.
  - repeat split.
  - destruct k; try congruence; repeat split.
  - destruct (button =? 1)%Z; [repeat split|].
    destruct (button =? 4)%Z; [repeat split|].
    destruct (button =? 5)%Z; repeat split.
  - destruct (button =? 1)%Z; repeat split.
  - destruct (mouse_down st); repeat split.
  - repeat split.
Qed.

Lemma handle_event_running (w : world) (st : viewer) (ev : event) :
  running (snd (handle_event w st ev)) = false <->
  running st = false \/ ev = QUIT \/ ev = KEYDOWN K_ESCAPE.
Proof.
  destruct ev as [|k|button pos|button|pos|]; simpl.
  - tauto.
  - destruct k; simpl;
      try (split; [tauto | intros [H|[H|H]]; [exact H | discriminate H..]]).
    + tauto.
    + destruct (open_file_dialog w) as [p w'].
      destruct (is_empty p); simpl;
        (split; [tauto | intros [H|[H|H]]; [exact H | discriminate H..]]).
  - destruct (button =? 1)%Z; [|destruct (button =? 4)%Z;
                                 [|destruct (button =? 5)%Z]]; simpl;
      (split; [tauto | intros [H|[H|H]]; [exact H | discriminate H..]]).
  - destruct (button =? 1)%Z; simpl;
      (split; [tauto | intros [H|[H|H]]; [exact H | discriminate H..]]).
  - destruct (mouse_down st); simpl;
      (split; [tauto | intros [H|[H|H]]; [exact H | discriminate H..]]).
  - split; [tauto | intros [H|[H|H]]; [exact H | discriminate H..]].
Qed.

Lemma handle_events_running (w : world) (st : viewer) (evs : list event) :
  running (snd (handle_events w st evs)) = false <->
  running st = false \/ In QUIT evs \/ In (KEYDOWN K_ESCAPE) evs.
Proof.
  revert w st. induction evs as [|ev evs IH]; intros w st.
  - simpl. tauto.
  - rewrite handle_events_cons, IH, handle_event_running. simpl.
    split.
    + intros [[H|[H|H]]|[H|H]]; auto.
    + intros [H|[[H|H]|[H|H]]]; auto.
Qed.

Lemma handle_event_three (w : world) (st : viewer) (ev : event) :
  Forall (fun t : triangle => List.length t = 3%nat) (faces st) ->
  Forall (fun t : triangle => List.length t = 3%nat)
         (faces (snd (handle_event w st ev))).
Proof.
  intros H.
  destruct (event_is_open ev) eqn:E.
  - destruct ev as [|k| | | |]; try discriminate. destruct k; try discriminate.
    simpl. destruct (open_file_dialog w) as [p w'].
    destruct (is_empty p); simpl; [exact H | apply load_obj_three].
  - assert (Hev : ev <> KEYDOWN K_o) by (intros ->; discriminate).
    destruct (handle_event_mesh w st Hev) as (_ & _ & ->). exact H.
Qed.

End Events.

Section Camera.

Local Open Scope list_scope.

Lemma handle_event_rotation (w : world) (st : viewer) (ev : event) :
  mouse_down st = false ->
  (forall pos : Z * Z, ev <> MOUSEBUTTONDOWN 1 pos) ->
  ev <> KEYDOWN K_r ->
  rot_x (snd (handle_event w st ev)) = rot_x st /\
  rot_y (snd (handle_event w st ev)) = rot_y st /\
  mouse_down (snd (handle_event w st ev)) = false.
Proof.
  intros Hup Hdown Hr.
  destruct ev as [|k|button pos|button|pos|]; simpl.
  - now repeat split.
  - destruct k; try congruence; try (now repeat split).
    destruct (open_file_dialog w) as [p w'].
    destruct (is_empty p); now repeat split.
  - destruct (Z.eqb_spec button 1) as [->|_].
    { now destruct (Hdown pos). }
    destruct (button =? 4)%Z; [now repeat split|].
    destruct (button =? 5)%Z; now repeat split.
  - destruct (button =? 1)%Z; now repeat split.
  - rewrite Hup. now repeat split.
  - now repeat split.
Qed.

Lemma handle_event_zoom (w : world) (st : viewer) (ev : event) :
  ev <> KEYDOWN K_UP -> ev <> KEYDOWN K_DOWN ->
  (forall pos : Z * Z, ev <> MOUSEBUTTONDOWN 4 pos) ->
  (forall pos : Z * Z, ev <> MOUSEBUTTONDOWN 5 pos) ->
  zoom (snd (handle_event w st ev)) = zoom st.
Proof.
  intros Hup Hdown H4 H5.
  destruct ev as [|k|button pos|button|pos|]; simpl; try reflexivity.
  - destruct k; try congruence; try reflexivity.
    destruct (open_file_dialog w) as [p w'].
    now destruct (is_empty p).
  - destruct (button =? 1)%Z; [reflexivity|].
    destruct (Z.eqb_spec button 4) as [->|_]; [now destruct (H4 pos)|].
    destruct (Z.eqb_spec button 5) as [->|_]; [now destruct (H5 pos)|].
    reflexivity.
  - now destruct (button =? 1)%Z.
  - now destruct (mouse_down st).
Qed.

Lemma run_stopped (w : world) (st : viewer) (batches : list (list event))
  (screen : list gl_call) :
  running st = false -> run w st batches screen = (w, st, Done screen).
Proof. intros H. destruct batches; simpl; [reflexivity | now rewrite H]. Qed.

End Camera.

(** X9. Only the open-file command touches the mesh and the outside
    world: after any events without it, the vertices and the triangles are
    the same, and no dialog was opened. *)
Theorem camera_events_keep_mesh :
  forall (w : world) (st : viewer) (evs : list event),
    ~ In (KEYDOWN K_o) evs ->
    fst (handle_events w st evs) = w /\
    verts (snd (handle_events w st evs)) = verts st /\
    faces (snd (handle_events w st evs)) = faces st.
Proof.
  intros w st evs. revert w st.
  induction evs as [|ev evs IH]; intros w st Hno.
  - now repeat split.
  - rewrite handle_events_cons.
    assert (Hev : ev <> KEYDOWN K_o) by (intros ->; apply Hno; now left).
    destruct (handle_event_mesh w st Hev) as (Hw & Hv & Hf).
    destruct (IH (fst (handle_event w st ev)) (snd (handle_event w st ev)))
      as (Hw' & Hv' & Hf').
    { intros H. apply Hno. now right. }
    rewrite Hw', Hv', Hf'. now repeat split.
Qed.

Lemma camera_events_keep_mesh_witness :
  let r := handle_events (World demo_files ["empty.obj"]) demo_viewer
             [MOUSEBUTTONDOWN 1 (3, 4)%Z; MOUSEMOTION (9, 9)%Z;
              KEYDOWN K_r; KEYDOWN K_UP; MOUSEBUTTONUP 1] in
  fst r = World demo_files ["empty.obj"] /\
  verts (snd r) = verts demo_viewer /\ faces (snd r) = faces demo_viewer.
Proof.
  apply (@camera_events_keep_mesh (World demo_files ["empty.obj"])
           demo_viewer).
  intros [H|[H|[H|[H|[H|[]]]]]]; discriminate.
Defined.

(** X10. [running] becomes false exactly on a window-close event or the
    Escape key, and no event sets it back. The iteration in which that
    happens still handles the rest of its events and draws its frame; the
    batches of events after it are never handled. *)
Theorem quit_ends_loop :
  forall (w : world) (st : viewer) (evs : list event),
    (running (snd (handle_events w st evs)) = false <->
     running st = false \/ In QUIT evs \/ In (KEYDOWN K_ESCAPE) evs) /\
    (running st = true ->
     In QUIT evs \/ In (KEYDOWN K_ESCAPE) evs ->
     forall (later : list (list event)) (screen : list gl_call),
       run w st (evs :: later) screen =
       (fst (handle_events w st evs), snd (handle_events w st evs),
        match render (snd (handle_events w st evs)) with
        | Done calls => Done (screen ++ calls)
        | Raised calls => Raised (screen ++ calls)
        end)).
Proof.
  intros w st evs. split; [apply handle_events_running|].
  intros Hrun Hquit later screen. cbn [run]. rewrite Hrun.
  assert (Hstop : running (snd (handle_events w st evs)) = false).
  { apply handle_events_running. now right. }
  destruct (handle_events w st evs) as [w' st']. simpl in *.
  destruct (render st') as [calls|calls]; [|reflexivity].
  now apply run_stopped.
Qed.

(** Quit, then a zoom key in the same batch; a second batch follows. *)
Lemma quit_ends_loop_witness :
  let r := run (World demo_files []) demo_viewer
             [[QUIT; KEYDOWN K_UP]; [KEYDOWN K_UP; KEYDOWN K_UP]] [] in
  zoom (snd (fst r)) = 4%float /\ running (snd (fst r)) = false /\
  raised (snd r) = false.
Proof.
  cbv zeta.
  rewrite (proj2 (@quit_ends_loop (World demo_files []) demo_viewer
                    [QUIT; KEYDOWN K_UP]) eq_refl
             (or_introl (or_introl eq_refl))
             [[KEYDOWN K_UP; KEYDOWN K_UP]] []).
  repeat split.
Defined.

(** X11. The rotation changes only through a drag or the reset key:
    while the left button is up, events other than a left button press
    and the reset key leave both angles as they are, mouse moves
    included. *)
Theorem rotation_needs_drag :
  forall (w : world) (st : viewer) (evs : list event),
    mouse_down st = false ->
    (forall pos : Z * Z, ~ In (MOUSEBUTTONDOWN 1 pos) evs) ->
    ~ In (KEYDOWN K_r) evs ->
    rot_x (snd (handle_events w st evs)) = rot_x st /\
    rot_y (snd (handle_events w st evs)) = rot_y st /\
    mouse_down (snd (handle_events w st evs)) = false.
Proof.
  intros w st evs. revert w st.
  induction evs as [|ev evs IH]; intros w st Hup Hdown Hr.
  - now repeat split.
  - rewrite handle_events_cons.
    destruct (@handle_event_rotation w st ev Hup) as (Hx & Hy & Hm).
    { intros pos ->. apply (Hdown pos). now left. }
    { intros ->. apply Hr. now left. }
    destruct (IH (fst (handle_event w st ev)) (snd (handle_event w st ev)) Hm)
      as (Hx' & Hy' & Hm').
    { intros pos H. apply (Hdown pos). now right. }
    { intros H. apply Hr. now right. }
    rewrite Hx', Hy', Hm'. now repeat split.
Qed.

Lemma rotation_needs_drag_witness :
  let r := handle_events (World demo_files []) blank_viewer
             [MOUSEBUTTONUP 1; MOUSEMOTION (50, 60)%Z;
              MOUSEBUTTONDOWN 3 (1, 1)%Z; MOUSEMOTION (0, 0)%Z;
              KEYDOWN K_DOWN] in
  rot_x (snd r) = 30%float /\ rot_y (snd r) = 0%float.
Proof.
  cbv zeta.
  rewrite handle_events_cons.
  destruct (@rotation_needs_drag
              (fst (handle_event (World demo_files []) blank_viewer
                      (MOUSEBUTTONUP 1)))
              (snd (handle_event (World demo_files []) blank_viewer
                      (MOUSEBUTTONUP 1)))
              [MOUSEMOTION (50, 60)%Z; MOUSEBUTTONDOWN 3 (1, 1)%Z;
               MOUSEMOTION (0, 0)%Z; KEYDOWN K_DOWN] eq_refl)
    as (Hx & Hy & _).
  - intros pos [H|[H|[H|[H|[]]]]]; discriminate.
  - intros [H|[H|[H|[H|[]]]]]; discriminate.
  - rewrite Hx, Hy. split; reflexivity.
Defined.

(** X12. The zoom changes only through the arrow keys and the wheel
    (buttons 4 and 5): any other events, a reload and a reset included,
    leave it as it is. *)
Theorem zoom_needs_zoom_event :
  forall (w : world) (st : viewer) (evs : list event),
    ~ In (KEYDOWN K_UP) evs -> ~ In (KEYDOWN K_DOWN) evs ->
    (forall pos : Z * Z, ~ In (MOUSEBUTTONDOWN 4 pos) evs) ->
    (forall pos : Z * Z, ~ In (MOUSEBUTTONDOWN 5 pos) evs) ->
    zoom (snd (handle_events w st evs)) = zoom st.
Proof.
  intros w st evs. revert w st.
  induction evs as [|ev evs IH]; intros w st Hup Hdown H4 H5.
  - reflexivity.
  - rewrite handle_events_cons, IH.
    + apply handle_event_zoom.
      * intros ->. apply Hup. now left.
      * intros ->. apply Hdown. now left.
      * intros pos ->. apply (H4 pos). now left.
      * intros pos ->. apply (H5 pos). now left.
    + intros H. apply Hup. now right.
    + intros H. apply Hdown. now right.
    + intros pos H. apply (H4 pos). now right.
    + intros pos H. apply (H5 pos). now right.
Qed.

Lemma zoom_needs_zoom_event_witness :
  zoom (snd (handle_events (World demo_files ["empty.obj"]) demo_viewer
               [KEYDOWN K_o; KEYDOWN K_r; MOUSEBUTTONDOWN 1 (0, 0)%Z;
                MOUSEMOTION (5, 5)%Z])) = 5%float.
Proof.
  apply (@zoom_needs_zoom_event (World demo_files ["empty.obj"])
           demo_viewer).
  - intros [H|[H|[H|[H|[]]]]]; discriminate.
  - intros [H|[H|[H|[H|[]]]]]; discriminate.
  - intros pos [H|[H|[H|[H|[]]]]]; discriminate.
  - intros pos [H|[H|[H|[H|[]]]]]; discriminate.
Defined.

Section Startup.

Local Open Scope list_scope.

Lemma truthy_false (A : Type) (l : list A) : truthy l = false <-> l = [].
Proof. destruct l; simpl; split; congruence. Qed.

Lemma is_empty_true (s : string) : is_empty s = true <-> s = "".
Proof. destruct s; simpl; split; congruence. Qed.

Lemma handle_events_three (w : world) (st : viewer) (evs : list event) :
  Forall (fun t : triangle => List.length t = 3%nat) (faces st) ->
  Forall (fun t : triangle => List.length t = 3%nat)
         (faces (snd (handle_events w st evs))).
Proof.
  revert w st. induction evs as [|ev evs IH]; intros w st H.
  - exact H.
  - rewrite handle_events_cons. apply IH. now apply handle_event_three.
Qed.

End Startup.

(** X13. [main] returns before opening a window exactly when it has no
    path, or the file gives no vertex, or it gives no triangle (an
    unreadable file gives neither). Otherwise the loop starts with the
    loaded mesh, which has a vertex and a triangle, at zoom 5 with no
    rotation and the button up. *)
Theorem startup_needs_mesh :
  forall (w : world) (argv : list string),
    let path := startup_path w argv in
    let m := load_obj (files w path) in
    (snd (startup w argv) = None <->
     path = "" \/ fst m = [] \/ snd m = []) /\
    (forall st : viewer,
        snd (startup w argv) = Some st ->
        (verts st, faces st) = m /\
        verts st <> [] /\ faces st <> [] /\
        zoom st = 5%float /\ rot_x st = 0%float /\ rot_y st = 0%float /\
        mouse_down st = false /\ running st = true).
Proof.
  intros w argv path m.
  assert (E : startup w argv =
              (if is_empty path then
                 (match argv with
                  | _ :: _ :: _ => w
                  | _ => snd (open_file_dialog w)
                  end, None)
               else
                 (match argv with
                  | _ :: _ :: _ => w
                  | _ => snd (open_file_dialog w)
                  end,
                  if negb (truthy (fst m)) || negb (truthy (snd m)) then None
                  else Some {| verts := fst m; faces := snd m; zoom := 5.0;
                               rot_x := 0.0; rot_y := 0.0;
                               mouse_down := false;
                               last_mouse := (0, 0)%Z; running := true |}))).
  { unfold startup, m, path, startup_path.
    assert (Hfiles : files (snd (open_file_dialog w)) = files w).
    { unfold open_file_dialog. now destruct (dialog w). }
    destruct argv as [|prog [|p argv]].
    - destruct (open_file_dialog w) as [q w1] eqn:Eq. simpl in *.
      destruct (is_empty q); [reflexivity|]. rewrite Hfiles.
      destruct (load_obj (files w q)) as [vs fs]. simpl.
      now destruct (negb (truthy vs) || negb (truthy fs)).
    - destruct (open_file_dialog w) as [q w1] eqn:Eq. simpl in *.
      destruct (is_empty q); [reflexivity|]. rewrite Hfiles.
      destruct (load_obj (files w q)) as [vs fs]. simpl.
      now destruct (negb (truthy vs) || negb (truthy fs)).
    - destruct (is_empty p); [reflexivity|].
      destruct (load_obj (files w p)) as [vs fs]. simpl.
      now destruct (negb (truthy vs) || negb (truthy fs)). }
  rewrite E. clear E. split.
  - destruct (is_empty path) eqn:Hp.
    + simpl. apply is_empty_true in Hp. tauto.
    + assert (Hne : path <> "").
      { intros H. apply is_empty_true in H. congruence. }
      simpl. destruct (truthy (fst m)) eqn:Hv; simpl.
      * destruct (truthy (snd m)) eqn:Hf; simpl.
        -- split; [discriminate|].
           intros [H|[H|H]]; [contradiction| |].
           ++ apply truthy_false in H. congruence.
           ++ apply truthy_false in H. congruence.
        -- apply truthy_false in Hf. tauto.
      * apply truthy_false in Hv. tauto.
  - intros st. destruct (is_empty path); simpl; [discriminate|].
    destruct (truthy (fst m)) eqn:Hv; simpl; [|discriminate].
    destruct (truthy (snd m)) eqn:Hf; simpl; [|discriminate].
    intros [= <-]. simpl. repeat split.
    + now destruct m.
    + intros H. apply truthy_false in H. congruence.
    + intros H. apply truthy_false in H. congruence.
Qed.

(** Started on the empty file, and on the sample file. *)
Lemma startup_needs_mesh_witness :
  snd (startup (World demo_files []) ["obj3d.py"; "empty.obj"]) = None /\
  exists st : viewer,
    snd (startup (World demo_files ["a.obj"]) ["obj3d.py"]) = Some st /\
    verts st <> [] /\ faces st <> [].
Proof.
  split.
  - apply (@startup_needs_mesh (World demo_files [])
             ["obj3d.py"; "empty.obj"]).
    right. left. reflexivity.
  - eexists. split; [reflexivity|].
    destruct (proj2 (@startup_needs_mesh (World demo_files ["a.obj"])
                       ["obj3d.py"]) _ eq_refl) as (_ & Hv & Hf & _).
    split; [exact Hv | exact Hf].
Defined.

(** X14. Whatever the events, and whatever files are opened on the way,
    every face the viewer holds after a start has exactly three indices:
    the subscripts [f[0]], [f[1]], [f[2]] of [draw_mesh] never fail on the
    face itself. *)
Theorem viewer_faces_are_triangles :
  forall (w : world) (argv : list string) (st : viewer) (evs : list event),
    snd (startup w argv) = Some st ->
    Forall (fun t : triangle => List.length t = 3%nat)
           (faces (snd (handle_events (fst (startup w argv)) st evs))).
Proof.
  intros w argv st evs Hstart. apply handle_events_three.
  unfold startup in Hstart.
  destruct (match argv with
            | _ :: p :: _ => (p, w)
            | _ => open_file_dialog w
            end) as [path w1].
  destruct (is_empty path); [discriminate|].
  pose proof (load_obj_three (files w1 path)) as H3.
  destruct (load_obj (files w1 path)) as [vs fs].
  destruct (negb (truthy vs) || negb (truthy fs)); [discriminate|].
  simpl in Hstart. injection Hstart as <-. exact H3.
Qed.

Lemma viewer_faces_are_triangles_witness :
  Forall (fun t : triangle => List.length t = 3%nat)
         (faces (snd (handle_events
                        (fst (startup (World demo_files ["copy.obj"])
                                ["obj3d.py"; "a.obj"]))
                        demo_viewer
                        [KEYDOWN K_UP; KEYDOWN K_o]))).
Proof.
  apply (@viewer_faces_are_triangles (World demo_files ["copy.obj"])
           ["obj3d.py"; "a.obj"] demo_viewer [KEYDOWN K_UP; KEYDOWN K_o]).
  reflexivity.
Defined.

(** X15. A frame raises exactly when the mesh has a vertex and a face
    and some index of some face is no valid subscript of the vertices.
    With no vertex or no face nothing is drawn and nothing can fail. *)
Theorem render_raises :
  forall (st : viewer),
    Forall (fun t : triangle => List.length t = 3%nat) (faces st) ->
    (raised (render st) = true <->
     verts st <> [] /\
     exists (t : triangle) (i : Z),
       In t (faces st) /\ In i t /\ ~ subscript_ok (len (verts st)) i).
Proof.
  intros st H3. unfold render.
  destruct (truthy (verts st)) eqn:Hv; cbn [andb].
  - assert (Hne : verts st <> []).
    { intros H. apply truthy_false in H. congruence. }
    destruct (truthy (faces st)) eqn:Hf; cbn [andb raised].
    + unfold draw_mesh.
      pose proof (@draw_faces_raised (verts st) (faces st) H3
                    ((frame_head st ++ [glColor3f 0.6 0.5 0.0])
                       ++ [glBegin_TRIANGLES])) as Hiff.
      destruct (draw_faces (verts st) (faces st)
                  ((frame_head st ++ [glColor3f 0.6 0.5 0.0])
                     ++ [glBegin_TRIANGLES])); cbn [raised] in *; tauto.
    + apply truthy_false in Hf. rewrite Hf. split; [discriminate|].
      intros (_ & t & i & [] & _).
  - apply truthy_false in Hv. split; [discriminate | tauto].
Qed.

(** Three vertices: the index 3 fails, the index -3 does not. *)
Lemma render_raises_witness :
  raised (render (set_mesh demo_viewer
                    ([(0, 0, 0); (1, 0, 0); (0, 1, 0)]%float,
                     [[0; 1; 3]%Z]))) = true /\
  raised (render (set_mesh demo_viewer
                    ([(0, 0, 0); (1, 0, 0); (0, 1, 0)]%float,
                     [[-3; 1; 2]%Z]))) = false.
Proof.
  split; [|reflexivity].
  apply (@render_raises (set_mesh demo_viewer
                           ([(0, 0, 0); (1, 0, 0); (0, 1, 0)]%float,
                            [[0; 1; 3]%Z]))).
  - repeat constructor.
  - split; [discriminate|].
    exists [0; 1; 3]%Z, 3%Z. split; [now left|]. split; [simpl; tauto|].
    unfold subscript_ok, len. simpl. lia.
Defined.

(** * Tokens of a line *)

Section Tokens.

Local Open Scope string_scope.
Local Open Scope list_scope.

Lemma split_lstrip (s : string) : split_from "" (lstrip s) = split_from "" s.
Proof.
  induction s as [|c s IH]; [reflexivity|].
  cbn [lstrip split_from]. destruct (is_space c) eqn:Hc.
  - exact IH.
  - cbn [split_from is_empty]. now rewrite Hc.
Qed.

Lemma split_rstrip (s cur : string) :
  split_from cur (rstrip s) = split_from cur s.
Proof.
  revert cur. induction s as [|c s IH]; intros cur; [reflexivity|].
  cbn [rstrip]. destruct (is_space c) eqn:Hc; cbn [andb].
  - destruct (is_empty (rstrip s)) eqn:He.
    + cbn [split_from]. rewrite Hc, <- (IH "").
      destruct (rstrip s); [|discriminate]. reflexivity.
    + cbn [split_from]. rewrite Hc, (IH ""). reflexivity.
  - cbn [split_from]. rewrite Hc. apply IH.
Qed.

End Tokens.

(** X19. The tokens of a line are the same with and without the call of
    [strip]: white space around a line, its line end included, never
    changes how the line is read. *)
Theorem strip_keeps_tokens :
  forall (line : string), split (strip line) = split line.
Proof.
  intros line. unfold split, strip.
  now rewrite split_rstrip, split_lstrip.
Qed.
